(** * Equihash collision search and verifier (src/crypto/equihash.cpp)

    A shallow embedding of the row algebra, the two solvers and the verifier
    of [equihash.cpp], followed by the properties of the design document
    checked against it.

    Conventions of the embedding
    - [eh_index] (uint32_t) and bytes (unsigned char, [eh_trunc]) are [Z];
      the 32-bit wrap-around of a left shift is written out with [u32].
    - [unsigned char hash[WIDTH]] is a [list Z] of length [WIDTH]; offsets,
      lengths and loop counters are [nat].  A store outside the array does
      nothing in the model; the constructors' [assert]s exclude such stores.
    - [std::vector] is a [list]; [X[i]] on the solver side is a total read,
      on the verifier side a checked read.
    - the Blake2b primitive, [std::sort] and the cancellation probe are
      parameters of the development. *)

From Stdlib Require Import ZArith Lia Bool.
From stdpp Require Import base tactics option list numbers sorting.

Local Open Scope Z_scope.

(** ** Machine integers and bytes *)

Definition u32 (z : Z) : Z := z mod 2 ^ 32.

(** [hash[i]] for an index that the surrounding loop keeps in range. *)
Definition byte_at (h : list Z) (i : nat) : Z := default 0 (h !! i).

(** [std::copy(src + first, src + last, dst + d)]. *)
Definition std_copy (src : list Z) (first last : nat) (d : nat) (dst : list Z) : list Z :=
  list_inserts d (take (last - first) (drop first src)) dst.

(** [htole32] followed by [memcpy] into a 4-byte array. *)
Definition le32 (i : Z) : list Z :=
  [ Z.land i 255; Z.land (Z.shiftr i 8) 255;
    Z.land (Z.shiftr i 16) 255; Z.land (Z.shiftr i 24) 255 ].

(** [EhIndexToArray]: [htobe32] followed by [memcpy]. *)
Definition EhIndexToArray (i : Z) : list Z :=
  [ Z.land (Z.shiftr i 24) 255; Z.land (Z.shiftr i 16) 255;
    Z.land (Z.shiftr i 8) 255; Z.land i 255 ].

(** [ArrayToEhIndex(array)], reading the four bytes at [array + off]. *)
Definition ArrayToEhIndex (array : list Z) (off : nat) : Z :=
  Z.lor (Z.shiftl (byte_at array off) 24)
    (Z.lor (Z.shiftl (byte_at array (off + 1)) 16)
       (Z.lor (Z.shiftl (byte_at array (off + 2)) 8) (byte_at array (off + 3)))).

(** [TruncateIndex]: [(i >> (ilen - 8)) & 0xff]; [ilen - 8] is an
    [unsigned int] subtraction. *)
Definition TruncateIndex (i : Z) (ilen : Z) : Z :=
  Z.land (Z.shiftr i (u32 (ilen - 8))) 255.

(** [UntruncateIndex]: [eh_index i{t}; return (i << (ilen - 8)) | r;]. *)
Definition UntruncateIndex (t : Z) (r : Z) (ilen : Z) : Z :=
  let i := t in
  Z.lor (u32 (Z.shiftl i (u32 (ilen - 8)))) r.

Local Close Scope Z_scope.

(** ** Row algebra *)

(** [StepRow<WIDTH>::StepRow(const StepRow<W>& a)]: the first [W] bytes are
    copied, the bytes past them are left as they were (uninitialised memory,
    written as 0). *)
Definition StepRow_copy (WIDTH : nat) (a : list Z) : list Z :=
  list_inserts 0 a (replicate WIDTH 0%Z).

(** The loop [for (int i = trim; i < len; i++) hash[i-trim] = a.hash[i] ^ b.hash[i];]
    shared by the two merge constructors. *)
Definition xor_loop (a b : list Z) (trim len : nat) (hash : list Z) : list Z :=
  foldl (fun hash i => <[i - trim := Z.lxor (byte_at a i) (byte_at b i)]> hash)
        hash (seq trim (len - trim)).

(** [StepRow::IsZero(len)]. *)
Fixpoint IsZero_from (hash : list Z) (i n : nat) : bool :=
  match n with
  | O => true
  | S n' => if negb (byte_at hash i =? 0)%Z then false else IsZero_from hash (S i) n'
  end.
Definition IsZero (hash : list Z) (len : nat) : bool := IsZero_from hash 0 len.

(** [HasCollision(a, b, l)]. *)
Fixpoint HasCollision_from (a b : list Z) (j n : nat) : bool :=
  match n with
  | O => true
  | S n' => if negb (byte_at a j =? byte_at b j)%Z then false
            else HasCollision_from a b (S j) n'
  end.
Definition HasCollision (a b : list Z) (l : nat) : bool := HasCollision_from a b 0 l.

(** [FullStepRow::GetIndices(len, lenIndices)]: one index per four bytes. *)
Definition GetIndices (hash : list Z) (len lenIndices : nat) : list Z :=
  map (fun q => ArrayToEhIndex hash (len + 4 * q)) (seq 0 ((lenIndices + 3) / 4)).

(** [TruncatedStepRow::GetTruncatedIndices(len, lenIndices)]. *)
Definition GetTruncatedIndices (hash : list Z) (len lenIndices : nat) : list Z :=
  take lenIndices (drop len hash).

(** Modelled from the spec: [FullStepRow::IndicesBefore] is declared in
    crypto/equihash.h, which is not part of the sources.  The design document
    defines [a] before [b] as: the leftmost index of [a]'s history is
    strictly less than the leftmost index of [b]'s history. *)
Definition IndicesBefore (a b : list Z) (len lenIndices : nat) : bool :=
  (ArrayToEhIndex a len <? ArrayToEhIndex b len)%Z.

(** Modelled from the spec: [TruncatedStepRow::IndicesBefore], the same
    comparison on a history of one-byte truncated indices. *)
Definition TruncatedIndicesBefore (a b : list Z) (len lenIndices : nat) : bool :=
  (byte_at a len <? byte_at b len)%Z.

(** [FullStepRow<WIDTH>::FullStepRow(a, b, len, lenIndices, trim)]. *)
Definition FullStepRow_merge (WIDTH : nat) (a b : list Z) (len lenIndices trim : nat) : list Z :=
  let hash := StepRow_copy WIDTH a in
  let hash := xor_loop a b trim len hash in
  if IndicesBefore a b len lenIndices then
    let hash := std_copy a len (len + lenIndices) (len - trim) hash in
    std_copy b len (len + lenIndices) (len - trim + lenIndices) hash
  else
    let hash := std_copy b len (len + lenIndices) (len - trim) hash in
    std_copy a len (len + lenIndices) (len - trim + lenIndices) hash.

(** [TruncatedStepRow<WIDTH>::TruncatedStepRow(a, b, len, lenIndices, trim)]. *)
Definition TruncatedStepRow_merge (WIDTH : nat) (a b : list Z) (len lenIndices trim : nat) : list Z :=
  let hash := StepRow_copy WIDTH a in
  let hash := xor_loop a b trim len hash in
  if TruncatedIndicesBefore a b len lenIndices then
    let hash := std_copy a len (len + lenIndices) (len - trim) hash in
    std_copy b len (len + lenIndices) (len - trim + lenIndices) hash
  else
    let hash := std_copy b len (len + lenIndices) (len - trim) hash in
    std_copy a len (len + lenIndices) (len - trim + lenIndices) hash.

(** The bytes [a.hash[trim + x] ^ b.hash[trim + x]] for [x] below [n], and
    the bytes of the index history of a row. *)
Definition xor_bytes (a b : list Z) (trim n : nat) : list Z :=
  map (fun x => Z.lxor (byte_at a (trim + x)) (byte_at b (trim + x))) (seq 0 n).

Definition index_history (hash : list Z) (len lenIndices : nat) : list Z :=
  take lenIndices (drop len hash).

(** Two rows that carry the same bytes below [n]. *)
Definition agree (n : nat) (r r' : list Z) : Prop :=
  forall x, x < n -> byte_at r x = byte_at r' x.

(** The two [assert]s at the head of both merge constructors, for operands of
    width [W] and a result of width [WIDTH]; [len - trim] is computed in
    [size_t], so the second one also needs [trim <= len]. *)
Definition merge_asserts (W WIDTH len lenIndices trim : nat) : Prop :=
  (len + lenIndices <= W)%nat /\ (trim <= len)%nat /\
  (len - trim + 2 * lenIndices <= WIDTH)%nat.

(** Modelled from the spec: [CompareSR] is declared in crypto/equihash.h;
    the design document gives it as the lexicographic unsigned comparison of
    the first [len] bytes ([memcmp(a, b, len) < 0]). *)
Fixpoint memcmp_from (a b : list Z) (off n : nat) : comparison :=
  match n with
  | O => Eq
  | S n' => match (byte_at a off ?= byte_at b off)%Z with
            | Eq => memcmp_from a b (S off) n'
            | c => c
            end
  end.
Definition CompareSR (len : nat) (a b : list Z) : bool :=
  match memcmp_from a b 0 len with Lt => true | _ => false end.

Fixpoint strictly_increasing (l : list Z) : bool :=
  match l with
  | x :: (y :: _) as t => (x <? y)%Z && strictly_increasing t
  | _ => true
  end.

(** Modelled from the spec: [DistinctIndices] is declared in
    crypto/equihash.h.  The design document: sort a scratch copy of the
    2*lenIndices bytes of indices of the two rows and verify that it is
    strictly increasing. *)
Definition DistinctIndices (a b : list Z) (len lenIndices : nat) : bool :=
  let scratch := GetIndices a len lenIndices ++ GetIndices b len lenIndices in
  strictly_increasing (merge_sort Z.le scratch).

(** Modelled from the spec: [IsValidBranch] is declared in
    crypto/equihash.h; the design document: the truncation of the leftmost
    full index of the row's history equals the expected truncated index. *)
Definition IsValidBranch (a : list Z) (len : nat) (ilen : Z) (t : Z) : bool :=
  (TruncateIndex (ArrayToEhIndex a len) ilen =? t)%Z.

(** ** The truncated-index duplicate filter *)

Definition flag_at (checked_index : list bool) (z : nat) : bool :=
  default false (checked_index !! z).

(** The inner loop of [IsProbablyDuplicate]:
    [for (int y = z+1; y < lenIndices; y++)], left by [break] at the first
    unchecked [y] that carries the same byte as [z]; [n] counts the
    iterations that remain. *)
Fixpoint find_pair (indices : list Z) (z y n : nat) (checked_index : list bool) : list bool :=
  match n with
  | O => checked_index
  | S n' =>
      if negb (flag_at checked_index y) && (byte_at indices z =? byte_at indices y)%Z
      then <[z := true]> (<[y := true]> checked_index)
      else find_pair indices z (S y) n' checked_index
  end.

(** The closing loop
    [for (int z = 0; z < lenIndices && is_probably_duplicate; z++)]. *)
Fixpoint all_checked (checked_index : list bool) (z n : nat) (is_probably_duplicate : bool) : bool :=
  match n with
  | O => is_probably_duplicate
  | S n' =>
      if is_probably_duplicate
      then all_checked checked_index (S z) n' (is_probably_duplicate && flag_at checked_index z)
      else is_probably_duplicate
  end.

Definition IsProbablyDuplicate (indices : list Z) (lenIndices : nat) : bool :=
  let checked_index := replicate lenIndices false in
  let checked_index :=
    foldl (fun checked_index z =>
             if negb (flag_at checked_index z)
             then find_pair indices z (z + 1) (lenIndices - (z + 1)) checked_index
             else checked_index)
          checked_index (seq 0 lenIndices) in
  all_checked checked_index 0 lenIndices true.

(** The number of positions of [l] that hold the byte [v]. *)
Definition occurrences (v : Z) (l : list Z) : nat :=
  length (filter (fun x => x = v) l).

(** The bytes of the positions that are still unchecked, and the flags after
    checking the first unchecked position that holds [v], if there is one. *)
Fixpoint live (bytes : list Z) (flags : list bool) : list Z :=
  match bytes, flags with
  | x :: bytes', f :: flags' => if f then live bytes' flags' else x :: live bytes' flags'
  | _, _ => []
  end.

Fixpoint mark_first (v : Z) (bytes : list Z) (flags : list bool) : option (list bool) :=
  match bytes, flags with
  | x :: bytes', f :: flags' =>
      if negb f && (v =? x)%Z then Some (true :: flags')
      else cons f <$> mark_first v bytes' flags'
  | _, _ => None
  end.

(** ** Cancellation and the solver monad *)

Inductive EhSolverCancelCheck : Set :=
  | ListGeneration | ListSorting | ListColliding | RoundEnd
  | FinalSorting | FinalColliding
  | PartialGeneration | PartialSorting | PartialSubtreeEnd
  | PartialIndexEnd | PartialEnd.

(** What a solver call surfaces: a value, the [solver_cancelled] exception,
    or a failed [assert]. *)
Inductive outcome (A : Type) : Type :=
  | Returned (a : A)
  | SolverCancelled
  | AssertionFailed.
Arguments Returned {A} a.
Arguments SolverCancelled {A}.
Arguments AssertionFailed {A}.

(** The probe is a [std::function<bool(EhSolverCancelCheck)>]: its answer may
    depend on everything it has been asked before.  The log holds the labels
    of the invocations so far, the most recent one first. *)
Definition probe_log : Type := list EhSolverCancelCheck.
Definition probe : Type := probe_log -> EhSolverCancelCheck -> bool.

Definition solver (A : Type) : Type := probe_log -> outcome A * probe_log.

Definition solver_ret {A : Type} (a : A) : solver A := fun log => (Returned a, log).

Definition solver_bind {A B : Type} (m : solver A) (f : A -> solver B) : solver B :=
  fun log =>
    match m log with
    | (Returned a, log') => f a log'
    | (SolverCancelled, log') => (SolverCancelled, log')
    | (AssertionFailed, log') => (AssertionFailed, log')
    end.

Notation "x <- m ;; k" := (solver_bind m (fun x => k))
  (at level 100, m at next level, right associativity).
Notation "m ;;; k" := (solver_bind m (fun _ => k))
  (at level 100, right associativity).

(** [if (cancelled(label)) throw solver_cancelled;] *)
Definition throw_if (cancelled : probe) (label : EhSolverCancelCheck) : solver unit :=
  fun log =>
    if cancelled log label then (SolverCancelled, label :: log)
    else (Returned tt, label :: log).

(** [assert(c)] inside a solver. *)
Definition solver_assert (c : bool) : solver unit :=
  fun log => if c then (Returned tt, log) else (AssertionFailed, log).

(** A counted [for] loop over the values of its variable, threading the
    loop-carried state. *)
Fixpoint for_each {A S : Type} (values : list A) (body : A -> S -> solver S) (s : S) : solver S :=
  match values with
  | [] => solver_ret s
  | x :: values' => s' <- body x s ;; for_each values' body s'
  end.

(** ** Vectors of rows *)

(** [X[i]] on a vector of rows. *)
Definition row_at (X : list (list Z)) (i : nat) : list Z := default [] (X !! i).

(** [Xc.back()] and [Xc.pop_back()]. *)
Definition back (Xc : list (list Z)) : list Z := default [] (last Xc).
Definition pop_back (Xc : list (list Z)) : list (list Z) := take (length Xc - 1) Xc.

(** The pairs [(l, m)] visited by
    [for (int l = 0; l < j - 1; l++) for (int m = l + 1; m < j; m++)],
    in the order of the visit. *)
Definition pair_loop (j : nat) : list (nat * nat) :=
  flat_map (fun l => map (fun m => (l, m)) (seq (l + 1) (j - (l + 1)))) (seq 0 (j - 1)).

(** Step 2b: [int j = 1; while (i+j < X.size() && HasCollision(X[i], X[i+j], clen)) j++;]
    started with [j = 1]; the loop makes fewer than [X.size()] steps. *)
Fixpoint run_length (X : list (list Z)) (clen : nat) (i j : nat) (fuel : nat) : nat :=
  match fuel with
  | O => j
  | S fuel' =>
      if (i + j <? length X) && HasCollision (row_at X i) (row_at X (i + j)) clen
      then run_length X clen i (j + 1) fuel'
      else j
  end.

(** Steps 2d and 2e:
    [while (posFree < limit && Xc.size() > 0) { X[posFree++] = Xc.back(); Xc.pop_back(); }];
    every step pops one row, so [Xc.size()] steps suffice. *)
Fixpoint backfill (limit : nat) (fuel : nat) (X Xc : list (list Z)) (posFree : nat)
  : list (list Z) * list (list Z) * nat :=
  match fuel with
  | O => (X, Xc, posFree)
  | S fuel' =>
      if (posFree <? limit) && (0 <? length Xc)
      then backfill limit fuel' (<[posFree := back Xc]> X) (pop_back Xc) (posFree + 1)
      else (X, Xc, posFree)
  end.

(** Steps 2b to 2d, the body of [while (i < X.size() - 1)], which is the same
    text in [BasicSolve], in the truncated phase of [OptimisedSolve] and in
    [CollideBranches]; the three differ in the action [emit] on a pair of the
    run (step 2c) and in the probe that closes the body.  The callers never
    enter the loop with an empty [X], so [X.size() - 1] does not wrap. *)
Definition collide_step (clen : nat)
    (emit : list (list Z) -> nat -> nat -> list (list Z) -> list (list Z))
    (st : list (list Z) * list (list Z) * nat * nat)
  : list (list Z) * list (list Z) * nat * nat :=
  let '(X, Xc, i, posFree) := st in
  let j := run_length X clen i 1 (length X) in
  let Xc := foldl (fun Xc lm => emit X (i + fst lm) (i + snd lm) Xc) Xc (pair_loop j) in
  let '(X, Xc, posFree) := backfill (i + j) (length Xc) X Xc posFree in
  (X, Xc, i + j, posFree).

(** [while (i < X.size() - 1) { ... i += j; probe }]: [i] grows by [j >= 1]
    in every step, so [X.size()] steps suffice. *)
Fixpoint collide_loop (clen : nat)
    (emit : list (list Z) -> nat -> nat -> list (list Z) -> list (list Z))
    (check : solver unit) (fuel : nat)
    (st : list (list Z) * list (list Z) * nat * nat)
  : solver (list (list Z) * list (list Z) * nat * nat) :=
  match fuel with
  | O => solver_ret st
  | S fuel' =>
      let '(X, _, i, _) := st in
      if i <? length X - 1 then
        let st := collide_step clen emit st in
        check ;;; collide_loop clen emit check fuel' st
      else solver_ret st
  end.

(** Steps 2e to 2g, after the scan. *)
Definition compact (st : list (list Z) * list (list Z) * nat * nat) : list (list Z) :=
  let '(X, Xc, i, posFree) := st in
  let '(X, Xc, posFree) := backfill (length X) (length Xc) X Xc posFree in
  if 0 <? length Xc then X ++ Xc
  else if posFree <? length X then take posFree X
  else X.

(** One scan of a sorted list with in-place compaction: [int i = 0;
    int posFree = 0; std::vector<...> Xc;] then steps 2b to 2g. *)
Definition collide (clen : nat)
    (emit : list (list Z) -> nat -> nat -> list (list Z) -> list (list Z))
    (check : solver unit) (X : list (list Z)) : solver (list (list Z)) :=
  st <- collide_loop clen emit check (length X) (X, [], 0, 0) ;;
  solver_ret (compact st).

(** *** One round as the design document describes it

    "Scan X left to right.  For each maximal run of rows sharing the first c
    bytes, for every unordered pair (l, m) with l < m in the run: compute the
    merge", collecting the merges in a fresh output list.  [produce a b] is
    what a pair contributes: the merge, or nothing when the pair is not
    admissible. *)
Fixpoint group_runs (c : nat) (X : list (list Z)) : list (list (list Z)) :=
  match X with
  | [] => []
  | x :: X' =>
      match group_runs c X' with
      | (y :: run) :: runs =>
          if HasCollision x y c then (x :: y :: run) :: runs
          else [x] :: (y :: run) :: runs
      | _ => [[x]]
      end
  end.

Fixpoint run_merges (produce : list Z -> list Z -> list (list Z)) (run : list (list Z))
  : list (list Z) :=
  match run with
  | [] => []
  | a :: run' => flat_map (produce a) run' ++ run_merges produce run'
  end.

Definition fresh_round (produce : list Z -> list Z -> list (list Z)) (c : nat)
    (X : list (list Z)) : list (list Z) :=
  flat_map (run_merges produce) (group_runs c X).

(** The rows after [head] that collide with it, and the rest of the list. *)
Fixpoint span_run (c : nat) (head : list Z) (rest : list (list Z))
  : list (list Z) * list (list Z) :=
  match rest with
  | x :: rest' =>
      if HasCollision head x c
      then let '(run, tl) := span_run c head rest' in (x :: run, tl)
      else ([], rest)
  | [] => ([], [])
  end.

(** A solver call that returns, with a result that satisfies [P]. *)
Definition returns {A : Type} (m : solver A) (P : A -> Prop) : Prop :=
  forall log, exists a log', m log = (Returned a, log') /\ P a.

(** [std::set<std::vector<eh_index>>::insert]; the list keeps the elements
    in the order of their first insertion. *)
Fixpoint indices_eqb (s t : list Z) : bool :=
  match s, t with
  | [], [] => true
  | x :: s', y :: t' => (x =? y)%Z && indices_eqb s' t'
  | _, _ => false
  end.

Definition set_insert (solns : list (list Z)) (s : list Z) : list (list Z) :=
  if existsb (indices_eqb s) solns then solns else solns ++ [s].

(** ** A small instance for evaluation

    A hash primitive, a sort and row widths for the parameter set (48,5), on
    which the solvers and the verifier can be run. *)

(** The state collects the bytes fed in; a finalised state maps the
    little-endian seed to a row of six one-byte blocks.  The even seeds below
    64 are the leaves of one binary tree that collides block by block; seed 1
    repeats seed 0 except in the last block; the other seeds collide at most
    once. *)
Definition toy_block (l k : Z) : Z :=
  (if l mod 2 ^ k =? 0 then 1 + Z.shiftr l (k + 1) else 0)%Z.

Definition toy_row (i : Z) : list Z :=
  (if i =? 1 then [1; 1; 1; 1; 1; 170]
   else if (i <? 64) && Z.even i then
     let l := i / 2 in
     [toy_block l 0; toy_block l 1; toy_block l 2; toy_block l 3; toy_block l 4; 0]
   else if i <? 64 then
     let m := (i - 3) / 2 in
     if m <? 15 then [241 + m; 233 + m; 0; 0; 0; 0]
     else if m <? 30 then [241 + (m - 15); 0; 0; 0; 0; 0]
     else [0; 0; 0; 0; 0; 0]
   else if i <? 288 then [17 + (i - 64); 9 + (i - 64); 0; 0; 0; 0]
   else [17 + (i - 288); 0; 0; 0; 0; 0])%Z.

Definition toy_update (state : list Z) (bytes : list Z) : list Z := state ++ bytes.

Definition toy_seed (state : list Z) : Z :=
  (byte_at state 0 + 256 * (byte_at state 1 + 256 * (byte_at state 2 + 256 * byte_at state 3)))%Z.

Definition toy_final (state : list Z) (outlen : nat) : list Z :=
  take outlen (toy_row (toy_seed state) ++ replicate outlen 0%Z).

(** Insertion sort, a stable instance of [std::sort]. *)
Fixpoint toy_insert (cmp : list Z -> list Z -> bool) (x : list Z) (l : list (list Z))
  : list (list Z) :=
  match l with
  | [] => [x]
  | y :: l' => if cmp y x then y :: toy_insert cmp x l' else x :: l
  end.

Definition toy_sort (cmp : list Z -> list Z -> bool) (l : list (list Z)) : list (list Z) :=
  foldr (toy_insert cmp) [] (reverse l).

(** The probe that never asks to stop, and the one that always does. *)
Definition never_cancel : probe := fun _ _ => false.
Definition always_cancel : probe := fun _ _ => true.

(** Row widths for (48,5), where a block is one byte: two blocks and the
    history of the last round ([2 + 4*16], [2 + 16]) for the working rows,
    two blocks and a whole solution ([2 + 4*32], [2 + 32]) for the final
    ones. *)
Definition toy_FullWidth : nat := 66.
Definition toy_FinalFullWidth : nat := 130.
Definition toy_TruncatedWidth : nat := 18.
Definition toy_FinalTruncatedWidth : nat := 34.

(** The tree of the even seeds below 64, and the same with seed 1 in the
    place of seed 0. *)
Definition toy_solution : list Z := map (fun l => (2 * Z.of_nat l)%Z) (seq 0 32).
Definition toy_twin : list Z := 1%Z :: map (fun l => (2 * Z.of_nat l)%Z) (seq 1 31).

(** ** Results of the verifier *)

(** The verifier reads [X[i]] and [X[i+1]] without a bounds check and ends
    with an [assert]; both ways of going wrong are results of the model,
    next to the [bool] the function returns. *)
Inductive checked (A : Type) : Type :=
  | Value (a : A)
  | OutOfBounds
  | AssertFailed
  | OutOfFuel.
Arguments Value {A} a.
Arguments OutOfBounds {A}.
Arguments AssertFailed {A}.
Arguments OutOfFuel {A}.


(** ** The hash primitive of the program

    The source file calls libsodium's [crypto_generichash_blake2b_*]; the
    library is not part of it.  The definitions below are BLAKE2b as RFC 7693
    defines it and as libsodium's reference implementation computes it
    (parameter block with salt and personalisation, lazy two-block buffer,
    final block flag); they are the instance of the hash primitive at which
    the solvers and the verifier are run on the hashes of the program. *)

Definition w64 (z : Z) : Z := Z.land z (Z.ones 64).

Definition rotr64 (x : Z) (n : Z) : Z :=
  Z.lor (Z.shiftr x n) (w64 (Z.shiftl x (64 - n))).

Definition blake2b_IV : list Z :=
  [ 0x6a09e667f3bcc908; 0xbb67ae8584caa73b; 0x3c6ef372fe94f82b; 0xa54ff53a5f1d36f1;
    0x510e527fade682d1; 0x9b05688c2b3e6c1f; 0x1f83d9abfb41bd6b; 0x5be0cd19137e2179 ]%Z.

Definition blake2b_sigma : list (list nat) :=
  [ [ 0; 1; 2; 3; 4; 5; 6; 7; 8; 9; 10; 11; 12; 13; 14; 15];
    [14; 10; 4; 8; 9; 15; 13; 6; 1; 12; 0; 2; 11; 7; 5; 3];
    [11; 8; 12; 0; 5; 2; 15; 13; 10; 14; 3; 6; 7; 1; 9; 4];
    [ 7; 9; 3; 1; 13; 12; 11; 14; 2; 6; 5; 10; 4; 0; 15; 8];
    [ 9; 0; 5; 7; 2; 4; 10; 15; 14; 1; 11; 12; 6; 8; 3; 13];
    [ 2; 12; 6; 10; 0; 11; 8; 3; 4; 13; 7; 5; 15; 14; 1; 9];
    [12; 5; 1; 15; 14; 13; 4; 10; 0; 7; 6; 3; 9; 2; 8; 11];
    [13; 11; 7; 14; 12; 1; 3; 9; 5; 0; 15; 4; 8; 6; 2; 10];
    [ 6; 15; 14; 9; 11; 3; 0; 8; 12; 2; 13; 7; 1; 4; 10; 5];
    [10; 2; 8; 4; 7; 6; 1; 5; 15; 11; 9; 14; 3; 12; 13; 0];
    [ 0; 1; 2; 3; 4; 5; 6; 7; 8; 9; 10; 11; 12; 13; 14; 15];
    [14; 10; 4; 8; 9; 15; 13; 6; 1; 12; 0; 2; 11; 7; 5; 3] ].

Definition word_at (v : list Z) (i : nat) : Z := default 0%Z (v !! i).

(** The mixing function [G] on the sixteen working words. *)
Definition blake2b_G (v : list Z) (a b c d : nat) (x y : Z) : list Z :=
  let va := w64 (word_at v a + word_at v b + x) in
  let vd := rotr64 (Z.lxor (word_at v d) va) 32 in
  let vc := w64 (word_at v c + vd) in
  let vb := rotr64 (Z.lxor (word_at v b) vc) 24 in
  let va := w64 (va + vb + y) in
  let vd := rotr64 (Z.lxor vd va) 16 in
  let vc := w64 (vc + vd) in
  let vb := rotr64 (Z.lxor vb vc) 63 in
  <[d := vd]> (<[c := vc]> (<[b := vb]> (<[a := va]> v))).

Definition blake2b_round (m : list Z) (v : list Z) (s : list nat) : list Z :=
  let mw i := word_at m (default 0 (s !! i)) in
  let v := blake2b_G v 0 4 8 12 (mw 0) (mw 1) in
  let v := blake2b_G v 1 5 9 13 (mw 2) (mw 3) in
  let v := blake2b_G v 2 6 10 14 (mw 4) (mw 5) in
  let v := blake2b_G v 3 7 11 15 (mw 6) (mw 7) in
  let v := blake2b_G v 0 5 10 15 (mw 8) (mw 9) in
  let v := blake2b_G v 1 6 11 12 (mw 10) (mw 11) in
  let v := blake2b_G v 2 7 8 13 (mw 12) (mw 13) in
  blake2b_G v 3 4 9 14 (mw 14) (mw 15).

(** Little-endian 64-bit words. *)
Fixpoint load64 (bytes : list Z) (n : nat) : Z :=
  match n, bytes with
  | S n', b :: bytes' => (b + 256 * load64 bytes' n')%Z
  | _, _ => 0%Z
  end.

Fixpoint words_of (bytes : list Z) (n : nat) : list Z :=
  match n with
  | O => []
  | S n' => load64 bytes 8 :: words_of (drop 8 bytes) n'
  end.

Fixpoint store64 (w : Z) (n : nat) : list Z :=
  match n with
  | O => []
  | S n' => Z.land w 255 :: store64 (Z.shiftr w 8) n'
  end.

(** [blake2b_compress]: the chaining value [h], one block of 128 bytes, the
    byte counter [t] and the final block flag. *)
Definition blake2b_compress (h : list Z) (block : list Z) (t : Z) (last : bool) : list Z :=
  let m := words_of block 16 in
  let v := h ++ blake2b_IV in
  let v := <[12 := Z.lxor (word_at v 12) (w64 t)]> v in
  let v := <[13 := Z.lxor (word_at v 13) (Z.shiftr t 64)]> v in
  let v := if last then <[14 := Z.lxor (word_at v 14) (Z.ones 64)]> v else v in
  let v := foldl (blake2b_round m) v blake2b_sigma in
  map (fun i => Z.lxor (Z.lxor (word_at h i) (word_at v i)) (word_at v (i + 8))) (seq 0 8).

(** [crypto_generichash_blake2b_state]: chaining value, counter and the bytes
    that wait in the buffer. *)
Record sodium_state : Type := { st_h : list Z; st_t : Z; st_buf : list Z }.

Definition pad_to (n : nat) (l : list Z) : list Z := take n (l ++ replicate n 0%Z).

Fixpoint sodium_update_loop (fuel : nat) (st : sodium_state) (input : list Z)
  : sodium_state :=
  match fuel with
  | O => st
  | S fuel' =>
      match input with
      | [] => st
      | _ =>
          let left := length (st_buf st) in
          let fill := 256 - left in
          if fill <? length input then
            let buf := st_buf st ++ take fill input in
            let t := (st_t st + 128)%Z in
            let h := blake2b_compress (st_h st) (take 128 buf) t false in
            sodium_update_loop fuel' {| st_h := h; st_t := t; st_buf := drop 128 buf |}
              (drop fill input)
          else {| st_h := st_h st; st_t := st_t st; st_buf := st_buf st ++ input |}
      end
  end.

(** [crypto_generichash_blake2b_update]. *)
Definition sodium_update (st : sodium_state) (input : list Z) : sodium_state :=
  sodium_update_loop (S (length input)) st input.

(** [crypto_generichash_blake2b_final] with its output length. *)
Definition sodium_final (st : sodium_state) (outlen : nat) : list Z :=
  let st :=
    if 128 <? length (st_buf st) then
      let t := (st_t st + 128)%Z in
      {| st_h := blake2b_compress (st_h st) (take 128 (st_buf st)) t false;
         st_t := t; st_buf := drop 128 (st_buf st) |}
    else st in
  let t := (st_t st + Z.of_nat (length (st_buf st)))%Z in
  let h := blake2b_compress (st_h st) (pad_to 128 (st_buf st)) t true in
  take outlen (flat_map (fun w => store64 w 8) h).

(** [crypto_generichash_blake2b_init_salt_personal]: the parameter block
    holds the digest length, the key length, fanout and depth 1, the salt and
    the personalisation; a key is fed in as a first block. *)
Definition sodium_init_salt_personal (key : option (list Z)) (keylen outlen : nat)
    (salt : option (list Z)) (personal : list Z) : Z * sodium_state :=
  let klen := if key is Some _ then keylen else 0 in
  let P := [Z.of_nat outlen; Z.of_nat klen; 1; 1]%Z ++ replicate 28 0%Z
           ++ pad_to 16 (default [] salt) ++ pad_to 16 personal in
  let h := map (fun i => Z.lxor (word_at blake2b_IV i) (word_at (words_of P 8) i)) (seq 0 8) in
  let st := {| st_h := h; st_t := 0%Z; st_buf := [] |} in
  if (outlen =? 0) || (64 <? outlen) || (64 <? keylen) then ((-1)%Z, st)
  else
    match key with
    | Some k => if 0 <? keylen then (0%Z, sodium_update st (pad_to 128 (take keylen k)))
                else (0%Z, st)
    | None => (0%Z, st)
    end.


(** ** The solvers and the verifier *)

Section Equihash.

(** The personalised Blake2b state and the two calls made on it
    ([crypto_generichash_blake2b_update], [crypto_generichash_blake2b_final]
    with an output length). *)
Context {eh_HashState : Type}.
Variable blake2b_update : eh_HashState -> list Z -> eh_HashState.
Variable blake2b_final : eh_HashState -> nat -> list Z.

(** [std::sort] with a comparator. *)
Variable std_sort : (list Z -> list Z -> bool) -> list (list Z) -> list (list Z).

(** The cancellation probe handed to the solvers. *)
Variable cancelled : probe.

(** The template parameters of [Equihash<N,K>]. *)
Variables N K : nat.

(** The row widths, enumerators of [Equihash<N,K>] in crypto/equihash.h. *)
Variables FullWidth FinalFullWidth TruncatedWidth FinalTruncatedWidth : nat.

(** [StepRow<WIDTH>::StepRow(n, k, base_state, i)]; the bytes of [hash] that
    the constructor does not write are uninitialised memory, written as 0. *)
Definition StepRow_new (WIDTH : nat) (n k : nat) (base_state : eh_HashState) (i : Z) : list Z :=
  let CollisionBitLength := n / (k + 1) in
  let CollisionByteLength := (CollisionBitLength + 7) / 8 in
  let ExpandedHashLength := (k + 1) * CollisionByteLength in
  let state := base_state in
  let array := le32 i in
  let state := blake2b_update state array in
  let hash := list_inserts 0 (take ExpandedHashLength (blake2b_final state ExpandedHashLength))
                (replicate WIDTH 0%Z) in
  foldl (fun hash i =>
           <[i * CollisionByteLength :=
               Z.land (byte_at hash (i * CollisionByteLength))
                      (Z.shiftr 255 (Z.of_nat (8 * CollisionByteLength - CollisionBitLength)))]> hash)
        hash (seq 0 (k + 1)).

(** [FullStepRow<WIDTH>::FullStepRow(n, k, base_state, i)]. *)
Definition FullStepRow_new (WIDTH : nat) (n k : nat) (base_state : eh_HashState) (i : Z) : list Z :=
  let hash := StepRow_new WIDTH n k base_state i in
  let CollisionBitLength := n / (k + 1) in
  let CollisionByteLength := (CollisionBitLength + 7) / 8 in
  let ExpandedHashLength := (k + 1) * CollisionByteLength in
  list_inserts ExpandedHashLength (EhIndexToArray i) hash.

(** [TruncatedStepRow<WIDTH>::TruncatedStepRow(n, k, base_state, i, ilen)]. *)
Definition TruncatedStepRow_new (WIDTH : nat) (n k : nat) (base_state : eh_HashState)
    (i : Z) (ilen : Z) : list Z :=
  let hash := StepRow_new WIDTH n k base_state i in
  let CollisionBitLength := n / (k + 1) in
  let CollisionByteLength := (CollisionBitLength + 7) / 8 in
  let ExpandedHashLength := (k + 1) * CollisionByteLength in
  <[ExpandedHashLength := TruncateIndex i ilen]> hash.

(** The enumerators of [Equihash<N,K>] that the source file uses. *)
Definition CollisionBitLength : nat := N / (K + 1).
Definition CollisionByteLength : nat := (CollisionBitLength + 7) / 8.
Definition ExpandedHashLength : nat := (K + 1) * CollisionByteLength.

(** [eh_index init_size { 1 << (CollisionBitLength + 1) }],
    [eh_index soln_size { 1 << K }] and
    [eh_index recreate_size { UntruncateIndex(1, 0, CollisionBitLength + 1) }]. *)
Definition init_size : nat :=
  Z.to_nat (u32 (Z.shiftl 1 (Z.of_nat (CollisionBitLength + 1)))).
Definition soln_size : nat := Z.to_nat (u32 (Z.shiftl 1 (Z.of_nat K))).
Definition recreate_size : nat :=
  Z.to_nat (UntruncateIndex 1 0 (Z.of_nat (CollisionBitLength + 1))).

(** *** BasicSolve *)

(** Step 2c of [BasicSolve] for the pair [(X[p], X[q])]. *)
Definition basic_emit (hashLen lenIndices : nat)
    (X : list (list Z)) (p q : nat) (Xc : list (list Z)) : list (list Z) :=
  if DistinctIndices (row_at X p) (row_at X q) hashLen lenIndices
  then Xc ++ [FullStepRow_merge FullWidth (row_at X p) (row_at X q)
                 hashLen lenIndices CollisionByteLength]
  else Xc.

(** What step 2c of [BasicSolve] contributes for the rows [a] and [b]. *)
Definition basic_produce (hashLen lenIndices : nat) (a b : list Z) : list (list Z) :=
  if DistinctIndices a b hashLen lenIndices
  then [FullStepRow_merge FullWidth a b hashLen lenIndices CollisionByteLength]
  else [].

(** The body of [for (int r = 1; r < K && X.size() > 0; r++)] in
    [BasicSolve]: steps 2a to 2g and the update of the two lengths. *)
Definition basic_round (st : list (list Z) * nat * nat) : solver (list (list Z) * nat * nat) :=
  let '(X, hashLen, lenIndices) := st in
  let X := std_sort (CompareSR CollisionByteLength) X in
  throw_if cancelled ListSorting ;;;
  X <- collide CollisionByteLength (basic_emit hashLen lenIndices)
         (throw_if cancelled ListColliding) X ;;
  let hashLen := hashLen - CollisionByteLength in
  let lenIndices := lenIndices * 2 in
  throw_if cancelled RoundEnd ;;;
  solver_ret (X, hashLen, lenIndices).

(** [for (int r = 1; r < K && X.size() > 0; r++)], for either solver;
    [n] bounds the number of rounds that remain. *)
Fixpoint rounds (round : list (list Z) * nat * nat -> solver (list (list Z) * nat * nat))
    (n : nat) (r : nat) (st : list (list Z) * nat * nat)
  : solver (list (list Z) * nat * nat) :=
  match n with
  | O => solver_ret st
  | S n' =>
      let '(X, _, _) := st in
      if (r <? K) && (0 <? length X)
      then st <- round st ;; rounds round n' (r + 1) st
      else solver_ret st
  end.

(** The pair action of the final round of [BasicSolve]. *)
Definition basic_final_emit (hashLen lenIndices : nat)
    (X : list (list Z)) (p q : nat) (solns : list (list Z)) : list (list Z) :=
  let res := FullStepRow_merge FinalFullWidth (row_at X p) (row_at X q) hashLen lenIndices 0 in
  if DistinctIndices (row_at X p) (row_at X q) hashLen lenIndices
  then set_insert solns (GetIndices res hashLen (2 * lenIndices))
  else solns.

(** [while (i < X.size() - 1)] of a final round: the runs are found on
    [hashLen] bytes and every pair of a run is handed to [emit]. *)
Fixpoint final_loop (hashLen : nat)
    (emit : list (list Z) -> nat -> nat -> list (list Z) -> list (list Z))
    (fuel : nat) (X : list (list Z)) (i : nat) (out : list (list Z))
  : solver (list (list Z)) :=
  match fuel with
  | O => solver_ret out
  | S fuel' =>
      if i <? length X - 1 then
        let j := run_length X hashLen i 1 (length X) in
        let out := foldl (fun out lm => emit X (i + fst lm) (i + snd lm) out) out (pair_loop j) in
        let i := i + j in
        throw_if cancelled FinalColliding ;;;
        final_loop hashLen emit fuel' X i out
      else solver_ret out
  end.

(** Step k+1 of either solver: [if (X.size() > 1) { sort; probe; scan }]. *)
Definition final_round
    (emit : list (list Z) -> nat -> nat -> list (list Z) -> list (list Z))
    (X : list (list Z)) (hashLen : nat) (out : list (list Z)) : solver (list (list Z)) :=
  if 1 <? length X then
    let X := std_sort (CompareSR hashLen) X in
    throw_if cancelled FinalSorting ;;;
    final_loop hashLen emit (length X) X 0 out
  else solver_ret out.

Definition BasicSolve (base_state : eh_HashState) : solver (list (list Z)) :=
  let hashLen := ExpandedHashLength in
  let lenIndices := 4 in
  X <- for_each (seq 0 init_size)
         (fun i X =>
            let X := X ++ [FullStepRow_new FullWidth N K base_state (Z.of_nat i)] in
            throw_if cancelled ListGeneration ;;; solver_ret X) [] ;;
  st <- rounds basic_round (K - 1) 1 (X, hashLen, lenIndices) ;;
  let '(X, hashLen, lenIndices) := st in
  let solns := [] in
  final_round (basic_final_emit hashLen lenIndices) X hashLen solns.

(** *** OptimisedSolve *)

(** [CollideBranches]: the scan of steps 2b to 2g with the branch test in
    step 2c and no probe. *)
Definition branch_emit (WIDTH : nat) (hlen lenIndices clen : nat) (ilen lt rt : Z)
    (X : list (list Z)) (p q : nat) (Xc : list (list Z)) : list (list Z) :=
  if DistinctIndices (row_at X p) (row_at X q) hlen lenIndices then
    if IsValidBranch (row_at X p) hlen ilen lt && IsValidBranch (row_at X q) hlen ilen rt
    then Xc ++ [FullStepRow_merge WIDTH (row_at X p) (row_at X q) hlen lenIndices clen]
    else if IsValidBranch (row_at X q) hlen ilen lt && IsValidBranch (row_at X p) hlen ilen rt
    then Xc ++ [FullStepRow_merge WIDTH (row_at X q) (row_at X p) hlen lenIndices clen]
    else Xc
  else Xc.

Definition CollideBranches (WIDTH : nat) (X : list (list Z)) (hlen lenIndices clen : nat)
    (ilen lt rt : Z) : solver (list (list Z)) :=
  collide clen (branch_emit WIDTH hlen lenIndices clen ilen lt rt) (solver_ret tt) X.

(** Step 2c of the truncated phase for the pair [(Xt[p], Xt[q])].  (The
    source also computes a flag [checking_for_zero] here and never reads
    it.) *)
Definition truncated_emit (hashLen lenIndices : nat)
    (Xt : list (list Z)) (p q : nat) (Xc : list (list Z)) : list (list Z) :=
  let Xi := TruncatedStepRow_merge TruncatedWidth (row_at Xt p) (row_at Xt q)
              hashLen lenIndices CollisionByteLength in
  if negb (IsZero Xi (hashLen - CollisionByteLength) &&
           IsProbablyDuplicate
             (GetTruncatedIndices Xi (hashLen - CollisionByteLength) (2 * lenIndices))
             (2 * lenIndices))
  then Xc ++ [Xi]
  else Xc.

(** The body of [for (int r = 1; r < K && Xt.size() > 0; r++)] in the
    truncated phase. *)
Definition truncated_round (st : list (list Z) * nat * nat) : solver (list (list Z) * nat * nat) :=
  let '(Xt, hashLen, lenIndices) := st in
  let Xt := std_sort (CompareSR CollisionByteLength) Xt in
  throw_if cancelled ListSorting ;;;
  Xt <- collide CollisionByteLength (truncated_emit hashLen lenIndices)
          (throw_if cancelled ListColliding) Xt ;;
  let hashLen := hashLen - CollisionByteLength in
  let lenIndices := lenIndices * 2 in
  throw_if cancelled RoundEnd ;;;
  solver_ret (Xt, hashLen, lenIndices).

(** The pair action of the final round of the truncated phase. *)
Definition truncated_final_emit (hashLen lenIndices : nat)
    (Xt : list (list Z)) (p q : nat) (partialSolns : list (list Z)) : list (list Z) :=
  let res := TruncatedStepRow_merge FinalTruncatedWidth (row_at Xt p) (row_at Xt q)
               hashLen lenIndices 0 in
  partialSolns ++ [GetTruncatedIndices res hashLen (2 * lenIndices)].

(** [for (size_t r = 0; r <= K; r++)] of the recreation phase, for the
    partial solution [partialSoln]; [n] counts the iterations that remain.
    [None] stands for the jump to [invalidsolution].  (Slot [r] is filled
    after [2^r] leaves, so [rti - (1 << r)] does not wrap where it is
    computed.) *)
Fixpoint subtree_loop (partialSoln : list Z) (n r : nat)
    (ic : list (list Z)) (hashLen lenIndices rti : nat) (X : list (option (list (list Z))))
  : solver (option (list (option (list (list Z))) * nat * nat)) :=
  match n with
  | O => solver_ret (Some (X, hashLen, lenIndices))
  | S n' =>
      if r <? length X then
        match X !! r with
        | Some (Some Xr) =>
            let ic := ic ++ Xr in
            let ic := std_sort (CompareSR hashLen) ic in
            throw_if cancelled PartialSorting ;;;
            let lti := rti - 2 ^ r in
            ic <- CollideBranches FinalFullWidth ic hashLen lenIndices
                    CollisionByteLength (Z.of_nat (CollisionBitLength + 1))
                    (byte_at partialSoln lti) (byte_at partialSoln rti) ;;
            if length ic =? 0 then solver_ret None
            else
              let X := <[r := None]> X in
              let hashLen := hashLen - CollisionByteLength in
              let lenIndices := lenIndices * 2 in
              let rti := lti in
              throw_if cancelled PartialSubtreeEnd ;;;
              subtree_loop partialSoln n' (r + 1) ic hashLen lenIndices rti X
        | _ => solver_ret (Some (<[r := Some ic]> X, hashLen, lenIndices))
        end
      else solver_ret (Some (X ++ [Some ic], hashLen, lenIndices))
  end.

(** The body of [for (eh_index i = 0; i < soln_size; i++)]; once the jump to
    [invalidsolution] has been taken the remaining iterations do not run. *)
Definition recreate_index (base_state : eh_HashState) (partialSoln : list Z) (i : nat)
    (st : option (list (option (list (list Z))) * nat * nat))
  : solver (option (list (option (list (list Z))) * nat * nat)) :=
  match st with
  | None => solver_ret None
  | Some (X, _, _) =>
      icv <- for_each (seq 0 recreate_size)
               (fun j icv =>
                  let newIndex := UntruncateIndex (byte_at partialSoln i) (Z.of_nat j)
                                    (Z.of_nat (CollisionBitLength + 1)) in
                  let icv := icv ++ [FullStepRow_new FinalFullWidth N K base_state newIndex] in
                  throw_if cancelled PartialGeneration ;;; solver_ret icv) [] ;;
      let ic := icv in
      let hashLen := ExpandedHashLength in
      let lenIndices := 4 in
      let rti := i in
      st <- subtree_loop partialSoln (K + 1) 0 ic hashLen lenIndices rti X ;;
      match st with
      | None => solver_ret None
      | Some st => throw_if cancelled PartialIndexEnd ;;; solver_ret (Some st)
      end
  end.

(** The body of [for (std::shared_ptr<eh_trunc> partialSoln : partialSolns)].
    (The counter [invalidCount] is only logged.) *)
Definition recreate (base_state : eh_HashState) (partialSoln : list Z)
    (solns : list (list Z)) : solver (list (list Z)) :=
  st <- for_each (seq 0 soln_size) (recreate_index base_state partialSoln) (Some ([], 0, 0)) ;;
  match st with
  | None => solver_ret solns
  | Some (X, hashLen, lenIndices) =>
      solver_assert (length X =? K + 1) ;;;
      match X !! K with
      | Some (Some rows) =>
          let solns := foldl (fun solns row => set_insert solns (GetIndices row hashLen lenIndices))
                             solns rows in
          throw_if cancelled PartialEnd ;;; solver_ret solns
      | _ => fun log => (AssertionFailed, log)
      end
  end.

Definition OptimisedSolve (base_state : eh_HashState) : solver (list (list Z)) :=
  let partialSolns := [] in
  let solns := [] in
  let hashLen := ExpandedHashLength in
  let lenIndices := 1 in
  Xt <- for_each (seq 0 init_size)
          (fun i Xt =>
             let Xt := Xt ++ [TruncatedStepRow_new TruncatedWidth N K base_state (Z.of_nat i)
                                (Z.of_nat (CollisionBitLength + 1))] in
             throw_if cancelled ListGeneration ;;; solver_ret Xt) [] ;;
  st <- rounds truncated_round (K - 1) 1 (Xt, hashLen, lenIndices) ;;
  let '(Xt, hashLen, lenIndices) := st in
  partialSolns <- final_round (truncated_final_emit hashLen lenIndices) Xt hashLen partialSolns ;;
  for_each partialSolns (recreate base_state) solns.

(** *** IsValidSolution *)

(** [for (int i = 0; i < X.size(); i += 2)] inside the [while] of
    [IsValidSolution]; [n] counts the iterations that remain and
    [Value None] stands for [return false]. *)
Fixpoint verify_pairs (X : list (list Z)) (hashLen lenIndices : nat) (n i : nat)
    (Xc : list (list Z)) : checked (option (list (list Z))) :=
  match n with
  | O => Value (Some Xc)
  | S n' =>
      match X !! i, X !! (i + 1) with
      | Some Xi, Some Xi1 =>
          if negb (HasCollision Xi Xi1 CollisionByteLength) then Value None
          else if IndicesBefore Xi1 Xi hashLen lenIndices then Value None
          else if negb (DistinctIndices Xi Xi1 hashLen lenIndices) then Value None
          else verify_pairs X hashLen lenIndices n' (i + 2)
                 (Xc ++ [FullStepRow_merge FinalFullWidth Xi Xi1 hashLen lenIndices
                           CollisionByteLength])
      | _, _ => OutOfBounds
      end
  end.

(** The body of [while (X.size() > 1)]: one level of the tree. *)
Definition verify_level (st : list (list Z) * nat * nat)
  : checked (option (list (list Z) * nat * nat)) :=
  let '(X, hashLen, lenIndices) := st in
  match verify_pairs X hashLen lenIndices ((length X + 1) / 2) 0 [] with
  | Value (Some Xc) => Value (Some (Xc, hashLen - CollisionByteLength, lenIndices * 2))
  | Value None => Value None
  | OutOfBounds => OutOfBounds
  | AssertFailed => AssertFailed
  | OutOfFuel => OutOfFuel
  end.

(** [while (X.size() > 1) { ... }]. *)
Fixpoint verify_levels (fuel : nat) (st : list (list Z) * nat * nat)
  : checked (option (list (list Z) * nat * nat)) :=
  match fuel with
  | O => OutOfFuel
  | S fuel' =>
      let '(X, _, _) := st in
      if 1 <? length X then
        match verify_level st with
        | Value (Some st) => verify_levels fuel' st
        | r => r
        end
      else Value (Some st)
  end.

Definition IsValidSolution (base_state : eh_HashState) (soln : list Z) : checked bool :=
  if negb (length soln =? soln_size) then Value false
  else
    let X := map (FullStepRow_new FinalFullWidth N K base_state) soln in
    let hashLen := ExpandedHashLength in
    let lenIndices := 4 in
    match verify_levels (S (length X)) (X, hashLen, lenIndices) with
    | Value (Some (X, hashLen, lenIndices)) =>
        if length X =? 1 then
          match X !! 0 with
          | Some X0 => Value (IsZero X0 hashLen)
          | None => OutOfBounds
          end
        else AssertFailed
    | Value None => Value false
    | OutOfBounds => OutOfBounds
    | AssertFailed => AssertFailed
    | OutOfFuel => OutOfFuel
    end.

(** [r] passes of the loop body, without the test of the loop condition. *)
Fixpoint passes (r : nat) (st : list (list Z) * nat * nat)
  : checked (option (list (list Z) * nat * nat)) :=
  match r with
  | O => Value (Some st)
  | S r' =>
      match verify_level st with
      | Value (Some st') => passes r' st'
      | other => other
      end
  end.

(** The two lengths after [r] rounds, and the rows that are the top of a
    tree of [2^r] leaves that the verifier accepts level by level: the row
    carries, in its first [hashLen_at r + lenIndices_at r] bytes, what the
    verifier computes from the indices it lists. *)
Definition hashLen_at (r : nat) : nat := ExpandedHashLength - r * CollisionByteLength.
Definition lenIndices_at (r : nat) : nat := 4 * 2 ^ r.

Definition subtree_row (base_state : eh_HashState) (r : nat) (row : list Z) : Prop :=
  exists (s : list Z) (v : list Z),
    length s = 2 ^ r /\
    passes r (map (FullStepRow_new FinalFullWidth N K base_state) s, ExpandedHashLength, 4)
      = Value (Some ([v], hashLen_at r, lenIndices_at r)) /\
    length v = FinalFullWidth /\
    hashLen_at r + lenIndices_at r <= length row /\
    agree (hashLen_at r + lenIndices_at r) row v /\
    GetIndices v (hashLen_at r) (lenIndices_at r) = s.

Definition all_subtree_rows (base_state : eh_HashState) (r : nat) (X : list (list Z)) : Prop :=
  forall x, In x X -> subtree_row base_state r x.

(** The solutions that the verifier accepts. *)
Definition all_valid (base_state : eh_HashState) (solns : list (list Z)) : Prop :=
  forall s, In s solns -> IsValidSolution base_state s = Value true.

(** The states in which the [while] loop of [IsValidSolution] evaluates its
    condition, started from [st0]. *)
Inductive loop_head (st0 : list (list Z) * nat * nat) : list (list Z) * nat * nat -> Prop :=
  | loop_head_entry : loop_head st0 st0
  | loop_head_next st st' :
      loop_head st0 st ->
      1 < length (st.1.1) ->
      verify_level st = Value (Some st') ->
      loop_head st0 st'.

(** *** InitialiseState *)

(** [crypto_generichash_blake2b_PERSONALBYTES] of libsodium. *)
Definition crypto_generichash_blake2b_PERSONALBYTES : nat := 16.

(** [memcpy(dst + d, src, n)] into an array of bytes. *)
Definition memcpy (dst : list Z) (d : nat) (src : list Z) (n : nat) : list Z :=
  list_inserts d (take n src) dst.

(** The bytes of the string literal ["ZcashPoW"] (ASCII). *)
Definition ZcashPoW : list Z := [90; 99; 97; 115; 104; 80; 111; 87]%Z.

(** The array [personalization] when [InitialiseState] hands it to Blake2b:
    [htole32] followed by [memcpy] stores a word least significant byte
    first. *)
Definition personalization : list Z :=
  let le_N := le32 (u32 (Z.of_nat N)) in
  let le_K := le32 (u32 (Z.of_nat K)) in
  let personalization := replicate crypto_generichash_blake2b_PERSONALBYTES 0%Z in
  let personalization := memcpy personalization 0 ZcashPoW 8 in
  let personalization := memcpy personalization 8 le_N 4 in
  memcpy personalization 12 le_K 4.

(** [crypto_generichash_blake2b_init_salt_personal(&base_state, key, keylen,
    outlen, salt, personal)]: the status it returns and the state it
    initialises. *)
Variable crypto_generichash_blake2b_init_salt_personal :
  option (list Z) -> nat -> nat -> option (list Z) -> list Z -> Z * eh_HashState.

Definition InitialiseState : Z * eh_HashState :=
  crypto_generichash_blake2b_init_salt_personal None 0 (N / 8) None personalization.

(** *** The accepted trees, read depth first *)

(** [valid_tree base_state r s v]: the row [v] is what the verifier's loop
    leaves, after [r] passes, of the [2^r] rows built from the indices [s]:
    a leaf is the fresh row of one index; a node merges the rows of two
    trees of the same height that pass the three tests of the loop body. *)
Inductive valid_tree (base_state : eh_HashState) : nat -> list Z -> list Z -> Prop :=
  | valid_leaf (i : Z) :
      valid_tree base_state 0 [i] (FullStepRow_new FinalFullWidth N K base_state i)
  | valid_node (r : nat) (s1 s2 v1 v2 : list Z) :
      valid_tree base_state r s1 v1 ->
      valid_tree base_state r s2 v2 ->
      HasCollision v1 v2 CollisionByteLength = true ->
      IndicesBefore v2 v1 (hashLen_at r) (lenIndices_at r) = false ->
      DistinctIndices v1 v2 (hashLen_at r) (lenIndices_at r) = true ->
      valid_tree base_state (S r) (s1 ++ s2)
        (FullStepRow_merge FinalFullWidth v1 v2 (hashLen_at r) (lenIndices_at r)
           CollisionByteLength).

(** The XOR of a list of bytes. *)
Definition xor_all (l : list Z) : Z := foldr Z.lxor 0%Z l.

(** [covers base_state r X]: the list [X] of round [r] holds, for every
    accepted tree of height [r] over indices below [init_size], a row that
    carries the bytes of the tree's row. *)
Definition covers (base_state : eh_HashState) (r : nat) (X : list (list Z)) : Prop :=
  forall s v,
    valid_tree base_state r s v ->
    Forall (fun i => (0 <= i < Z.of_nat init_size)%Z) s ->
    exists row,
      In row X /\ hashLen_at r + lenIndices_at r <= length row /\
      agree (hashLen_at r + lenIndices_at r) row v.

(** [rows_below r X]: every row of the list [X] of round [r] is long enough
    for its hash and its history, and the history lists indices below
    [init_size] only. *)
Definition rows_below (r : nat) (X : list (list Z)) : Prop :=
  forall row,
    In row X ->
    hashLen_at r + lenIndices_at r <= length row /\
    Forall (fun i => (0 <= i < Z.of_nat init_size)%Z)
      (GetIndices row (hashLen_at r) (lenIndices_at r)).

(** *** What a run tells about the probe *)

(** [probed log log']: the log [log'] extends [log] by invocations of the
    probe that all answered false. *)
Inductive probed (log : probe_log) : probe_log -> Prop :=
  | probed_none : probed log log
  | probed_more (log' : probe_log) (label : EhSolverCancelCheck) :
      probed log log' -> cancelled log' label = false -> probed log (label :: log').

(** A solver call that returns (or fails an assertion) only after the probe
    has answered false to every invocation, and that raises
    [solver_cancelled] at the first invocation that answers true. *)
Definition polite {A : Type} (m : solver A) : Prop :=
  forall log,
    match m log with
    | (Returned _, log') => probed log log'
    | (SolverCancelled, log') =>
        exists label log'', log' = label :: log'' /\ probed log log'' /\
                            cancelled log'' label = true
    | (AssertionFailed, log') => probed log log'
    end.

(** *** What step 2c contributes in the other two scans *)

(** What step 2c of [CollideBranches] contributes for the rows [a] and [b]. *)
Definition branch_produce (WIDTH : nat) (hlen lenIndices clen : nat) (ilen lt rt : Z)
    (a b : list Z) : list (list Z) :=
  if DistinctIndices a b hlen lenIndices then
    if IsValidBranch a hlen ilen lt && IsValidBranch b hlen ilen rt
    then [FullStepRow_merge WIDTH a b hlen lenIndices clen]
    else if IsValidBranch b hlen ilen lt && IsValidBranch a hlen ilen rt
    then [FullStepRow_merge WIDTH b a hlen lenIndices clen]
    else []
  else [].

(** What step 2c of the truncated phase contributes for the rows [a] and [b]. *)
Definition truncated_produce (hashLen lenIndices : nat) (a b : list Z) : list (list Z) :=
  let Xi := TruncatedStepRow_merge TruncatedWidth a b hashLen lenIndices CollisionByteLength in
  if negb (IsZero Xi (hashLen - CollisionByteLength) &&
           IsProbablyDuplicate
             (GetTruncatedIndices Xi (hashLen - CollisionByteLength) (2 * lenIndices))
             (2 * lenIndices))
  then [Xi]
  else [].

(** *** The slots of the recreation phase *)

(** A solver call that fails no assertion and, when it returns, returns a
    result that satisfies [P]. *)
Definition safe {A : Type} (m : solver A) (P : A -> Prop) : Prop :=
  forall log,
    match m log with
    | (Returned a, _) => P a
    | (SolverCancelled, _) => True
    | (AssertionFailed, _) => False
    end.

(** [X[r]] holds a list ([r < X.size() && X[r]]). *)
Definition engaged (X : list (option (list (list Z)))) (r : nat) : bool :=
  match X !! r with
  | Some (Some _) => true
  | _ => false
  end.

(** The number of leaves that the engaged slots stand for, when the first
    slot of [X] is slot [r]: slot [r] holds the rows of subtrees of [2^r]
    leaves. *)
Fixpoint slots_weight (X : list (option (list (list Z)))) (r : nat) : nat :=
  match X with
  | [] => 0
  | x :: X' => (if x is Some _ then 2 ^ r else 0) + slots_weight X' (S r)
  end.

(** The state of the loop over the indices of a partial solution after [i]
    of them: the engaged slots are the binary digits of [i], the last slot is
    engaged, and [lenIndices] is the history length of the lowest engaged
    slot.  [None] stands for a partial solution that has been given up. *)
Definition counter (i : nat) (st : option (list (option (list (list Z))) * nat * nat)) : Prop :=
  match st with
  | None => True
  | Some (X, _, lenIndices) =>
      slots_weight X 0 = i /\
      (X = [] \/ engaged X (length X - 1) = true) /\
      (0 < i -> exists r, lenIndices = 4 * 2 ^ r /\ engaged X r = true /\
                          forall r', r' < r -> engaged X r' = false)
  end.

(** *** The filter of the truncated phase *)




(** *** The rows of OptimisedSolve *)

(** [byte_history hashLen lenIndices row]: the truncated row [row] has room
    for its hash and its history, and the history holds bytes (an
    [eh_trunc] is an [unsigned char]). *)
Definition byte_history (hashLen lenIndices : nat) (row : list Z) : Prop :=
  hashLen + lenIndices <= length row /\
  forall x, x < lenIndices -> (0 <= byte_at row (hashLen + x) < 256)%Z.

(** [slots_rows base_state X]: every engaged slot [r] of [X] holds tops of
    accepted subtrees of [2^r] leaves over indices below [init_size]. *)
Definition slots_rows (base_state : eh_HashState) (X : list (option (list (list Z)))) : Prop :=
  forall r rows,
    X !! r = Some (Some rows) ->
    all_subtree_rows base_state r rows /\ rows_below r rows.

(** The state of the loop over the indices of a partial solution: the slots
    hold subtree rows, and [hashLen] goes with [lenIndices]. *)
Definition recreated (base_state : eh_HashState)
    (st : option (list (option (list (list Z))) * nat * nat)) : Prop :=
  match st with
  | None => True
  | Some (X, hashLen, lenIndices) =>
      slots_rows base_state X /\
      forall r, lenIndices = lenIndices_at r -> hashLen = hashLen_at r
  end.

(** The index sequences that pass the [K] levels of the verifier's loop, over
    indices below [init_size]; the test of the last block is left open. *)
Definition all_trees (base_state : eh_HashState) (solns : list (list Z)) : Prop :=
  forall s, In s solns ->
    Forall (fun i => (0 <= i < Z.of_nat init_size)%Z) s /\
    exists v, valid_tree base_state K s v.
Local Open Scope Z_scope.

(** ** Index truncation *)

Lemma u32_small z : 0 <= z < 2 ^ 32 -> u32 z = z.
Proof. intros H. unfold u32. by apply Z.mod_small. Qed.

Lemma shiftr_lt_256 i n : 8 <= n -> 0 <= i < 2 ^ n -> 0 <= Z.shiftr i (n - 8) < 256.
Proof.
  intros Hn [H0 Hi]. rewrite Z.shiftr_div_pow2 by lia. split.
  - apply Z.div_pos; [lia | apply Z.pow_pos_nonneg; lia].
  - apply Z.div_lt_upper_bound; [apply Z.pow_pos_nonneg; lia |].
    replace (2 ^ (n - 8) * 256) with (2 ^ n); [lia |].
    replace n with ((n - 8) + 8) at 1 by lia.
    rewrite Z.pow_add_r by lia. reflexivity.
Qed.

Lemma land_255_small z : 0 <= z < 256 -> Z.land z 255 = z.
Proof.
  intros H. change 255 with (Z.ones 8). rewrite Z.land_ones by lia.
  apply Z.mod_small. simpl. lia.
Qed.

(** C9. For 8 <= ilen <= 32 and an index i < 2^ilen, untruncating the
    truncation of i together with the low ilen-8 bits of i gives back i. *)
Theorem C9_untruncate_truncate (i ilen : Z) :
  8 <= ilen <= 32 ->
  0 <= i < 2 ^ ilen ->
  UntruncateIndex (TruncateIndex i ilen) (Z.land i (Z.ones (ilen - 8))) ilen = i.
Proof.
  intros Hlen Hi. unfold UntruncateIndex, TruncateIndex.
  rewrite (u32_small (ilen - 8)) by lia.
  rewrite land_255_small by (apply shiftr_lt_256; lia).
  assert (Hpow : 2 ^ ilen <= 2 ^ 32) by (apply Z.pow_le_mono_r; lia).
  assert (Hle : 0 <= Z.shiftl (Z.shiftr i (ilen - 8)) (ilen - 8) <= i).
  { rewrite Z.shiftl_mul_pow2, Z.shiftr_div_pow2 by lia.
    assert (0 < 2 ^ (ilen - 8)) by (apply Z.pow_pos_nonneg; lia).
    split; [apply Z.mul_nonneg_nonneg; [apply Z.div_pos |]; lia |].
    rewrite Z.mul_comm. apply Z.mul_div_le. lia. }
  rewrite u32_small by lia.
  rewrite <- Z.ldiff_ones_r by lia.
  apply Z.lor_ldiff_and.
Qed.

Lemma C9_untruncate_truncate_witness :
  UntruncateIndex (TruncateIndex 300 9) (Z.land 300 (Z.ones (9 - 8))) 9 = 300.
Proof. apply (C9_untruncate_truncate 300 9); lia. Defined.

Local Close Scope Z_scope.

(** ** Arrays: stores and block copies *)

Lemma byte_at_lookup (h : list Z) (i : nat) (x : Z) : h !! i = Some x -> byte_at h i = x.
Proof. unfold byte_at. by intros ->. Qed.

Lemma lookup_byte_at (h : list Z) (i : nat) : i < length h -> h !! i = Some (byte_at h i).
Proof.
  intros Hi. unfold byte_at.
  destruct (lookup_lt_is_Some_2 h i Hi) as [x ->]. done.
Qed.

Lemma list_inserts_middle {A : Type} (k h : list A) (d : nat) :
  d + length k <= length h ->
  list_inserts d k h = take d h ++ k ++ drop (d + length k) h.
Proof.
  intros Hd.
  rewrite <- (take_drop d h) at 1.
  assert (Hl : length (take d h) = d) by (rewrite length_take; lia).
  rewrite <- Hl at 1. rewrite <- (Nat.add_0_r (length (take d h))).
  rewrite list_inserts_app_r. f_equal.
  rewrite <- (take_drop (length k) (drop d h)) at 1.
  rewrite list_inserts_0_r by (rewrite length_take, length_drop; lia).
  by rewrite drop_drop.
Qed.

Lemma std_copy_middle (src dst : list Z) (first n d : nat) :
  first + n <= length src -> d + n <= length dst ->
  std_copy src first (first + n) d dst
  = take d dst ++ take n (drop first src) ++ drop (d + n) dst.
Proof.
  intros Hs Hd. unfold std_copy.
  replace (first + n - first) with n by lia.
  assert (Hl : length (take n (drop first src)) = n)
    by (rewrite length_take, length_drop; lia).
  rewrite list_inserts_middle by lia. by rewrite Hl.
Qed.

Lemma StepRow_copy_length (WIDTH : nat) (a : list Z) : length (StepRow_copy WIDTH a) = WIDTH.
Proof. unfold StepRow_copy. by rewrite length_inserts, length_replicate. Qed.

Lemma xor_bytes_length a b trim n : length (xor_bytes a b trim n) = n.
Proof. unfold xor_bytes. by rewrite length_map, length_seq. Qed.

Lemma xor_loop_spec (a b : list Z) (trim len : nat) (h : list Z) :
  trim <= len -> len - trim <= length h ->
  xor_loop a b trim len h = xor_bytes a b trim (len - trim) ++ drop (len - trim) h.
Proof.
  intros Ht. unfold xor_loop, xor_bytes.
  generalize (len - trim) as n. clear len Ht.
  induction n as [|n IH]; intros Hn.
  - simpl. by rewrite drop_0.
  - rewrite (seq_S n trim), foldl_app, IH by lia.
    rewrite (seq_S n 0), map_app, <- app_assoc. simpl.
    replace (trim + n - trim) with n by lia.
    assert (Hl : length (map (fun x => Z.lxor (byte_at a (trim + x)) (byte_at b (trim + x))) (seq 0 n)) = n)
      by (by rewrite length_map, length_seq).
    rewrite insert_app_r_alt by lia. rewrite Hl, Nat.sub_diag.
    f_equal.
    destruct (drop n h) as [|y t] eqn:E.
    { apply (f_equal length) in E. rewrite length_drop in E. simpl in E. lia. }
    simpl. f_equal.
    replace (S n) with (n + 1) by lia. rewrite <- (drop_drop h 1 n), E. done.
Qed.

(** The layout of a merged row, whichever of the two parents comes first. *)
Lemma merge_layout (WIDTH : nat) (a b first second : list Z) (len lenIndices trim : nat) :
  trim <= len -> len - trim + 2 * lenIndices <= WIDTH ->
  len + lenIndices <= length first -> len + lenIndices <= length second ->
  let h1 := xor_loop a b trim len (StepRow_copy WIDTH a) in
  let c := std_copy second len (len + lenIndices) (len - trim + lenIndices)
             (std_copy first len (len + lenIndices) (len - trim) h1) in
  length c = WIDTH /\
  take (len - trim + 2 * lenIndices) c
  = xor_bytes a b trim (len - trim)
      ++ take lenIndices (drop len first) ++ take lenIndices (drop len second).
Proof.
  intros Ht Hw Hf Hs h1 c.
  assert (Hh1 : length h1 = WIDTH).
  { unfold h1, xor_loop. generalize (seq trim (len - trim)), (StepRow_copy_length WIDTH a).
    generalize (StepRow_copy WIDTH a). intros h l. revert h.
    induction l as [|x l IH]; intros h Hh; simpl; [done |].
    apply IH. by rewrite length_insert. }
  assert (Hc1 : length (std_copy first len (len + lenIndices) (len - trim) h1) = WIDTH).
  { unfold std_copy. by rewrite length_inserts. }
  split.
  { unfold c, std_copy. by rewrite length_inserts. }
  unfold c.
  rewrite (std_copy_middle second) by lia.
  rewrite (std_copy_middle first) by lia.
  unfold h1. rewrite xor_loop_spec by (rewrite ?StepRow_copy_length; lia).
  set (xs := xor_bytes a b trim (len - trim)).
  set (ia := take lenIndices (drop len first)).
  set (ib := take lenIndices (drop len second)).
  set (tl := drop (len - trim) (StepRow_copy WIDTH a)).
  assert (Hxs : length xs = len - trim) by apply xor_bytes_length.
  assert (Hia : length ia = lenIndices)
    by (unfold ia; rewrite length_take, length_drop; lia).
  assert (Hib : length ib = lenIndices)
    by (unfold ib; rewrite length_take, length_drop; lia).
  assert (Htl : length tl = WIDTH - (len - trim))
    by (unfold tl; rewrite length_drop, StepRow_copy_length; lia).
  assert (E1 : take (len - trim) (xs ++ tl) ++ ia ++ drop (len - trim + lenIndices) (xs ++ tl)
               = (xs ++ ia) ++ drop lenIndices tl).
  { rewrite take_app_length' by done. rewrite drop_app_add' by done.
    by rewrite <- app_assoc. }
  rewrite E1.
  rewrite (take_app_length' (xs ++ ia)) by (rewrite length_app; lia).
  rewrite (drop_app_add' (xs ++ ia)) by (rewrite length_app; lia).
  rewrite (app_assoc (xs ++ ia) ib).
  rewrite take_app_length' by (rewrite !length_app; lia).
  by rewrite <- app_assoc.
Qed.

Lemma layout_bytes (c xs rest : list Z) (d n : nat) :
  length xs = d -> take (d + n) c = xs ++ rest -> length rest = n ->
  (forall x, x < d -> c !! x = xs !! x) /\ take n (drop d c) = rest.
Proof.
  intros Hxs Hc Hrest. split.
  - intros x Hx.
    rewrite <- (lookup_take_lt c (d + n) x) by lia.
    rewrite Hc. by rewrite lookup_app_l by lia.
  - rewrite take_drop_commute, Hc. rewrite drop_app_length' by done. done.
Qed.

Lemma xor_bytes_lookup a b trim n x :
  x < n -> xor_bytes a b trim n !! x
           = Some (Z.lxor (byte_at a (trim + x)) (byte_at b (trim + x))).
Proof.
  intros Hx. unfold xor_bytes. rewrite list_lookup_fmap.
  rewrite lookup_seq_lt by done. done.
Qed.

(** C6. Under the width preconditions the merge constructors of full and of
    truncated rows store a[t+x] xor b[t+x] at every x below len-t, followed
    by a's history then b's when a's leftmost index is strictly smaller than
    b's, and by b's history then a's otherwise (equal leftmost indices
    included). *)
Theorem C6_merge_constructors (WIDTH : nat) (a b : list Z) (len lenIndices trim : nat) :
  length b = length a ->
  merge_asserts (length a) WIDTH len lenIndices trim ->
  (let c := FullStepRow_merge WIDTH a b len lenIndices trim in
   (forall x, x < len - trim ->
      c !! x = Some (Z.lxor (byte_at a (trim + x)) (byte_at b (trim + x)))) /\
   index_history c (len - trim) (2 * lenIndices)
   = if (ArrayToEhIndex a len <? ArrayToEhIndex b len)%Z
     then index_history a len lenIndices ++ index_history b len lenIndices
     else index_history b len lenIndices ++ index_history a len lenIndices) /\
  (let c := TruncatedStepRow_merge WIDTH a b len lenIndices trim in
   (forall x, x < len - trim ->
      c !! x = Some (Z.lxor (byte_at a (trim + x)) (byte_at b (trim + x)))) /\
   index_history c (len - trim) (2 * lenIndices)
   = if (byte_at a len <? byte_at b len)%Z
     then index_history a len lenIndices ++ index_history b len lenIndices
     else index_history b len lenIndices ++ index_history a len lenIndices).
Proof.
  intros Hab (Hw & Ht & Hfit).
  assert (Hgen : forall first second : list Z,
             len + lenIndices <= length first -> len + lenIndices <= length second ->
             let c := std_copy second len (len + lenIndices) (len - trim + lenIndices)
                        (std_copy first len (len + lenIndices) (len - trim)
                           (xor_loop a b trim len (StepRow_copy WIDTH a))) in
             (forall x, x < len - trim ->
                c !! x = Some (Z.lxor (byte_at a (trim + x)) (byte_at b (trim + x)))) /\
             index_history c (len - trim) (2 * lenIndices)
             = index_history first len lenIndices ++ index_history second len lenIndices).
  { intros first second Hf Hs c.
    destruct (merge_layout WIDTH a b first second len lenIndices trim Ht Hfit Hf Hs)
      as [_ Hlay].
    fold c in Hlay.
    destruct (layout_bytes c (xor_bytes a b trim (len - trim))
                (take lenIndices (drop len first) ++ take lenIndices (drop len second))
                (len - trim) (2 * lenIndices)) as [Hx Hh].
    - apply xor_bytes_length.
    - exact Hlay.
    - rewrite length_app, !length_take, !length_drop. lia.
    - split; [| exact Hh].
      intros x Hlt. rewrite Hx by done. by apply xor_bytes_lookup. }
  split.
  - unfold FullStepRow_merge, IndicesBefore.
    destruct (ArrayToEhIndex a len <? ArrayToEhIndex b len)%Z; apply Hgen; lia.
  - unfold TruncatedStepRow_merge, TruncatedIndicesBefore.
    destruct (byte_at a len <? byte_at b len)%Z; apply Hgen; lia.
Qed.

(** ** The duplicate filter of the truncated phase *)

Lemma flag_at_lookup (c : list bool) (i : nat) (f : bool) : c !! i = Some f -> flag_at c i = f.
Proof. unfold flag_at. by intros ->. Qed.

Lemma lookup_flag_at (c : list bool) (i : nat) : i < length c -> c !! i = Some (flag_at c i).
Proof.
  intros Hi. unfold flag_at.
  destruct (lookup_lt_is_Some_2 c i Hi) as [x ->]. done.
Qed.

Lemma drop_cons_byte (h : list Z) (i : nat) :
  i < length h -> drop i h = byte_at h i :: drop (S i) h.
Proof.
  intros Hi. pose proof (lookup_byte_at h i Hi) as Hl.
  by rewrite (drop_S _ _ _ Hl).
Qed.

Lemma drop_cons_flag (c : list bool) (i : nat) :
  i < length c -> drop i c = flag_at c i :: drop (S i) c.
Proof.
  intros Hi. destruct (lookup_lt_is_Some_2 c i Hi) as [f Hf].
  rewrite (drop_S _ _ _ Hf). by rewrite (flag_at_lookup _ _ _ Hf).
Qed.

Lemma all_checked_spec (c : list bool) (k z : nat) (acc : bool) :
  all_checked c z k acc = true <->
  acc = true /\ forall p, z <= p < z + k -> flag_at c p = true.
Proof.
  revert z acc. induction k as [|k IH]; intros z acc; simpl.
  - split; [intros ->; split; [done | intros; lia] | by intros [-> _]].
  - destruct acc; [| split; [done | by intros [? _]]].
    rewrite IH. simpl. split.
    + intros [Hz Hp]. split; [done |]. intros p Hp'.
      destruct (decide (p = z)) as [-> | Hne]; [done | apply Hp; lia].
    + intros [_ Hp]. split; [apply Hp; lia | intros p Hp'; apply Hp; lia].
Qed.

Lemma mark_first_Some (v : Z) (bytes : list Z) (flags flags' : list bool) :
  mark_first v bytes flags = Some flags' ->
  live bytes flags ≡ₚ v :: live bytes flags' /\ length flags' = length flags.
Proof.
  revert flags flags'. induction bytes as [|x bytes IH]; intros [|f flags] flags'; simpl; try done.
  destruct f; simpl.
  - destruct (mark_first v bytes flags) as [fl|] eqn:E; simpl; [| done].
    intros [= <-]. simpl. destruct (IH _ _ E) as [Hp Hl]. split; [done | by rewrite Hl].
  - destruct (v =? x)%Z eqn:Ev.
    + intros [= <-]. simpl. apply Z.eqb_eq in Ev as ->. done.
    + destruct (mark_first v bytes flags) as [fl|] eqn:E; simpl; [| done].
      intros [= <-]. simpl. destruct (IH _ _ E) as [Hp Hl]. split; [| by rewrite Hl].
      rewrite Hp. apply Permutation_swap.
Qed.

Lemma mark_first_None (v : Z) (bytes : list Z) (flags : list bool) :
  mark_first v bytes flags = None -> v ∉ live bytes flags.
Proof.
  revert flags. induction bytes as [|x bytes IH]; intros [|f flags]; simpl;
    try (intros _; apply not_elem_of_nil).
  destruct f; simpl.
  - destruct (mark_first v bytes flags) eqn:E; simpl; [done |]. intros _. by apply IH.
  - destruct (v =? x)%Z eqn:Ev; [done |].
    destruct (mark_first v bytes flags) eqn:E; simpl; [done |]. intros _.
    apply Z.eqb_neq in Ev. rewrite not_elem_of_cons. split; [done | by apply IH].
Qed.

Lemma find_pair_spec (indices : list Z) (z : nat) (k y : nat) (c : list bool) :
  z < y -> y + k = length c -> length indices = length c ->
  match mark_first (byte_at indices z) (drop y indices) (drop y c) with
  | Some flags' => find_pair indices z y k c = <[z := true]> (take y c ++ flags')
  | None => find_pair indices z y k c = c
  end.
Proof.
  revert y. induction k as [|k IH]; intros y Hz Hy Hlen.
  - rewrite (drop_ge indices) by lia. done.
  - rewrite (drop_cons_byte indices y), (drop_cons_flag c y) by lia. simpl.
    destruct (negb (flag_at c y) && (byte_at indices z =? byte_at indices y)%Z) eqn:E.
    + f_equal. rewrite insert_take_drop by lia. done.
    + specialize (IH (S y)). 
      destruct (mark_first (byte_at indices z) (drop (S y) indices) (drop (S y) c)) as [fl|];
        simpl; rewrite IH by lia; [| done].
      f_equal. rewrite (take_S_r c y (flag_at c y)).
      * by rewrite <- app_assoc.
      * apply lookup_flag_at. lia.
Qed.

Lemma occurrences_cons (v x : Z) (l : list Z) :
  occurrences v (x :: l) = (if decide (x = v) then 1 else 0) + occurrences v l.
Proof. unfold occurrences. rewrite filter_cons. by destruct (decide (x = v)). Qed.

Lemma occurrences_perm (v : Z) (l l' : list Z) :
  l ≡ₚ l' -> occurrences v l = occurrences v l'.
Proof. intros Hp. unfold occurrences. by rewrite Hp. Qed.

Lemma occurrences_not_elem (v : Z) (l : list Z) : v ∉ l -> occurrences v l = 0.
Proof.
  induction l as [|x l IH]; [done |].
  rewrite not_elem_of_cons. intros [Hne Hl]. rewrite occurrences_cons, IH by done.
  by destruct (decide (x = v)); [subst |].
Qed.

Lemma even_after_pairing (x : Z) (L L' : list Z) :
  L ≡ₚ x :: L' ->
  (forall v, Nat.Even (occurrences v (x :: L))) <-> (forall v, Nat.Even (occurrences v L')).
Proof.
  intros Hp. split; intros H v; specialize (H v);
    rewrite occurrences_cons, (occurrences_perm v L _ Hp), occurrences_cons in *;
    destruct (decide (x = v)); simpl in *; try done.
  - by apply Nat.Even_succ_succ.
  - by apply Nat.Even_succ_succ.
Qed.

Lemma odd_without_partner (x : Z) (L : list Z) :
  x ∉ L -> ~ (forall v, Nat.Even (occurrences v (x :: L))).
Proof.
  intros Hx H. specialize (H x).
  rewrite occurrences_cons, occurrences_not_elem in H by done.
  destruct (decide (x = x)); [| done]. simpl in H.
  destruct H as [m Hm]. lia.
Qed.

Lemma duplicate_scan_spec (indices : list Z) (k : nat) :
  forall (z : nat) (c : list bool),
    z + k = length c -> length indices = length c ->
    let c' := foldl (fun checked_index z =>
                       if negb (flag_at checked_index z)
                       then find_pair indices z (z + 1) (length indices - (z + 1)) checked_index
                       else checked_index) c (seq z k) in
    length c' = length c /\
    ((forall p, p < length c -> flag_at c' p = true) <->
     ((forall p, p < z -> flag_at c p = true) /\
      forall v, Nat.Even (occurrences v (live (drop z indices) (drop z c))))).
Proof.
  induction k as [|k IH]; intros z c Hz Hlen; simpl.
  - split; [done |].
    rewrite (drop_ge indices), (drop_ge c) by lia. simpl.
    split.
    + intros H. split; [intros p Hp; apply H; lia |].
      intros v. exists 0. done.
    + intros [H _] p Hp. apply H. lia.
  - rewrite (drop_cons_byte indices z), (drop_cons_flag c z) by lia. simpl.
    destruct (flag_at c z) eqn:Hfz; simpl.
    + destruct (IH (S z) c ltac:(lia) Hlen) as [Hl Hiff]. split; [done |].
      rewrite Hiff. split.
      * intros [Hp Hq]. split; [intros p Hlt; apply Hp; lia | done].
      * intros [Hp Hq]. split; [| done]. intros p Hlt.
        destruct (decide (p = z)) as [-> | Hne]; [done | apply Hp; lia].
    + pose proof (find_pair_spec indices z (length indices - (z + 1)) (z + 1) c
                    ltac:(lia) ltac:(lia) Hlen) as Hfp.
      replace (z + 1) with (S z) in * by lia.
      destruct (mark_first (byte_at indices z) (drop (S z) indices) (drop (S z) c))
        as [fl|] eqn:Hm.
      * rewrite Hfp. clear Hfp.
        destruct (mark_first_Some _ _ _ _ Hm) as [Hperm Hfl].
        rewrite length_drop in Hfl.
        set (c1 := <[z := true]> (take (S z) c ++ fl)).
        assert (Hc1 : length c1 = length c).
        { unfold c1. rewrite length_insert, length_app, length_take. lia. }
        destruct (IH (S z) c1 ltac:(lia) ltac:(lia)) as [Hl Hiff].
        split; [lia |]. rewrite Hc1 in Hiff. rewrite Hiff.
        assert (Hdrop : drop (S z) c1 = fl).
        { unfold c1. rewrite drop_insert_lt by lia.
          rewrite drop_app_length' by (rewrite length_take; lia). done. }
        assert (Hlt : forall p, p < z -> flag_at c1 p = flag_at c p).
        { intros p Hp. unfold c1, flag_at.
          rewrite list_lookup_insert_ne by lia.
          rewrite lookup_app_l by (rewrite length_take; lia).
          by rewrite lookup_take_lt by lia. }
        assert (Hz1 : flag_at c1 z = true).
        { unfold c1, flag_at. rewrite list_lookup_insert_eq; [done |].
          rewrite length_app, length_take. lia. }
        rewrite Hdrop.
        rewrite (even_after_pairing _ _ _ Hperm).
        split.
        -- intros [Hp Hq]. split; [| done].
           intros p Hp'. rewrite <- Hlt by done. apply Hp. lia.
        -- intros [Hp Hq]. split; [| done]. intros p Hp'.
           destruct (decide (p = z)) as [-> | Hne]; [done |].
           rewrite Hlt by lia. apply Hp. lia.
      * rewrite Hfp. clear Hfp.
        destruct (IH (S z) c ltac:(lia) Hlen) as [Hl Hiff].
        split; [done |]. rewrite Hiff. split.
        -- intros [Hp _]. specialize (Hp z ltac:(lia)). congruence.
        -- intros [_ Hq]. exfalso.
           by apply (odd_without_partner _ _ (mark_first_None _ _ _ Hm)).
Qed.

Lemma IsProbablyDuplicate_spec (indices : list Z) :
  IsProbablyDuplicate indices (length indices) = true <->
  forall v, Nat.Even (occurrences v indices).
Proof.
  unfold IsProbablyDuplicate.
  set (c0 := replicate (length indices) false).
  assert (Hc0 : length c0 = length indices) by (unfold c0; by rewrite length_replicate).
  destruct (duplicate_scan_spec indices (length indices) 0 c0 ltac:(lia) ltac:(lia))
    as [Hl Hiff].
  rewrite all_checked_spec. rewrite drop_0 in Hiff.
  assert (Hlive : live indices c0 = indices).
  { unfold c0. clear. induction indices as [|x l IH]; simpl; [done | by rewrite IH]. }
  rewrite drop_0, Hlive, Hc0 in Hiff. split.
  - intros [_ H]. apply Hiff. intros p Hp. apply H. lia.
  - intros H. split; [done |]. intros p Hp.
    apply Hiff; [split; [intros; lia | done] | lia].
Qed.

Lemma IsZero_from_spec (hash : list Z) (n i : nat) :
  IsZero_from hash i n = true <-> forall x, i <= x < i + n -> byte_at hash x = 0%Z.
Proof.
  revert i. induction n as [|n IH]; intros i; simpl.
  - split; [intros _ x Hx; lia | done].
  - destruct (byte_at hash i =? 0)%Z eqn:E; simpl.
    + apply Z.eqb_eq in E. rewrite IH. split.
      * intros H x Hx. destruct (decide (x = i)) as [-> | Hne]; [done | apply H; lia].
      * intros H x Hx. apply H. lia.
    + apply Z.eqb_neq in E. split; [done |]. intros H. exfalso. apply E, H. lia.
Qed.

Lemma IsZero_spec (hash : list Z) (len : nat) :
  IsZero hash len = true <-> forall x, x < len -> byte_at hash x = 0%Z.
Proof.
  unfold IsZero. rewrite IsZero_from_spec. split; intros H x Hx; apply H; lia.
Qed.



(** ** Cancellation *)

Lemma shift_one_nat (n : nat) :
  n < 32 -> Z.to_nat (u32 (Z.shiftl 1 (Z.of_nat n))) = 2 ^ n.
Proof.
  intros Hn. rewrite Z.shiftl_1_l.
  rewrite u32_small.
  - rewrite <- (Nat2Z.id (2 ^ n)). f_equal. by rewrite Nat2Z.inj_pow.
  - split; [apply Z.pow_nonneg; lia | apply Z.pow_lt_mono_r; lia].
Qed.

Lemma init_size_pow2 : CollisionBitLength + 1 < 32 -> init_size = 2 ^ (CollisionBitLength + 1).
Proof. apply shift_one_nat. Qed.

Lemma soln_size_pow2 : K < 32 -> soln_size = 2 ^ K.
Proof. apply shift_one_nat. Qed.

Lemma pow2_pos (n : nat) : 0 < 2 ^ n.
Proof. induction n; simpl; lia. Qed.

(** C8. With a probe that answers true at every invocation both solvers end
    by raising SolverCancelled, the probe has been invoked once, with the
    label ListGeneration, and no solution set is returned. *)
Theorem C8_cancelled_at_list_generation (base_state : eh_HashState) (log : probe_log) :
  CollisionBitLength + 1 < 32 ->
  (forall log' label, cancelled log' label = true) ->
  BasicSolve base_state log = (SolverCancelled, ListGeneration :: log) /\
  OptimisedSolve base_state log = (SolverCancelled, ListGeneration :: log).
Proof.
  intros Hbits Hc.
  pose proof (init_size_pow2 Hbits) as Hsz.
  pose proof (pow2_pos (CollisionBitLength + 1)) as Hpos.
  unfold BasicSolve, OptimisedSolve.
  destruct init_size as [|n]; [lia |].
  simpl. unfold solver_bind, throw_if. rewrite !Hc. done.
Qed.

(** ** The verifier's walk *)

Lemma verify_pairs_in_bounds (X : list (list Z)) (hashLen lenIndices : nat) (n : nat) :
  forall (i : nat) (Xc : list (list Z)),
    i + 2 * n <= length X ->
    verify_pairs X hashLen lenIndices n i Xc = Value None \/
    exists Xc', verify_pairs X hashLen lenIndices n i Xc = Value (Some Xc') /\
                length Xc' = length Xc + n.
Proof.
  induction n as [|n IH]; intros i Xc Hlen; simpl.
  - right. exists Xc. split; [done | lia].
  - destruct (lookup_lt_is_Some_2 X i ltac:(lia)) as [Xi ->].
    destruct (lookup_lt_is_Some_2 X (i + 1) ltac:(lia)) as [Xi1 ->].
    destruct (negb (HasCollision Xi Xi1 CollisionByteLength)); [by left |].
    destruct (IndicesBefore Xi1 Xi hashLen lenIndices); [by left |].
    destruct (negb (DistinctIndices Xi Xi1 hashLen lenIndices)); [by left |].
    destruct (IH (i + 2) (Xc ++ [FullStepRow_merge FinalFullWidth Xi Xi1 hashLen lenIndices
                                   CollisionByteLength]) ltac:(lia))
      as [-> | (Xc' & -> & Hl)]; [by left |].
    right. exists Xc'. split; [done |]. rewrite Hl, length_app. simpl. lia.
Qed.

Lemma half_pow2 (k : nat) : (2 ^ S k + 1) / 2 = 2 ^ k.
Proof.
  pose proof (pow2_pos k).
  replace (2 ^ S k + 1) with (1 + 2 ^ k * 2) by (simpl; lia).
  rewrite Nat.div_add by lia. by rewrite Nat.div_small by lia.
Qed.

Lemma verify_level_pow2 (X : list (list Z)) (hashLen lenIndices k : nat) :
  length X = 2 ^ S k ->
  verify_level (X, hashLen, lenIndices) = Value None \/
  exists Xc, verify_level (X, hashLen, lenIndices)
             = Value (Some (Xc, hashLen - CollisionByteLength, lenIndices * 2)) /\
             length Xc = 2 ^ k.
Proof.
  intros Hlen. unfold verify_level. rewrite Hlen, half_pow2.
  destruct (verify_pairs_in_bounds X hashLen lenIndices (2 ^ k) 0 [])
    as [-> | (Xc & -> & Hl)]; [simpl in *; lia | by left |].
  right. exists Xc. split; [done |]. simpl in Hl. done.
Qed.

Lemma verify_levels_pow2 (k : nat) :
  forall (fuel : nat) (X : list (list Z)) (hashLen lenIndices : nat),
    length X = 2 ^ k -> k < fuel ->
    verify_levels fuel (X, hashLen, lenIndices) = Value None \/
    exists Xf, verify_levels fuel (X, hashLen, lenIndices)
               = Value (Some (Xf, hashLen - k * CollisionByteLength, lenIndices * 2 ^ k)) /\
               length Xf = 1.
Proof.
  induction k as [|k IH]; intros fuel X hashLen lenIndices Hlen Hfuel;
    (destruct fuel as [|fuel]; [lia |]); cbn [verify_levels].
  - rewrite Hlen. simpl. right. exists X. split; [| done].
    by rewrite Nat.sub_0_r, Nat.mul_1_r.
  - pose proof (pow2_pos k).
    destruct (1 <? length X) eqn:E; [| apply Nat.ltb_ge in E; simpl in Hlen; lia].
    destruct (verify_level_pow2 X hashLen lenIndices k Hlen) as [-> | (Xc & -> & Hl)];
      [by left |].
    destruct (IH fuel Xc (hashLen - CollisionByteLength) (lenIndices * 2) Hl ltac:(lia))
      as [-> | (Xf & -> & Hf)]; [by left |].
    right. exists Xf. split; [| done].
    replace (hashLen - S k * CollisionByteLength)
      with (hashLen - CollisionByteLength - k * CollisionByteLength) by lia.
    replace (lenIndices * 2 ^ S k) with (lenIndices * 2 * 2 ^ k) by (simpl; lia).
    done.
Qed.

Lemma lt_pow2 (k : nat) : k < 2 ^ k.
Proof. induction k; simpl; lia. Qed.

Lemma loop_head_pow2 (X0 : list (list Z)) (hashLen0 lenIndices0 : nat) (st : list (list Z) * nat * nat) :
  length X0 = 2 ^ K ->
  loop_head (X0, hashLen0, lenIndices0) st ->
  exists k, k <= K /\ length st.1.1 = 2 ^ k /\
            st.1.2 = hashLen0 - (K - k) * CollisionByteLength /\
            st.2 = lenIndices0 * 2 ^ (K - k).
Proof.
  intros Hlen Hhead. induction Hhead as [| st st' Hhead IH Hgt Hstep].
  - exists K. simpl. rewrite Nat.sub_diag. simpl.
    split; [done |]. split; [done |]. split; lia.
  - destruct IH as (k & Hk & Hl & Hh & Hi).
    destruct st as [[X hl] li]. simpl in Hl, Hh, Hi, Hgt.
    destruct k as [|k]; [simpl in Hl; lia |].
    destruct (verify_level_pow2 X hl li k Hl) as [E | (Xc & E & HXc)];
      rewrite E in Hstep; [done |].
    injection Hstep as <-. simpl. exists k.
    split; [lia |]. split; [done |].
    replace (K - k) with (S (K - S k)) by lia. rewrite Hh, Hi.
    split; simpl; lia.
Qed.

(** C10. Once the length check has passed, the list has a power-of-two size
    whenever the while loop tests its condition, every pass over it stays in
    bounds, the loop ends after K halvings with one row, and
    IsValidSolution returns a boolean: no read is out of bounds and the
    closing assertion holds. *)
Theorem C10_verifier_walk_is_safe (base_state : eh_HashState) (soln : list Z) :
  K < 32 ->
  length soln = soln_size ->
  let st0 := (map (FullStepRow_new FinalFullWidth N K base_state) soln,
              ExpandedHashLength, 4) in
  (forall st, loop_head st0 st ->
     exists k, k <= K /\ length st.1.1 = 2 ^ k /\ st.2 = 4 * 2 ^ (K - k) /\
               (1 < length st.1.1 -> exists r, verify_level st = Value r)) /\
  (verify_levels (S (length st0.1.1)) st0 = Value None \/
   exists Xf, verify_levels (S (length st0.1.1)) st0
              = Value (Some (Xf, ExpandedHashLength - K * CollisionByteLength, 4 * 2 ^ K)) /\
              length Xf = 1) /\
  (exists b, IsValidSolution base_state soln = Value b).
Proof.
  intros HK Hlen st0.
  rewrite (soln_size_pow2 HK) in Hlen.
  assert (HX0 : length st0.1.1 = 2 ^ K) by (simpl; by rewrite length_map).
  assert (Hwalk := verify_levels_pow2 K (S (length st0.1.1)) st0.1.1 ExpandedHashLength 4
                     HX0 ltac:(rewrite HX0; pose proof (lt_pow2 K); lia)).
  change (st0.1.1, ExpandedHashLength, 4) with st0 in Hwalk.
  split; [| split; [exact Hwalk |]].
  - intros st Hhead.
    destruct (loop_head_pow2 _ _ _ st HX0 Hhead) as (k & Hk & Hl & _ & Hi).
    exists k. split; [done |]. split; [done |]. split; [done |].
    intros Hgt. destruct st as [[X hl] li]. simpl in Hl, Hi, Hgt.
    destruct k as [|k]; [simpl in Hl; lia |].
    destruct (verify_level_pow2 X hl li k Hl) as [-> | (Xc & -> & _)]; eauto.
  - unfold IsValidSolution. rewrite (soln_size_pow2 HK).
    destruct (Nat.eqb_spec (length soln) (2 ^ K)) as [_ | Hne]; [| done]. cbn [negb].
    change (verify_levels (S (length (map (FullStepRow_new FinalFullWidth N K base_state) soln)))
              (map (FullStepRow_new FinalFullWidth N K base_state) soln, ExpandedHashLength, 4))
      with (verify_levels (S (length st0.1.1)) st0).
    destruct Hwalk as [-> | (Xf & -> & Hf)]; [by exists false |].
    rewrite Hf. cbn [Nat.eqb].
    destruct Xf as [|X0 [|? ?]]; simpl in Hf; try lia. simpl. eauto.
Qed.

(** ** Distinct indices and canonical order *)

Lemma strictly_increasing_Sorted (l : list Z) :
  strictly_increasing l = true -> Sorted Z.lt l.
Proof.
  induction l as [|x l IH]; [constructor |].
  destruct l as [|y l]; [repeat constructor |].
  cbn [strictly_increasing]. rewrite andb_true_iff, Z.ltb_lt. intros [Hxy Hl].
  constructor; [by apply IH | by constructor].
Qed.

Lemma strictly_increasing_NoDup (l : list Z) :
  strictly_increasing l = true -> NoDup l.
Proof.
  intros H. apply strictly_increasing_Sorted in H.
  apply Sorted_StronglySorted in H; [| intros x y z; apply Z.lt_trans].
  induction H as [|x l Hl IH Hx]; constructor; [| done].
  intros Hin. rewrite Forall_forall in Hx. specialize (Hx x Hin). lia.
Qed.

Lemma DistinctIndices_NoDup (a b : list Z) (len lenIndices : nat) :
  DistinctIndices a b len lenIndices = true ->
  NoDup (GetIndices a len lenIndices ++ GetIndices b len lenIndices).
Proof.
  unfold DistinctIndices. intros H. apply strictly_increasing_NoDup in H.
  by rewrite merge_sort_Permutation in H.
Qed.

Lemma GetIndices_head (h : list Z) (len lenIndices : nat) :
  1 <= lenIndices ->
  exists t, GetIndices h len lenIndices = ArrayToEhIndex h len :: t.
Proof.
  intros Hli. unfold GetIndices.
  destruct ((lenIndices + 3) / 4) as [|m] eqn:E.
  - apply Nat.div_small_iff in E; lia.
  - simpl. rewrite Nat.add_0_r. eauto.
Qed.

Lemma DistinctIndices_leftmost (a b : list Z) (len lenIndices : nat) :
  1 <= lenIndices ->
  DistinctIndices a b len lenIndices = true ->
  ArrayToEhIndex a len <> ArrayToEhIndex b len.
Proof.
  intros Hli H. apply DistinctIndices_NoDup in H.
  destruct (GetIndices_head a len lenIndices Hli) as [ta Ha].
  destruct (GetIndices_head b len lenIndices Hli) as [tb Hb].
  rewrite Ha, Hb in H. simpl in H. apply NoDup_cons in H as [Hnin _].
  intros Heq. apply Hnin. rewrite Heq. apply elem_of_app. right. left.
Qed.

(** A pair that is not in canonical order stops the pass with [return false]
    (or an earlier pair does). *)
Lemma verify_pairs_reject (X : list (list Z)) (hashLen lenIndices : nat) (a b : list Z) (n : nat) :
  1 <= lenIndices ->
  ~ (ArrayToEhIndex a hashLen < ArrayToEhIndex b hashLen)%Z ->
  forall (i g : nat) (Xc Xc' : list (list Z)),
    g < n ->
    X !! (i + 2 * g) = Some a -> X !! (i + 2 * g + 1) = Some b ->
    verify_pairs X hashLen lenIndices n i Xc <> Value (Some Xc').
Proof.
  intros Hli Hbad. induction n as [|n IH]; intros i g Xc Xc' Hg Ha Hb; [lia |].
  simpl.
  destruct g as [|g].
  - rewrite Nat.mul_0_r, Nat.add_0_r in Ha, Hb. rewrite Ha, Hb.
    destruct (HasCollision a b CollisionByteLength); [| done]. simpl.
    unfold IndicesBefore at 1.
    destruct (ArrayToEhIndex b hashLen <? ArrayToEhIndex a hashLen)%Z eqn:E1; [done |].
    destruct (DistinctIndices a b hashLen lenIndices) eqn:E2; [| done].
    exfalso. apply Z.ltb_ge in E1.
    pose proof (DistinctIndices_leftmost a b hashLen lenIndices Hli E2). lia.
  - destruct (X !! i) as [Xi|]; [| done].
    destruct (X !! (i + 1)) as [Xi1|]; [| done].
    destruct (negb (HasCollision Xi Xi1 CollisionByteLength)); [done |].
    destruct (IndicesBefore Xi1 Xi hashLen lenIndices); [done |].
    destruct (negb (DistinctIndices Xi Xi1 hashLen lenIndices)); [done |].
    apply (IH (i + 2) g); [lia | |].
    + rewrite <- Ha. f_equal. lia.
    + rewrite <- Hb. f_equal. lia.
Qed.

Lemma verify_levels_mono (f : nat) :
  forall (st : list (list Z) * nat * nat) r (f' : nat),
    verify_levels f st = Value r -> f <= f' -> verify_levels f' st = Value r.
Proof.
  induction f as [|f IH]; intros st r f' H Hle; [done |].
  destruct f' as [|f']; [lia |].
  cbn [verify_levels] in *. destruct st as [[X hl] li].
  destruct (1 <? length X); [| done].
  destruct (verify_level (X, hl, li)) as [[st'|]| | |]; try done.
  apply IH; [done | lia].
Qed.

Lemma verify_levels_from_head (st0 st : list (list Z) * nat * nat) :
  loop_head st0 st ->
  forall f r, verify_levels f st = Value r -> exists f0, verify_levels f0 st0 = Value r.
Proof.
  induction 1 as [| st st' Hhead IH Hgt Hstep]; intros f r Hr; [eauto |].
  apply (IH (S f)). cbn [verify_levels]. destruct st as [[X hl] li].
  simpl in Hgt. apply Nat.ltb_lt in Hgt. rewrite Hgt, Hstep. done.
Qed.

(** C4. A solution of length 2^K is rejected whenever, at some level that
    the walk reaches, the leftmost index of X[2g] is not strictly smaller
    than the leftmost index of X[2g+1]; so the swap of the first two indices
    of an accepted solution is rejected. *)
Theorem C4_non_canonical_order_is_rejected (base_state : eh_HashState) :
  K < 32 ->
  (forall (soln : list Z) (X : list (list Z)) (hashLen lenIndices g : nat) (a b : list Z),
     length soln = soln_size ->
     loop_head (map (FullStepRow_new FinalFullWidth N K base_state) soln,
                ExpandedHashLength, 4) (X, hashLen, lenIndices) ->
     X !! (2 * g) = Some a -> X !! (2 * g + 1) = Some b ->
     ~ (ArrayToEhIndex a hashLen < ArrayToEhIndex b hashLen)%Z ->
     IsValidSolution base_state soln = Value false) /\
  (forall (i j : Z) (rest : list Z),
     IsValidSolution base_state (i :: j :: rest) = Value true ->
     IsValidSolution base_state (j :: i :: rest) = Value false).
Proof.
  intros HK.
  assert (Hpart1 : forall (soln : list Z) (X : list (list Z)) (hashLen lenIndices g : nat)
                          (a b : list Z),
             length soln = soln_size ->
             loop_head (map (FullStepRow_new FinalFullWidth N K base_state) soln,
                        ExpandedHashLength, 4) (X, hashLen, lenIndices) ->
             X !! (2 * g) = Some a -> X !! (2 * g + 1) = Some b ->
             ~ (ArrayToEhIndex a hashLen < ArrayToEhIndex b hashLen)%Z ->
             IsValidSolution base_state soln = Value false).
  { intros soln X hashLen lenIndices g a b Hlen Hhead Ha Hb Hbad.
    set (st0 := (map (FullStepRow_new FinalFullWidth N K base_state) soln,
                 ExpandedHashLength, 4)) in *.
    rewrite (soln_size_pow2 HK) in Hlen.
    assert (HX0 : length st0.1.1 = 2 ^ K) by (simpl; by rewrite length_map).
    destruct (loop_head_pow2 _ _ _ _ HX0 Hhead) as (k & Hk & Hl & _ & Hi).
    simpl in Hl, Hi.
    assert (Hgt : 2 * g + 1 < length X) by (by apply lookup_lt_Some in Hb).
    destruct k as [|k]; [simpl in Hl; lia |].
    assert (Hli : 1 <= lenIndices).
    { rewrite Hi. pose proof (pow2_pos (K - S k)). lia. }
    assert (Hlevel : verify_level (X, hashLen, lenIndices) = Value None).
    { destruct (verify_level_pow2 X hashLen lenIndices k Hl) as [E | (Xc & E & _)]; [done |].
      exfalso. unfold verify_level in E.
      rewrite Hl, half_pow2 in E.
      destruct (verify_pairs X hashLen lenIndices (2 ^ k) 0 []) as [[Xc'|]| | |] eqn:Ev;
        try done.
      apply (verify_pairs_reject X hashLen lenIndices a b (2 ^ k) Hli Hbad 0 g [] Xc');
        [simpl in Hl; lia | done | done | done]. }
    assert (Hhere : verify_levels 1 (X, hashLen, lenIndices) = Value None).
    { cbn [verify_levels]. rewrite Hlevel.
      destruct (1 <? length X) eqn:E; [done | apply Nat.ltb_ge in E; lia]. }
    destruct (verify_levels_from_head _ _ Hhead _ _ Hhere) as [f0 Hf0].
    assert (Hwalk := verify_levels_pow2 K (S (length st0.1.1)) st0.1.1 ExpandedHashLength 4
                       HX0 ltac:(rewrite HX0; pose proof (lt_pow2 K); lia)).
    change (st0.1.1, ExpandedHashLength, 4) with st0 in Hwalk.
    unfold IsValidSolution. rewrite (soln_size_pow2 HK).
    destruct (Nat.eqb_spec (length soln) (2 ^ K)) as [_ | Hne]; [| done]. cbn [negb].
    change (verify_levels (S (length (map (FullStepRow_new FinalFullWidth N K base_state) soln)))
              (map (FullStepRow_new FinalFullWidth N K base_state) soln, ExpandedHashLength, 4))
      with (verify_levels (S (length st0.1.1)) st0).
    destruct Hwalk as [-> | (Xf & Hsome & _)]; [done |].
    exfalso.
    pose proof (verify_levels_mono _ _ _ (f0 + S (length st0.1.1)) Hf0 ltac:(lia)) as H1.
    pose proof (verify_levels_mono _ _ _ (f0 + S (length st0.1.1)) Hsome ltac:(lia)) as H2.
    rewrite H1 in H2. done. }
  split; [exact Hpart1 |].
  intros i j rest Hvalid.
  set (A := FullStepRow_new FinalFullWidth N K base_state i).
  set (B := FullStepRow_new FinalFullWidth N K base_state j).
  assert (Hlen : length (i :: j :: rest) = soln_size).
  { unfold IsValidSolution in Hvalid.
    destruct (Nat.eqb_spec (length (i :: j :: rest)) soln_size); [done | done]. }
  assert (Hord : (ArrayToEhIndex A ExpandedHashLength < ArrayToEhIndex B ExpandedHashLength)%Z).
  { unfold IsValidSolution in Hvalid. rewrite Hlen, Nat.eqb_refl in Hvalid.
    cbn [negb map length verify_levels] in Hvalid. fold A B in Hvalid.
    destruct (1 <? S (S (length (map (FullStepRow_new FinalFullWidth N K base_state) rest))))
      eqn:E in Hvalid; [| apply Nat.ltb_ge in E; lia].
    unfold verify_level in Hvalid.
    destruct ((length (A :: B :: map (FullStepRow_new FinalFullWidth N K base_state) rest) + 1) / 2)
      as [|n] eqn:En.
    { apply Nat.div_small_iff in En; simpl in En; lia. }
    cbn [verify_pairs lookup list_lookup Nat.add] in Hvalid.
    destruct (HasCollision A B CollisionByteLength); [| done]. cbn [negb] in Hvalid.
    unfold IndicesBefore at 1 in Hvalid.
    destruct (ArrayToEhIndex B ExpandedHashLength <? ArrayToEhIndex A ExpandedHashLength)%Z
      eqn:E1; [done |].
    destruct (DistinctIndices A B ExpandedHashLength 4) eqn:E2; [| done].
    apply Z.ltb_ge in E1.
    pose proof (DistinctIndices_leftmost A B ExpandedHashLength 4 ltac:(lia) E2). lia. }
  apply (Hpart1 (j :: i :: rest)
           (map (FullStepRow_new FinalFullWidth N K base_state) (j :: i :: rest))
           ExpandedHashLength 4 0 B A).
  - simpl in *. lia.
  - apply loop_head_entry.
  - done.
  - done.
  - lia.
Qed.

(** ** Runs of colliding rows *)

Lemma HasCollision_from_spec (a b : list Z) (n j : nat) :
  HasCollision_from a b j n = true <-> forall x, j <= x < j + n -> byte_at a x = byte_at b x.
Proof.
  revert j. induction n as [|n IH]; intros j; simpl.
  - split; [intros _ x Hx; lia | done].
  - destruct (byte_at a j =? byte_at b j)%Z eqn:E; simpl.
    + apply Z.eqb_eq in E. rewrite IH. split.
      * intros H x Hx. destruct (decide (x = j)) as [-> | Hne]; [done | apply H; lia].
      * intros H x Hx. apply H. lia.
    + apply Z.eqb_neq in E. split; [done |]. intros H. exfalso. apply E, H. lia.
Qed.

Lemma HasCollision_spec (a b : list Z) (l : nat) :
  HasCollision a b l = true <-> forall x, x < l -> byte_at a x = byte_at b x.
Proof.
  unfold HasCollision. rewrite HasCollision_from_spec.
  split; intros H x Hx; apply H; lia.
Qed.

Lemma HasCollision_refl (a : list Z) (l : nat) : HasCollision a a l = true.
Proof. by apply HasCollision_spec. Qed.

Lemma HasCollision_sym (a b : list Z) (l : nat) :
  HasCollision a b l = true -> HasCollision b a l = true.
Proof. rewrite !HasCollision_spec. intros H x Hx. symmetry. by apply H. Qed.

Lemma HasCollision_trans (a b c : list Z) (l : nat) :
  HasCollision a b l = true -> HasCollision b c l = true -> HasCollision a c l = true.
Proof.
  rewrite !HasCollision_spec. intros H1 H2 x Hx. by rewrite H1, H2.
Qed.

Lemma HasCollision_eq_l (a b : list Z) (l : nat) :
  HasCollision a b l = true -> forall c, HasCollision a c l = HasCollision b c l.
Proof.
  intros Hab c.
  destruct (HasCollision a c l) eqn:E1, (HasCollision b c l) eqn:E2; try done.
  - pose proof (HasCollision_trans _ _ _ l (HasCollision_sym _ _ _ Hab) E1). congruence.
  - pose proof (HasCollision_trans _ _ _ l Hab E2). congruence.
Qed.

Lemma span_run_app (c : nat) (head : list Z) (rest : list (list Z)) :
  (span_run c head rest).1 ++ (span_run c head rest).2 = rest.
Proof.
  induction rest as [|x rest IH]; simpl; [done |].
  destruct (HasCollision head x c); [| done].
  destruct (span_run c head rest) as [run tl]. simpl in *. by rewrite IH.
Qed.

Lemma span_run_collide (c : nat) (head : list Z) (rest : list (list Z)) :
  Forall (fun x => HasCollision head x c = true) (span_run c head rest).1.
Proof.
  induction rest as [|x rest IH]; simpl; [constructor |].
  destruct (HasCollision head x c) eqn:E; [| constructor].
  destruct (span_run c head rest) as [run tl]. simpl in *. by constructor.
Qed.

Lemma span_run_ext (c : nat) (head head' : list Z) (rest : list (list Z)) :
  HasCollision head head' c = true -> span_run c head rest = span_run c head' rest.
Proof.
  intros H. induction rest as [|x rest IH]; simpl; [done |].
  rewrite (HasCollision_eq_l _ _ _ H x), IH. done.
Qed.

Lemma group_runs_span (c : nat) (rest : list (list Z)) :
  forall head,
    group_runs c (head :: rest)
    = (head :: (span_run c head rest).1) :: group_runs c (span_run c head rest).2.
Proof.
  induction rest as [|x rest IH]; intros head; [done |].
  cbn [group_runs] in *. rewrite (IH x).
  cbn [span_run]. destruct (HasCollision head x c) eqn:E.
  - rewrite (span_run_ext c head x) by done.
    destruct (span_run c x rest) as [run tl]. done.
  - simpl. rewrite <- (IH x). done.
Qed.

Lemma row_at_drop (X : list (list Z)) (i : nat) :
  i < length X -> drop i X = row_at X i :: drop (S i) X.
Proof.
  intros Hi. unfold row_at.
  destruct (lookup_lt_is_Some_2 X i Hi) as [x Hx]. rewrite Hx. simpl.
  by apply drop_S.
Qed.

(** Step 2b finds the run that [span_run] splits off. *)
Lemma run_length_span (X : list (list Z)) (clen i : nat) (fuel : nat) :
  forall j, length X - (i + j) <= fuel ->
    run_length X clen i j fuel
    = j + length (span_run clen (row_at X i) (drop (i + j) X)).1.
Proof.
  induction fuel as [|fuel IH]; intros j Hfuel; simpl.
  - rewrite drop_ge by lia. simpl. lia.
  - destruct (i + j <? length X) eqn:E.
    + apply Nat.ltb_lt in E. rewrite (row_at_drop X (i + j)) by done. simpl.
      destruct (HasCollision (row_at X i) (row_at X (i + j)) clen); simpl.
      * rewrite IH by lia. replace (i + (j + 1)) with (S (i + j)) by lia.
        destruct (span_run clen (row_at X i) (drop (S (i + j)) X)). simpl. lia.
      * lia.
    + apply Nat.ltb_ge in E. rewrite drop_ge by lia. simpl. lia.
Qed.

Lemma run_length_bounds (X : list (list Z)) (clen i : nat) :
  i < length X ->
  let j := run_length X clen i 1 (length X) in
  1 <= j /\ i + j <= length X /\
  group_runs clen (drop i X) = take j (drop i X) :: group_runs clen (drop (i + j) X) /\
  Forall (fun x => HasCollision (row_at X i) x clen = true) (take j (drop i X)).
Proof.
  intros Hi j.
  assert (Hj : j = 1 + length (span_run clen (row_at X i) (drop (i + 1) X)).1).
  { unfold j. rewrite run_length_span by lia. done. }
  replace (i + 1) with (S i) in Hj by lia.
  pose proof (span_run_app clen (row_at X i) (drop (S i) X)) as Happ.
  pose proof (span_run_collide clen (row_at X i) (drop (S i) X)) as Hcol.
  pose proof (group_runs_span clen (drop (S i) X) (row_at X i)) as Hgr.
  rewrite <- row_at_drop in Hgr by done.
  destruct (span_run clen (row_at X i) (drop (S i) X)) as [run tl]. simpl in *.
  assert (Hlen : length run + length tl = length X - S i).
  { rewrite <- length_app, Happ, length_drop. done. }
  assert (Hrun : take j (drop i X) = row_at X i :: run).
  { rewrite (row_at_drop X i) by done. rewrite Hj. simpl. f_equal.
    rewrite <- Happ. by rewrite take_app_length. }
  assert (Htl : drop (i + j) X = tl).
  { replace (i + j) with (S i + length run) by lia.
    rewrite <- (drop_drop X (length run) (S i)). rewrite <- Happ. by rewrite drop_app_length. }
  split; [lia |]. split; [lia |]. split.
  - by rewrite Hrun, Htl.
  - rewrite Hrun. constructor; [apply HasCollision_refl | done].
Qed.

(** ** The in-place scan against the fresh output list *)

Lemma returns_ret {A : Type} (a : A) (P : A -> Prop) : P a -> returns (solver_ret a) P.
Proof. intros H log. by exists a, log. Qed.

Lemma returns_bind {A B : Type} (m : solver A) (f : A -> solver B)
    (P : A -> Prop) (Q : B -> Prop) :
  returns m P -> (forall a, P a -> returns (f a) Q) -> returns (solver_bind m f) Q.
Proof.
  intros Hm Hf log. destruct (Hm log) as (a & log' & E & Ha).
  destruct (Hf a Ha log') as (b & log'' & E' & Hb).
  exists b, log''. unfold solver_bind. by rewrite E.
Qed.

Lemma returns_weaken {A : Type} (m : solver A) (P Q : A -> Prop) :
  returns m P -> (forall a, P a -> Q a) -> returns m Q.
Proof.
  intros Hm HPQ log. destruct (Hm log) as (a & log' & E & Ha). exists a, log'. eauto.
Qed.

Lemma flat_map_map {A B C : Type} (f : B -> list C) (g : A -> B) (l : list A) :
  flat_map f (map g l) = flat_map (fun x => f (g x)) l.
Proof. induction l as [|x l IH]; simpl; [done | by rewrite IH]. Qed.

Lemma pair_loop_S (j : nat) :
  pair_loop (S j)
  = map (fun m => (0, m)) (seq 1 j) ++ map (fun lm => (S lm.1, S lm.2)) (pair_loop j).
Proof.
  unfold pair_loop. replace (S j - 1) with j by lia.
  destruct j as [|j]; [done |].
  replace (S j - 1) with j by lia.
  cbn [seq flat_map]. f_equal.
  rewrite <- seq_shift, flat_map_map.
  rewrite flat_map_concat_map, (flat_map_concat_map _ (seq 0 j)).
  rewrite concat_map, map_map. f_equal. apply map_ext. intros l.
  rewrite map_map. replace (S (S j) - (S l + 1)) with (S j - (l + 1)) by lia.
  replace (S l + 1) with (S (l + 1)) by lia.
  rewrite <- seq_shift, map_map. done.
Qed.

Lemma take_drop_rows (X : list (list Z)) (j : nat) :
  forall s, s + j <= length X -> take j (drop s X) = map (row_at X) (seq s j).
Proof.
  induction j as [|j IH]; intros s Hs; [done |].
  rewrite (row_at_drop X s) by lia. simpl. f_equal. apply IH. lia.
Qed.

Lemma flat_map_seq_shift {C : Type} (f : nat -> list C) (i j : nat) :
  forall s, flat_map (fun m => f (i + m)) (seq s j) = flat_map f (seq (i + s) j).
Proof.
  induction j as [|j IH]; intros s; simpl; [done |].
  rewrite IH. by replace (i + S s) with (S (i + s)) by lia.
Qed.

Lemma pair_loop_merges (produce : list Z -> list Z -> list (list Z)) (X : list (list Z)) (j : nat) :
  forall i, i + j <= length X ->
    flat_map (fun lm => produce (row_at X (i + lm.1)) (row_at X (i + lm.2))) (pair_loop j)
    = run_merges produce (take j (drop i X)).
Proof.
  induction j as [|j IH]; intros i Hi; [done |].
  rewrite pair_loop_S, flat_map_app, !flat_map_map. simpl.
  rewrite (row_at_drop X i) by lia. cbn [take run_merges]. f_equal.
  - rewrite Nat.add_0_r. rewrite take_drop_rows by lia.
    rewrite flat_map_map.
    rewrite (flat_map_seq_shift (fun p => produce (row_at X i) (row_at X p))).
    by replace (i + 1) with (S i) by lia.
  - rewrite <- IH by lia. apply flat_map_ext. intros [l m]. simpl.
    by replace (i + S l) with (S (i + l)) by lia; replace (i + S m) with (S (i + m)) by lia.
Qed.

Lemma foldl_emit (emit : list (list Z) -> nat -> nat -> list (list Z) -> list (list Z))
    (produce : list Z -> list Z -> list (list Z)) (X : list (list Z)) (i : nat)
    (pairs : list (nat * nat)) :
  (forall X p q Xc, emit X p q Xc = Xc ++ produce (row_at X p) (row_at X q)) ->
  forall Xc,
    foldl (fun Xc lm => emit X (i + lm.1) (i + lm.2) Xc) Xc pairs
    = Xc ++ flat_map (fun lm => produce (row_at X (i + lm.1)) (row_at X (i + lm.2))) pairs.
Proof.
  intros Hemit. induction pairs as [|lm pairs IH]; intros Xc; simpl.
  - by rewrite app_nil_r.
  - rewrite IH, Hemit. by rewrite <- app_assoc.
Qed.

Lemma pop_back_back (Xc : list (list Z)) :
  0 < length Xc -> Xc = pop_back Xc ++ [back Xc].
Proof.
  unfold pop_back, back.
  destruct Xc as [|x Xc _] using rev_ind; [simpl; lia |]. intros _.
  rewrite length_app. simpl. replace (length Xc + 1 - 1) with (length Xc) by lia.
  rewrite take_app_length, last_snoc. done.
Qed.

Lemma backfill_spec (limit fuel : nat) :
  forall (X Xc : list (list Z)) (posFree : nat),
    limit <= length X -> length Xc <= fuel -> posFree <= limit ->
    exists X' Xc' posFree',
      backfill limit fuel X Xc posFree = (X', Xc', posFree') /\
      length X' = length X /\ posFree <= posFree' <= limit /\
      drop limit X' = drop limit X /\
      take posFree' X' ++ Xc' ≡ₚ take posFree X ++ Xc /\
      (posFree' = limit \/ Xc' = []).
Proof.
  induction fuel as [|fuel IH]; intros X Xc posFree Hlim Hfuel Hpos; simpl.
  - exists X, Xc, posFree. repeat split; try done; try lia.
    right. destruct Xc; [done | simpl in Hfuel; lia].
  - destruct (posFree <? limit) eqn:E1; simpl.
    + apply Nat.ltb_lt in E1. destruct (0 <? length Xc) eqn:E2.
      * apply Nat.ltb_lt in E2.
        pose proof (pop_back_back Xc E2) as Hsplit.
        assert (Hpop : length (pop_back Xc) = length Xc - 1).
        { unfold pop_back. rewrite length_take. lia. }
        destruct (IH (<[posFree := back Xc]> X) (pop_back Xc) (posFree + 1))
          as (X' & Xc' & pf' & E & Hl & Hp & Hd & Hperm & Hexit).
        { by rewrite length_insert. }
        { lia. }
        { lia. }
        exists X', Xc', pf'. split; [done |]. rewrite length_insert in Hl.
        split; [done |]. split; [lia |]. split.
        { rewrite Hd. by rewrite drop_insert_lt by lia. }
        split; [| done].
        rewrite Hperm. rewrite Hsplit at 3.
        replace (posFree + 1) with (S posFree) by lia.
        rewrite (take_S_r _ _ (back Xc)) by (apply list_lookup_insert_eq; lia).
        rewrite take_insert_ge by lia.
        rewrite <- !app_assoc. apply Permutation_app_head. apply Permutation_app_comm.
      * apply Nat.ltb_ge in E2. exists X, Xc, posFree. repeat split; try done; try lia.
        right. destruct Xc; [done | simpl in E2; lia].
    + apply Nat.ltb_ge in E1. exists X, Xc, posFree. repeat split; try done; try lia.
Qed.

Lemma fresh_round_short (produce : list Z -> list Z -> list (list Z)) (c : nat) (l : list (list Z)) :
  length l <= 1 -> fresh_round produce c l = [].
Proof.
  destruct l as [|x [|y l]]; simpl; intros H; try lia; done.
Qed.

Section Scan.

Variable clen : nat.
Variable emit : list (list Z) -> nat -> nat -> list (list Z) -> list (list Z).
Variable produce : list Z -> list Z -> list (list Z).
Variable check : solver unit.

Hypothesis emit_produce :
  forall X p q Xc, emit X p q Xc = Xc ++ produce (row_at X p) (row_at X q).
Hypothesis check_returns : returns check (fun _ => True).

Lemma collide_step_spec (X0 Xcur Xc : list (list Z)) (i posFree : nat) :
  length Xcur = length X0 -> drop i Xcur = drop i X0 ->
  posFree <= i -> i < length X0 ->
  exists X1 Xc1 j pf1,
    collide_step clen emit (Xcur, Xc, i, posFree) = (X1, Xc1, i + j, pf1) /\
    1 <= j /\ i + j <= length X0 /\ length X1 = length X0 /\
    drop (i + j) X1 = drop (i + j) X0 /\ pf1 <= i + j /\
    take pf1 X1 ++ Xc1 ≡ₚ (take posFree Xcur ++ Xc) ++ run_merges produce (take j (drop i X0)) /\
    group_runs clen (drop i X0) = take j (drop i X0) :: group_runs clen (drop (i + j) X0).
Proof.
  intros Hlen Hdrop Hpos Hi.
  unfold collide_step.
  set (j := run_length Xcur clen i 1 (length Xcur)).
  destruct (run_length_bounds Xcur clen i ltac:(lia)) as (Hj1 & Hj2 & Hgr & _).
  fold j in Hj1, Hj2, Hgr.
  rewrite (foldl_emit emit produce Xcur i (pair_loop j) emit_produce).
  rewrite pair_loop_merges by lia.
  assert (Hdropj : drop (i + j) Xcur = drop (i + j) X0).
  { by rewrite <- !(drop_drop _ j i), Hdrop. }
  rewrite Hdrop, Hdropj in Hgr. rewrite Hdrop.
  set (Xc2 := Xc ++ run_merges produce (take j (drop i X0))).
  destruct (backfill_spec (i + j) (length Xc2) Xcur Xc2 posFree ltac:(lia) ltac:(lia) ltac:(lia))
    as (X1 & Xc1 & pf1 & E & Hl & Hp & Hd & Hperm & _).
  rewrite E. exists X1, Xc1, j, pf1.
  split; [done |]. split; [done |]. split; [lia |]. split; [lia |].
  split; [by rewrite Hd |]. split; [lia |]. split; [| done].
  rewrite Hperm. unfold Xc2. by rewrite app_assoc.
Qed.

Lemma collide_loop_spec (X0 : list (list Z)) (fuel : nat) :
  forall (Xcur Xc : list (list Z)) (i posFree : nat),
    length Xcur = length X0 -> drop i Xcur = drop i X0 ->
    posFree <= i -> i <= length X0 -> length X0 - i <= fuel ->
    returns (collide_loop clen emit check fuel (Xcur, Xc, i, posFree))
      (fun st => let '(X', Xc', _, posFree') := st in
         length X' = length X0 /\ posFree' <= length X0 /\
         take posFree' X' ++ Xc'
           ≡ₚ (take posFree Xcur ++ Xc) ++ fresh_round produce clen (drop i X0)).
Proof.
  induction fuel as [|fuel IH]; intros Xcur Xc i posFree Hlen Hdrop Hpos Hi Hfuel;
    cbn [collide_loop].
  - apply returns_ret. split; [done |]. split; [lia |].
    rewrite fresh_round_short by (rewrite length_drop; lia). by rewrite app_nil_r.
  - destruct (i <? length Xcur - 1) eqn:E.
    + apply Nat.ltb_lt in E.
      destruct (collide_step_spec X0 Xcur Xc i posFree Hlen Hdrop Hpos ltac:(lia))
        as (X1 & Xc1 & j & pf1 & Estep & Hj1 & Hj2 & Hl1 & Hd1 & Hp1 & Hperm & Hgr).
      rewrite Estep.
      apply (returns_bind _ _ (fun _ => True)); [exact check_returns |]. intros _ _.
      eapply returns_weaken; [apply (IH X1 Xc1 (i + j) pf1); try done; lia |].
      intros [[[X' Xc'] i'] pf']. intros (Hl' & Hp' & Hperm').
      split; [done |]. split; [done |].
      rewrite Hperm', Hperm. unfold fresh_round at 2. rewrite Hgr. simpl.
      by rewrite <- !app_assoc.
    + apply Nat.ltb_ge in E. apply returns_ret. split; [done |]. split; [lia |].
      rewrite fresh_round_short by (rewrite length_drop; lia). by rewrite app_nil_r.
Qed.

(** The scan with in-place compaction leaves in [X] the rows of the fresh
    output list, in some order. *)
Lemma collide_spec (X : list (list Z)) :
  returns (collide clen emit check X) (fun X' => X' ≡ₚ fresh_round produce clen X).
Proof.
  unfold collide. eapply returns_bind.
  - apply (collide_loop_spec X (length X) X [] 0 0); try done; lia.
  - intros [[[X' Xc'] i'] pf']. intros (Hl & Hp & Hperm).
    apply returns_ret. unfold compact.
    rewrite drop_0 in Hperm. simpl in Hperm.
    destruct (backfill_spec (length X') (length Xc') X' Xc' pf' ltac:(lia) ltac:(lia) ltac:(lia))
      as (X2 & Xc2 & pf2 & E & Hl2 & Hp2 & _ & Hperm2 & Hexit).
    rewrite E. rewrite <- Hperm, <- Hperm2.
    destruct (0 <? length Xc2) eqn:E1.
    + apply Nat.ltb_lt in E1. destruct Hexit as [-> | ->]; [| simpl in E1; lia].
      by rewrite <- Hl2, firstn_all.
    + apply Nat.ltb_ge in E1. destruct Xc2; [| simpl in E1; lia].
      rewrite app_nil_r.
      destruct (pf2 <? length X2) eqn:E2; [done |].
      apply Nat.ltb_ge in E2. by rewrite take_ge by lia.
Qed.

(** The bound [X.size()] on the number of steps of the scan is never
    reached before the loop condition fails: more steps change nothing. *)
Lemma collide_loop_fuel (fuel k : nat) :
  forall (X Xc : list (list Z)) (i posFree : nat) (log : probe_log),
    posFree <= i -> i <= length X -> length X - i <= fuel ->
    collide_loop clen emit check (fuel + k) (X, Xc, i, posFree) log
    = collide_loop clen emit check fuel (X, Xc, i, posFree) log.
Proof.
  induction fuel as [|fuel IH]; intros X Xc i posFree log Hpos Hi Hfuel.
  - destruct k as [|k]; [done |]. cbn [Nat.add collide_loop].
    destruct (i <? length X - 1) eqn:E; [apply Nat.ltb_lt in E; lia | done].
  - cbn [Nat.add collide_loop].
    destruct (i <? length X - 1) eqn:E; [| done]. apply Nat.ltb_lt in E.
    destruct (collide_step_spec X X Xc i posFree eq_refl eq_refl Hpos ltac:(lia))
      as (X1 & Xc1 & j & pf1 & Estep & Hj1 & Hj2 & Hl1 & _ & Hp1 & _).
    rewrite Estep. unfold solver_bind.
    destruct (check log) as [[[] | |] log']; [| done | done].
    apply IH; lia.
Qed.

End Scan.

Lemma basic_emit_produce (hashLen lenIndices : nat) :
  forall X p q Xc,
    basic_emit hashLen lenIndices X p q Xc
    = Xc ++ basic_produce hashLen lenIndices (row_at X p) (row_at X q).
Proof.
  intros X p q Xc. unfold basic_emit, basic_produce.
  destruct (DistinctIndices _ _ _ _); [done | by rewrite app_nil_r].
Qed.

(** The same for the scan of a final round. *)
Lemma final_loop_fuel (hashLen : nat)
    (emit : list (list Z) -> nat -> nat -> list (list Z) -> list (list Z))
    (X : list (list Z)) (fuel k : nat) :
  forall (i : nat) (out : list (list Z)) (log : probe_log),
    i <= length X -> length X - i <= fuel ->
    final_loop hashLen emit (fuel + k) X i out log
    = final_loop hashLen emit fuel X i out log.
Proof.
  induction fuel as [|fuel IH]; intros i out log Hi Hfuel.
  - destruct k as [|k]; [done |]. cbn [Nat.add final_loop].
    destruct (i <? length X - 1) eqn:E; [apply Nat.ltb_lt in E; lia | done].
  - cbn [Nat.add final_loop].
    destruct (i <? length X - 1) eqn:E; [| done]. apply Nat.ltb_lt in E.
    destruct (run_length_bounds X hashLen i ltac:(lia)) as (Hj1 & Hj2 & _).
    unfold solver_bind.
    destruct (throw_if cancelled FinalColliding log) as [[[] | |] log']; [| done | done].
    apply IH; lia.
Qed.

Lemma throw_if_returns (label : EhSolverCancelCheck) :
  (forall log l, cancelled log l = false) ->
  returns (throw_if cancelled label) (fun _ => True).
Proof.
  intros Hnever log. exists tt, (label :: log). unfold throw_if. by rewrite Hnever.
Qed.

Lemma basic_round_refines (X : list (list Z)) (hashLen lenIndices : nat) :
  (forall log l, cancelled log l = false) ->
  returns (basic_round (X, hashLen, lenIndices))
    (fun st => let '(X', hashLen', lenIndices') := st in
       X' ≡ₚ fresh_round (basic_produce hashLen lenIndices) CollisionByteLength
               (std_sort (CompareSR CollisionByteLength) X) /\
       hashLen' = hashLen - CollisionByteLength /\ lenIndices' = lenIndices * 2).
Proof.
  intros Hnever. unfold basic_round.
  apply (returns_bind _ _ (fun _ => True)); [by apply throw_if_returns |]. intros _ _.
  eapply returns_bind.
  - apply (collide_spec CollisionByteLength (basic_emit hashLen lenIndices)
             (basic_produce hashLen lenIndices) (throw_if cancelled ListColliding)).
    + apply basic_emit_produce.
    + by apply throw_if_returns.
  - intros X' HX'. simpl in HX'.
    apply (returns_bind _ _ (fun _ => True)); [by apply throw_if_returns |]. intros _ _.
    apply returns_ret. done.
Qed.

(** C7. One reduction round of BasicSolve (sort, scan, merging into Xc,
    backfill through posFree, overflow append or tail truncation), entered
    with a non-empty list as the loop guard has it, leaves in X exactly the
    admissible merges of the runs of the sorted list, as a multiset: the
    same rows as the fresh output list of the design document. *)
Theorem C7_in_place_compaction (X : list (list Z)) (hashLen lenIndices : nat) :
  (forall log l, cancelled log l = false) ->
  0 < length X ->
  returns (basic_round (X, hashLen, lenIndices))
    (fun st => let '(X', hashLen', lenIndices') := st in
       X' ≡ₚ fresh_round (basic_produce hashLen lenIndices) CollisionByteLength
               (std_sort (CompareSR CollisionByteLength) X) /\
       hashLen' = hashLen - CollisionByteLength /\ lenIndices' = lenIndices * 2).
Proof. intros Hnever _. by apply basic_round_refines. Qed.

(** ** Rows that agree on a prefix *)

Lemma agree_refl (n : nat) (r : list Z) : agree n r r.
Proof. by intros x Hx. Qed.

Lemma agree_sym (n : nat) (r r' : list Z) : agree n r r' -> agree n r' r.
Proof. intros H x Hx. symmetry. by apply H. Qed.

Lemma agree_trans (n : nat) (r1 r2 r3 : list Z) :
  agree n r1 r2 -> agree n r2 r3 -> agree n r1 r3.
Proof. intros H1 H2 x Hx. by rewrite H1, H2. Qed.

Lemma agree_le (n m : nat) (r r' : list Z) : m <= n -> agree n r r' -> agree m r r'.
Proof. intros Hle H x Hx. apply H. lia. Qed.

Lemma HasCollision_agree (n c : nat) (a a' b b' : list Z) :
  agree n a a' -> agree n b b' -> c <= n ->
  HasCollision a b c = HasCollision a' b' c.
Proof.
  intros Ha Hb Hc.
  destruct (HasCollision a b c) eqn:E1, (HasCollision a' b' c) eqn:E2; try done.
  - rewrite HasCollision_spec in E1.
    assert (HasCollision a' b' c = true); [| congruence].
    apply HasCollision_spec. intros x Hx. rewrite <- Ha, <- Hb by lia. by apply E1.
  - rewrite HasCollision_spec in E2.
    assert (HasCollision a b c = true); [| congruence].
    apply HasCollision_spec. intros x Hx. rewrite Ha, Hb by lia. by apply E2.
Qed.

Lemma ArrayToEhIndex_agree (n off : nat) (r r' : list Z) :
  agree n r r' -> off + 4 <= n -> ArrayToEhIndex r off = ArrayToEhIndex r' off.
Proof.
  intros H Hoff. unfold ArrayToEhIndex. by rewrite !H by lia.
Qed.

Lemma GetIndices_agree (n len m : nat) (r r' : list Z) :
  agree n r r' -> len + 4 * m <= n ->
  GetIndices r len (4 * m) = GetIndices r' len (4 * m).
Proof.
  intros H Hn. unfold GetIndices.
  replace ((4 * m + 3) / 4) with m.
  2:{ symmetry. rewrite (Nat.mul_comm 4 m), Nat.div_add_l by lia.
      rewrite (Nat.div_small 3 4) by lia. lia. }
  apply map_ext_in. intros q Hq. apply in_seq in Hq.
  apply (ArrayToEhIndex_agree n); [done | lia].
Qed.

Lemma IndicesBefore_agree (n len lenIndices : nat) (a a' b b' : list Z) :
  agree n a a' -> agree n b b' -> len + 4 <= n ->
  IndicesBefore a b len lenIndices = IndicesBefore a' b' len lenIndices.
Proof.
  intros Ha Hb Hn. unfold IndicesBefore.
  by rewrite (ArrayToEhIndex_agree n len a a'), (ArrayToEhIndex_agree n len b b').
Qed.

Lemma DistinctIndices_agree (n len m : nat) (a a' b b' : list Z) :
  agree n a a' -> agree n b b' -> len + 4 * m <= n ->
  DistinctIndices a b len (4 * m) = DistinctIndices a' b' len (4 * m).
Proof.
  intros Ha Hb Hn. unfold DistinctIndices.
  by rewrite (GetIndices_agree n len m a a'), (GetIndices_agree n len m b b').
Qed.

(** ** The bytes of a merged full row *)

Lemma byte_at_take (h : list Z) (n x : nat) : x < n -> byte_at (take n h) x = byte_at h x.
Proof. intros Hx. unfold byte_at. by rewrite lookup_take_lt. Qed.

Lemma byte_at_app_l (h k : list Z) (x : nat) : x < length h -> byte_at (h ++ k) x = byte_at h x.
Proof. intros Hx. unfold byte_at. by rewrite lookup_app_l. Qed.

Lemma byte_at_app_r (h k : list Z) (x : nat) :
  byte_at (h ++ k) (length h + x) = byte_at k x.
Proof.
  unfold byte_at. rewrite lookup_app_r by lia. by replace (length h + x - length h) with x by lia.
Qed.

Lemma byte_at_history (h : list Z) (len lenIndices x : nat) :
  x < lenIndices -> byte_at (take lenIndices (drop len h)) x = byte_at h (len + x).
Proof. intros Hx. unfold byte_at. by rewrite lookup_take_lt, lookup_drop. Qed.

Lemma merge_bytes (WIDTH : nat) (a b : list Z) (len lenIndices trim : nat) :
  trim <= len -> len - trim + 2 * lenIndices <= WIDTH ->
  len + lenIndices <= length a -> len + lenIndices <= length b ->
  let c := FullStepRow_merge WIDTH a b len lenIndices trim in
  let first := if IndicesBefore a b len lenIndices then a else b in
  let second := if IndicesBefore a b len lenIndices then b else a in
  length c = WIDTH /\
  (forall x, x < len - trim ->
     byte_at c x = Z.lxor (byte_at a (trim + x)) (byte_at b (trim + x))) /\
  (forall x, x < lenIndices -> byte_at c (len - trim + x) = byte_at first (len + x)) /\
  (forall x, x < lenIndices ->
     byte_at c (len - trim + lenIndices + x) = byte_at second (len + x)).
Proof.
  intros Ht Hw Ha Hb c first second.
  assert (Hf : len + lenIndices <= length first) by (unfold first; by destruct (IndicesBefore _ _ _ _)).
  assert (Hs : len + lenIndices <= length second) by (unfold second; by destruct (IndicesBefore _ _ _ _)).
  destruct (merge_layout WIDTH a b first second len lenIndices trim Ht Hw Hf Hs) as [Hl Hlay].
  assert (Hc : c = std_copy second len (len + lenIndices) (len - trim + lenIndices)
                     (std_copy first len (len + lenIndices) (len - trim)
                        (xor_loop a b trim len (StepRow_copy WIDTH a)))).
  { unfold c, first, second, FullStepRow_merge. by destruct (IndicesBefore _ _ _ _). }
  rewrite <- Hc in Hl, Hlay.
  assert (Hxs : length (xor_bytes a b trim (len - trim)) = len - trim) by apply xor_bytes_length.
  assert (Hh1 : length (take lenIndices (drop len first)) = lenIndices)
    by (rewrite length_take, length_drop; lia).
  split; [done |]. split; [| split].
  - intros x Hx. rewrite <- (byte_at_take c (len - trim + 2 * lenIndices)) by lia.
    rewrite Hlay, byte_at_app_l by lia.
    apply byte_at_lookup. by apply xor_bytes_lookup.
  - intros x Hx. rewrite <- (byte_at_take c (len - trim + 2 * lenIndices)) by lia.
    rewrite Hlay.
    replace (len - trim + x) with (length (xor_bytes a b trim (len - trim)) + x) by lia.
    rewrite byte_at_app_r.
    rewrite byte_at_app_l by lia. by apply byte_at_history.
  - intros x Hx. rewrite <- (byte_at_take c (len - trim + 2 * lenIndices)) by lia.
    rewrite Hlay.
    replace (len - trim + lenIndices + x)
      with (length (xor_bytes a b trim (len - trim))
            + (length (take lenIndices (drop len first)) + x)) by lia.
    rewrite !byte_at_app_r. by apply byte_at_history.
Qed.

Lemma ArrayToEhIndex_moved (c r : list Z) (o o' : nat) :
  (forall x, x < 4 -> byte_at c (o + x) = byte_at r (o' + x)) ->
  ArrayToEhIndex c o = ArrayToEhIndex r o'.
Proof.
  intros H. unfold ArrayToEhIndex.
  rewrite <- (Nat.add_0_r o) at 1. rewrite <- (Nat.add_0_r o') at 1.
  by rewrite !H by lia.
Qed.

Lemma seq_split (m n : nat) : seq 0 (m + n) = seq 0 m ++ seq m n.
Proof. by rewrite seq_app. Qed.

Lemma GetIndices_merge (WIDTH : nat) (a b : list Z) (len m trim : nat) :
  trim <= len -> len - trim + 2 * (4 * m) <= WIDTH ->
  len + 4 * m <= length a -> len + 4 * m <= length b ->
  let c := FullStepRow_merge WIDTH a b len (4 * m) trim in
  let first := if IndicesBefore a b len (4 * m) then a else b in
  let second := if IndicesBefore a b len (4 * m) then b else a in
  GetIndices c (len - trim) (4 * (2 * m))
  = GetIndices first len (4 * m) ++ GetIndices second len (4 * m).
Proof.
  intros Ht Hw Ha Hb c first second.
  destruct (merge_bytes WIDTH a b len (4 * m) trim Ht Hw Ha Hb) as (_ & _ & H1 & H2).
  fold c first second in H1, H2.
  assert (Hdiv : forall k, (4 * k + 3) / 4 = k).
  { intros k. rewrite (Nat.mul_comm 4 k), Nat.div_add_l by lia.
    rewrite (Nat.div_small 3 4) by lia. lia. }
  unfold GetIndices. rewrite !Hdiv.
  replace (2 * m) with (m + m) by lia. rewrite seq_split, map_app. f_equal.
  - apply map_ext_in. intros q Hq. apply in_seq in Hq.
    apply ArrayToEhIndex_moved. intros x Hx.
    rewrite <- !Nat.add_assoc. apply H1. lia.
  - assert (Hseq : seq m m = map (Nat.add m) (seq 0 m)).
    { change (map (Nat.add m) (seq 0 m)) with (Nat.add m <$> seq 0 m).
      rewrite fmap_add_seq. f_equal. lia. }
    rewrite Hseq, map_map. apply map_ext_in. intros q Hq. apply in_seq in Hq.
    apply ArrayToEhIndex_moved. intros x Hx.
    replace (len - trim + 4 * (m + q) + x) with (len - trim + 4 * m + (4 * q + x)) by lia.
    replace (len + 4 * q + x) with (len + (4 * q + x)) by lia.
    apply H2. lia.
Qed.

(** ** One level of the verifier on a concatenation *)

Section Pass.

Variables hashLen lenIndices : nat.

Lemma verify_pairs_acc (X : list (list Z)) (n : nat) :
  forall i Xc,
    verify_pairs X hashLen lenIndices n i Xc
    = match verify_pairs X hashLen lenIndices n i [] with
      | Value (Some R) => Value (Some (Xc ++ R))
      | other => other
      end.
Proof.
  induction n as [|n IH]; intros i Xc; simpl.
  - by rewrite app_nil_r.
  - destruct (X !! i) as [Xi|]; [| done].
    destruct (X !! (i + 1)) as [Xi1|]; [| done].
    destruct (negb (HasCollision Xi Xi1 CollisionByteLength)); [done |].
    destruct (IndicesBefore Xi1 Xi hashLen lenIndices); [done |].
    destruct (negb (DistinctIndices Xi Xi1 hashLen lenIndices)); [done |].
    rewrite (IH (i + 2) (Xc ++ _)), (IH (i + 2) [_]).
    destruct (verify_pairs X hashLen lenIndices n (i + 2) []) as [[R|]| | |]; try done.
    by rewrite <- app_assoc.
Qed.

Lemma verify_pairs_app_l (X Y : list (list Z)) (n : nat) :
  forall i Xc, i + 2 * n <= length X ->
    verify_pairs (X ++ Y) hashLen lenIndices n i Xc
    = verify_pairs X hashLen lenIndices n i Xc.
Proof.
  induction n as [|n IH]; intros i Xc Hi; simpl; [done |].
  rewrite !lookup_app_l by lia.
  destruct (X !! i) as [Xi|]; [| done].
  destruct (X !! (i + 1)) as [Xi1|]; [| done].
  destruct (negb (HasCollision Xi Xi1 CollisionByteLength)); [done |].
  destruct (IndicesBefore Xi1 Xi hashLen lenIndices); [done |].
  destruct (negb (DistinctIndices Xi Xi1 hashLen lenIndices)); [done |].
  apply IH. lia.
Qed.

Lemma verify_pairs_app_r (X Y : list (list Z)) (n : nat) :
  forall i Xc,
    verify_pairs (X ++ Y) hashLen lenIndices n (length X + i) Xc
    = verify_pairs Y hashLen lenIndices n i Xc.
Proof.
  induction n as [|n IH]; intros i Xc; simpl; [done |].
  rewrite !lookup_app_r by lia.
  replace (length X + i - length X) with i by lia.
  replace (length X + i + 1 - length X) with (i + 1) by lia.
  destruct (Y !! i) as [Xi|]; [| done].
  destruct (Y !! (i + 1)) as [Xi1|]; [| done].
  destruct (negb (HasCollision Xi Xi1 CollisionByteLength)); [done |].
  destruct (IndicesBefore Xi1 Xi hashLen lenIndices); [done |].
  destruct (negb (DistinctIndices Xi Xi1 hashLen lenIndices)); [done |].
  replace (length X + i + 2) with (length X + (i + 2)) by lia. apply IH.
Qed.

Lemma verify_pairs_split (X : list (list Z)) (n1 n2 : nat) :
  forall i Xc,
    verify_pairs X hashLen lenIndices (n1 + n2) i Xc
    = match verify_pairs X hashLen lenIndices n1 i Xc with
      | Value (Some Xc1) => verify_pairs X hashLen lenIndices n2 (i + 2 * n1) Xc1
      | other => other
      end.
Proof.
  induction n1 as [|n1 IH]; intros i Xc; simpl.
  - by rewrite Nat.add_0_r.
  - destruct (X !! i) as [Xi|]; [| done].
    destruct (X !! (i + 1)) as [Xi1|]; [| done].
    destruct (negb (HasCollision Xi Xi1 CollisionByteLength)); [done |].
    destruct (IndicesBefore Xi1 Xi hashLen lenIndices); [done |].
    destruct (negb (DistinctIndices Xi Xi1 hashLen lenIndices)); [done |].
    rewrite IH.
    by replace (i + 2 + 2 * n1) with (i + S (n1 + S (n1 + 0))) by lia.
Qed.

Lemma half_even (n : nat) : (2 * n + 1) / 2 = n.
Proof.
  rewrite (Nat.mul_comm 2 n), Nat.add_comm, Nat.div_add by lia.
  by rewrite Nat.div_small by lia.
Qed.

Lemma verify_level_app (X Y X' Y' : list (list Z)) (nX nY : nat) st1 st2 :
  length X = 2 * nX -> length Y = 2 * nY ->
  verify_level (X, hashLen, lenIndices) = Value (Some st1) -> st1.1.1 = X' ->
  verify_level (Y, hashLen, lenIndices) = Value (Some st2) -> st2.1.1 = Y' ->
  verify_level (X ++ Y, hashLen, lenIndices)
  = Value (Some (X' ++ Y', hashLen - CollisionByteLength, lenIndices * 2)).
Proof.
  intros HX HY. unfold verify_level.
  rewrite length_app, HX, HY.
  replace (2 * nX + 2 * nY + 1) with (2 * (nX + nY) + 1) by lia.
  rewrite !half_even.
  rewrite verify_pairs_split, verify_pairs_app_l by lia.
  destruct (verify_pairs X hashLen lenIndices nX 0 []) as [[R1|]| | |] eqn:E1; try done.
  intros [= <-] <-. cbn [fst snd].
  replace (0 + 2 * nX) with (length X + 0) by lia. rewrite verify_pairs_app_r.
  rewrite (verify_pairs_acc Y nY 0 R1).
  destruct (verify_pairs Y hashLen lenIndices nY 0 []) as [[R2|]| | |] eqn:E2; try done.
  intros [= <-] <-. done.
Qed.

End Pass.

Lemma passes_state (r : nat) :
  forall X hl li X' hl' li',
    passes r (X, hl, li) = Value (Some (X', hl', li')) ->
    hl' = hl - r * CollisionByteLength /\ li' = li * 2 ^ r.
Proof.
  induction r as [|r IH]; intros X hl li X' hl' li'; cbn [passes].
  - intros [= <- <- <-]. simpl. lia.
  - unfold verify_level.
    destruct (verify_pairs X hl li ((length X + 1) / 2) 0 []) as [[Xc|]| | |]; try done.
    intros H. apply IH in H as [-> ->]. simpl. lia.
Qed.

Lemma passes_app (r : nat) :
  forall X Y hl li st1 st2,
    length X = 2 ^ r -> length Y = 2 ^ r ->
    passes r (X, hl, li) = Value (Some st1) ->
    passes r (Y, hl, li) = Value (Some st2) ->
    passes r (X ++ Y, hl, li) = Value (Some (st1.1.1 ++ st2.1.1, st1.1.2, st1.2)).
Proof.
  induction r as [|r IH]; intros X Y hl li st1 st2 HX HY; cbn [passes].
  - by intros [= <-] [= <-].
  - destruct (verify_level_pow2 X hl li r HX) as [E1 | (X1 & E1 & HX1)]; rewrite E1; [done |].
    destruct (verify_level_pow2 Y hl li r HY) as [E2 | (Y1 & E2 & HY1)]; rewrite E2; [done |].
    intros H1 H2.
    rewrite (verify_level_app hl li X Y X1 Y1 (2 ^ r) (2 ^ r) _ _
               ltac:(simpl in HX; lia) ltac:(simpl in HY; lia) E1 eq_refl E2 eq_refl).
    by apply IH.
Qed.

Lemma passes_verify_levels (r : nat) :
  forall X hl li st' fuel,
    length X = 2 ^ r -> r < fuel ->
    passes r (X, hl, li) = Value (Some st') ->
    verify_levels fuel (X, hl, li) = Value (Some st').
Proof.
  induction r as [|r IH]; intros X hl li st' fuel HX Hfuel;
    (destruct fuel as [|fuel]; [lia |]); cbn [passes verify_levels].
  - rewrite HX. simpl. done.
  - pose proof (pow2_pos r).
    destruct (1 <? length X) eqn:E; [| apply Nat.ltb_ge in E; simpl in HX; lia].
    destruct (verify_level_pow2 X hl li r HX) as [E1 | (X1 & E1 & HX1)]; rewrite E1; [done |].
    apply IH; [done | lia].
Qed.

(** ** Leaf rows *)

Lemma byte_bit (i k m : Z) :
  (0 <= k)%Z -> (0 <= m)%Z ->
  Z.testbit (Z.land (Z.shiftr i k) 255) m = Z.testbit i (m + k) && (m <? 8)%Z.
Proof.
  intros Hk Hm. rewrite Z.land_spec, Z.shiftr_spec by lia.
  change 255%Z with (Z.ones 8).
  destruct (Z.ltb_spec m 8).
  - by rewrite Z.ones_spec_low by lia.
  - by rewrite Z.ones_spec_high by lia.
Qed.

Lemma shifted_byte_bit (i k n : Z) :
  (0 <= k)%Z -> (0 <= n)%Z ->
  Z.testbit (Z.shiftl (Z.land (Z.shiftr i k) 255) k) n
  = Z.testbit i n && ((k <=? n)%Z && (n <? k + 8)%Z).
Proof.
  intros Hk Hn. rewrite Z.shiftl_spec by lia.
  destruct (Z.leb_spec k n).
  - rewrite byte_bit by lia. replace (n - k + k)%Z with n by lia.
    f_equal. simpl. destruct (Z.ltb_spec (n - k) 8), (Z.ltb_spec n (k + 8)); try done; lia.
  - rewrite Z.testbit_neg_r by lia. by rewrite andb_false_r.
Qed.

Lemma be32_roundtrip (i : Z) :
  (0 <= i < 2 ^ 32)%Z ->
  Z.lor (Z.shiftl (Z.land (Z.shiftr i 24) 255) 24)
    (Z.lor (Z.shiftl (Z.land (Z.shiftr i 16) 255) 16)
       (Z.lor (Z.shiftl (Z.land (Z.shiftr i 8) 255) 8) (Z.land i 255))) = i.
Proof.
  intros Hi. apply Z.bits_inj'. intros n Hn.
  rewrite !Z.lor_spec, !shifted_byte_bit by lia.
  rewrite <- (Z.shiftr_0_r i) at 4. rewrite byte_bit by lia. rewrite Z.add_0_r.
  destruct (Z.ltb_spec n 32).
  - destruct (Z.testbit i n); [| done]. simpl.
    destruct (Z.leb_spec 24 n), (Z.ltb_spec n (24 + 8)), (Z.leb_spec 16 n),
      (Z.ltb_spec n (16 + 8)), (Z.leb_spec 8 n), (Z.ltb_spec n (8 + 8)), (Z.ltb_spec n 8);
      simpl; try done; lia.
  - assert (Z.testbit i n = false) as ->; [| done].
    destruct (decide (i = 0%Z)) as [-> | Hne]; [apply Z.bits_0 |].
    apply Z.bits_above_log2; [lia |].
    assert (Z.log2 i < 32)%Z by (apply Z.log2_lt_pow2; lia). lia.
Qed.

Lemma ArrayToEhIndex_EhIndexToArray (r : list Z) (off : nat) (i : Z) :
  (0 <= i < 2 ^ 32)%Z ->
  (forall x, x < 4 -> byte_at r (off + x) = byte_at (EhIndexToArray i) x) ->
  ArrayToEhIndex r off = i.
Proof.
  intros Hi H. unfold ArrayToEhIndex.
  rewrite <- (Nat.add_0_r off) at 1. rewrite !H by lia.
  by apply be32_roundtrip.
Qed.

Lemma fold_store_length (g : nat -> nat) (f : Z -> Z) (l : list nat) :
  forall h, length (foldl (fun hash i => <[g i := f (byte_at hash (g i))]> hash) h l) = length h.
Proof.
  induction l as [|j l IH]; intros h; simpl; [done |]. by rewrite IH, length_insert.
Qed.

Lemma fold_store_take (g : nat -> nat) (f : Z -> Z) (l : list nat) :
  forall h n,
    take n (foldl (fun hash i => <[g i := f (byte_at hash (g i))]> hash) h l)
    = foldl (fun hash i => <[g i := f (byte_at hash (g i))]> hash) (take n h) l.
Proof.
  induction l as [|j l IH]; intros h n; simpl; [done |].
  rewrite IH. f_equal.
  destruct (decide (g j < n)) as [Hlt | Hge].
  - rewrite take_insert_lt by done. by rewrite byte_at_take.
  - rewrite take_insert_ge by lia.
    rewrite list_insert_ge; [done |]. rewrite length_take. lia.
Qed.

Section Leaves.

Variable base_state : eh_HashState.

Lemma StepRow_new_length (WIDTH : nat) (i : Z) :
  length (StepRow_new WIDTH N K base_state i) = WIDTH.
Proof.
  unfold StepRow_new. cbv zeta.
  rewrite (fold_store_length (fun j => j * _) (fun b => Z.land b _)).
  by rewrite length_inserts, length_replicate.
Qed.

Lemma StepRow_new_take (WIDTH : nat) (i : Z) :
  ExpandedHashLength <= WIDTH ->
  take ExpandedHashLength (StepRow_new WIDTH N K base_state i)
  = StepRow_new ExpandedHashLength N K base_state i.
Proof.
  intros HW. unfold StepRow_new. cbv zeta.
  change ((K + 1) * ((N / (K + 1) + 7) / 8)) with ExpandedHashLength.
  set (out := take ExpandedHashLength
                (blake2b_final (blake2b_update base_state (le32 i)) ExpandedHashLength)).
  assert (Hout : length out <= ExpandedHashLength) by (unfold out; rewrite length_take; lia).
  rewrite (fold_store_take (fun j => j * _) (fun b => Z.land b _)). f_equal.
  rewrite !list_inserts_middle by (rewrite length_replicate; lia).
  rewrite !take_0, !app_nil_l. simpl.
  rewrite !drop_replicate, take_app_ge by done.
  rewrite take_replicate. f_equal. f_equal. lia.
Qed.

Lemma StepRow_new_agree (W W' : nat) (i : Z) :
  ExpandedHashLength <= W -> ExpandedHashLength <= W' ->
  agree ExpandedHashLength (StepRow_new W N K base_state i) (StepRow_new W' N K base_state i).
Proof.
  intros HW HW' x Hx.
  rewrite <- (byte_at_take _ ExpandedHashLength) by done.
  rewrite <- (byte_at_take (StepRow_new W' N K base_state i) ExpandedHashLength) by done.
  by rewrite !StepRow_new_take.
Qed.

Lemma FullStepRow_new_spec (WIDTH : nat) (i : Z) :
  ExpandedHashLength + 4 <= WIDTH ->
  length (FullStepRow_new WIDTH N K base_state i) = WIDTH /\
  agree ExpandedHashLength (FullStepRow_new WIDTH N K base_state i)
    (StepRow_new WIDTH N K base_state i) /\
  (forall x, x < 4 ->
     byte_at (FullStepRow_new WIDTH N K base_state i) (ExpandedHashLength + x)
     = byte_at (EhIndexToArray i) x).
Proof.
  intros HW. unfold FullStepRow_new. cbv zeta.
  change ((K + 1) * ((N / (K + 1) + 7) / 8)) with ExpandedHashLength.
  pose proof (StepRow_new_length WIDTH i) as Hl.
  split; [by rewrite length_inserts |].
  rewrite list_inserts_middle by (rewrite Hl; simpl; lia).
  split.
  - intros x Hx. rewrite byte_at_app_l by (rewrite length_take; lia).
    by apply byte_at_take.
  - intros x Hx.
    assert (Ht : length (take ExpandedHashLength (StepRow_new WIDTH N K base_state i))
                 = ExpandedHashLength) by (rewrite length_take; lia).
    replace (ExpandedHashLength + x)
      with (length (take ExpandedHashLength (StepRow_new WIDTH N K base_state i)) + x) by lia.
    rewrite byte_at_app_r. by rewrite byte_at_app_l by (simpl; lia).
Qed.

Lemma FullStepRow_new_agree (W W' : nat) (i : Z) :
  ExpandedHashLength + 4 <= W -> ExpandedHashLength + 4 <= W' ->
  agree (ExpandedHashLength + 4)
    (FullStepRow_new W N K base_state i) (FullStepRow_new W' N K base_state i).
Proof.
  intros HW HW'.
  destruct (FullStepRow_new_spec W i HW) as (_ & H1 & H2).
  destruct (FullStepRow_new_spec W' i HW') as (_ & H1' & H2').
  intros x Hx. destruct (decide (x < ExpandedHashLength)) as [Hlt | Hge].
  - rewrite H1, H1' by done. apply StepRow_new_agree; lia.
  - replace x with (ExpandedHashLength + (x - ExpandedHashLength)) by lia.
    rewrite H2, H2' by lia. done.
Qed.

Lemma GetIndices_leaf (WIDTH : nat) (i : Z) :
  ExpandedHashLength + 4 <= WIDTH -> (0 <= i < 2 ^ 32)%Z ->
  GetIndices (FullStepRow_new WIDTH N K base_state i) ExpandedHashLength 4 = [i].
Proof.
  intros HW Hi. destruct (FullStepRow_new_spec WIDTH i HW) as (_ & _ & H2).
  unfold GetIndices. simpl. f_equal. rewrite Nat.add_0_r.
  by apply ArrayToEhIndex_EhIndexToArray.
Qed.

End Leaves.

(** ** Distinctness is symmetric *)

Lemma Sorted_le_NoDup_increasing (l : list Z) :
  Sorted Z.le l -> NoDup l -> strictly_increasing l = true.
Proof.
  induction 1 as [|x l Hs IH Hhd]; [done |].
  intros Hnd. apply NoDup_cons in Hnd as [Hx Hnd].
  destruct l as [|y l]; [done |].
  change (strictly_increasing (x :: y :: l))
    with ((x <? y)%Z && strictly_increasing (y :: l)).
  rewrite IH by done. rewrite andb_true_r.
  apply Z.ltb_lt. inversion Hhd as [|? ? Hle]; subst.
  assert (x <> y) by (intros ->; apply Hx; left). lia.
Qed.

Lemma DistinctIndices_iff (a b : list Z) (len lenIndices : nat) :
  DistinctIndices a b len lenIndices = true <->
  NoDup (GetIndices a len lenIndices ++ GetIndices b len lenIndices).
Proof.
  split; [apply DistinctIndices_NoDup |].
  intros H. unfold DistinctIndices. apply Sorted_le_NoDup_increasing.
  - apply Sorted_merge_sort. intros x y. lia.
  - by rewrite merge_sort_Permutation.
Qed.

Lemma DistinctIndices_sym (a b : list Z) (len lenIndices : nat) :
  DistinctIndices a b len lenIndices = true -> DistinctIndices b a len lenIndices = true.
Proof.
  rewrite !DistinctIndices_iff. intros H.
  by rewrite (Permutation_app_comm (GetIndices b len lenIndices)).
Qed.

Lemma passes_S (r : nat) st :
  passes (S r) st
  = match verify_level st with
    | Value (Some st') => passes r st'
    | other => other
    end.
Proof. done. Qed.

Lemma passes_snoc (r : nat) :
  forall st,
    passes (S r) st
    = match passes r st with
      | Value (Some st') => verify_level st'
      | other => other
      end.
Proof.
  induction r as [|r IH]; intros st.
  - cbn [passes]. by destruct (verify_level st) as [[?|]| | |].
  - rewrite (passes_S (S r)), (passes_S r).
    destruct (verify_level st) as [[st'|]| | |]; done.
Qed.

(** ** The lengths after [r] rounds *)

Lemma hashLen_at_mul (r : nat) :
  r <= K + 1 -> hashLen_at r = (K + 1 - r) * CollisionByteLength.
Proof.
  intros Hr. unfold hashLen_at, ExpandedHashLength. by rewrite Nat.mul_sub_distr_r.
Qed.

Lemma hashLen_at_S (r : nat) :
  r <= K -> hashLen_at r = hashLen_at (S r) + CollisionByteLength.
Proof.
  intros Hr. rewrite !hashLen_at_mul by lia.
  replace (K + 1 - r) with (S (K + 1 - S r)) by lia. simpl. lia.
Qed.

Lemma hashLen_at_0 : hashLen_at 0 = ExpandedHashLength.
Proof. unfold hashLen_at. simpl. lia. Qed.

Lemma hashLen_at_K : hashLen_at K = CollisionByteLength.
Proof. rewrite hashLen_at_mul by lia. replace (K + 1 - K) with 1 by lia. simpl. lia. Qed.

Lemma lenIndices_at_S (r : nat) : lenIndices_at (S r) = 4 * (2 * 2 ^ r).
Proof. done. Qed.

Lemma lenIndices_at_ge (r : nat) : 4 <= lenIndices_at r.
Proof. unfold lenIndices_at. pose proof (pow2_pos r). lia. Qed.

(** ** Every row of BasicSolve is the top of an accepted subtree *)

Section Soundness.

Variable base_state : eh_HashState.

(** The parameters are admissible: at least one round, shift counts below
    the word size, and rows wide enough for every row that the solver and
    the verifier build (the widths of crypto/equihash.h are). *)
Hypothesis K_pos : 1 <= K.
Hypothesis K_small : K < 32.
Hypothesis index_bits : CollisionBitLength + 1 < 32.
Hypothesis FullWidth_fits :
  forall r, r < K -> hashLen_at r + lenIndices_at r <= FullWidth.
Hypothesis FinalFullWidth_fits :
  forall r, r < K -> hashLen_at r + lenIndices_at r <= FinalFullWidth.
Hypothesis FinalFullWidth_final :
  hashLen_at (K - 1) + lenIndices_at K <= FinalFullWidth.

(** [std::sort] returns a permutation of its input. *)
Hypothesis std_sort_permutation : forall cmp X, std_sort cmp X ≡ₚ X.

(** The probe never asks to stop. *)
Hypothesis never_cancelled : forall log label, cancelled log label = false.

Lemma FinalFullWidth_fits_all (r : nat) :
  r <= K -> hashLen_at r + lenIndices_at r <= FinalFullWidth.
Proof.
  intros Hr. destruct (decide (r < K)) as [Hlt | Hge]; [by apply FinalFullWidth_fits |].
  assert (r = K) as -> by lia.
  pose proof (hashLen_at_S (K - 1) ltac:(lia)) as H.
  replace (S (K - 1)) with K in H by lia. lia.
Qed.

Lemma subtree_row_agree (r : nat) (x y : list Z) :
  subtree_row base_state r x ->
  agree (hashLen_at r + lenIndices_at r) y x ->
  hashLen_at r + lenIndices_at r <= length y ->
  subtree_row base_state r y.
Proof.
  intros (s & v & Hs & Hp & Hlv & Hl & Hag & Hg) Hyx Hly.
  exists s, v. repeat split; try done. by apply (agree_trans _ y x v).
Qed.

Lemma verify_level_pair (va vb : list Z) (hl li : nat) :
  HasCollision va vb CollisionByteLength = true ->
  IndicesBefore vb va hl li = false ->
  DistinctIndices va vb hl li = true ->
  verify_level ([va; vb], hl, li)
  = Value (Some ([FullStepRow_merge FinalFullWidth va vb hl li CollisionByteLength],
                 hl - CollisionByteLength, li * 2)).
Proof.
  intros H1 H2 H3. unfold verify_level. simpl. by rewrite H1, H2, H3.
Qed.

Lemma subtree_merge_ordered (WIDTH r : nat) (a b : list Z) :
  r < K ->
  subtree_row base_state r a -> subtree_row base_state r b ->
  HasCollision a b CollisionByteLength = true ->
  DistinctIndices a b (hashLen_at r) (lenIndices_at r) = true ->
  IndicesBefore a b (hashLen_at r) (lenIndices_at r) = true ->
  hashLen_at (S r) + lenIndices_at (S r) <= WIDTH ->
  subtree_row base_state (S r)
    (FullStepRow_merge WIDTH a b (hashLen_at r) (lenIndices_at r) CollisionByteLength).
Proof.
  intros Hr (sa & va & Hsa & Hpa & Hlva & Hla & Haga & Hga)
            (sb & vb & Hsb & Hpb & Hlvb & Hlb & Hagb & Hgb) Hcol Hdis Hbef HW.
  pose proof (FinalFullWidth_fits r Hr) as Hfit.
  pose proof (FinalFullWidth_fits_all (S r) ltac:(lia)) as Hfit'.
  pose proof (hashLen_at_S r ltac:(lia)) as Hhl.
  pose proof (lenIndices_at_ge r) as Hli4.
  unfold lenIndices_at in *. change (2 ^ S r) with (2 * 2 ^ r) in *.
  set (hl := hashLen_at r) in *. set (m := 2 ^ r) in *.
  assert (Hcolv : HasCollision va vb CollisionByteLength = true).
  { by rewrite <- (HasCollision_agree (hl + 4 * m) _ a va b vb) by (done || lia). }
  assert (Hbefv : IndicesBefore va vb hl (4 * m) = true).
  { by rewrite <- (IndicesBefore_agree (hl + 4 * m) _ _ a va b vb) by (done || lia). }
  assert (Hdisv : DistinctIndices va vb hl (4 * m) = true).
  { by rewrite <- (DistinctIndices_agree (hl + 4 * m) _ _ a va b vb) by (done || lia). }
  assert (Hnot : IndicesBefore vb va hl (4 * m) = false).
  { unfold IndicesBefore in *. apply Z.ltb_lt in Hbefv. apply Z.ltb_ge. lia. }
  assert (Hc : CollisionByteLength <= hl) by lia.
  assert (HW1 : hl - CollisionByteLength + 2 * (4 * m) <= WIDTH) by lia.
  assert (HW2 : hl - CollisionByteLength + 2 * (4 * m) <= FinalFullWidth) by lia.
  destruct (merge_bytes WIDTH a b hl (4 * m) CollisionByteLength
              ltac:(lia) ltac:(lia) ltac:(lia) ltac:(lia)) as (Hlen & Hx & Hi1 & Hi2).
  destruct (merge_bytes FinalFullWidth va vb hl (4 * m) CollisionByteLength
              ltac:(lia) ltac:(lia) ltac:(lia) ltac:(lia)) as (Hlenv & Hxv & Hi1v & Hi2v).
  rewrite Hbef in Hi1, Hi2. rewrite Hbefv in Hi1v, Hi2v.
  exists (sa ++ sb), (FullStepRow_merge FinalFullWidth va vb hl (4 * m) CollisionByteLength).
  unfold lenIndices_at. change (2 ^ S r) with (2 * m).
  split; [rewrite length_app, Hsa, Hsb; lia |].
  split.
  { rewrite passes_snoc, map_app.
    assert (Hma : length (map (FullStepRow_new FinalFullWidth N K base_state) sa) = 2 ^ r)
      by (by rewrite length_map).
    assert (Hmb : length (map (FullStepRow_new FinalFullWidth N K base_state) sb) = 2 ^ r)
      by (by rewrite length_map).
    rewrite (passes_app r _ _ _ _ _ _ Hma Hmb Hpa Hpb).
    cbn [fst snd app]. rewrite (verify_level_pair va vb hl (4 * m) Hcolv Hnot Hdisv).
    replace (hl - CollisionByteLength) with (hashLen_at (S r)) by lia.
    replace (4 * m * 2) with (4 * (2 * m)) by lia.
    done. }
  split; [done |].
  split; [rewrite Hlen; lia |].
  split.
  { intros x Hxlt.
    destruct (decide (x < hl - CollisionByteLength)) as [H1 | H1].
    - rewrite Hx, Hxv by done. by rewrite Haga, Hagb by lia.
    - destruct (decide (x < hl - CollisionByteLength + 4 * m)) as [H2 | H2].
      + replace x with (hl - CollisionByteLength + (x - (hl - CollisionByteLength))) by lia.
        rewrite Hi1, Hi1v by lia. apply Haga. lia.
      + replace x with (hl - CollisionByteLength + 4 * m
                        + (x - (hl - CollisionByteLength + 4 * m))) by lia.
        rewrite Hi2, Hi2v by lia. apply Hagb. lia. }
  replace (hashLen_at (S r)) with (hl - CollisionByteLength) by lia.
  rewrite (GetIndices_merge FinalFullWidth va vb hl m CollisionByteLength) by lia.
  by rewrite Hbefv, Hga, Hgb.
Qed.

Lemma merge_swap_agree (WIDTH : nat) (a b : list Z) (len m : nat) :
  CollisionByteLength <= len ->
  len - CollisionByteLength + 2 * (4 * m) <= WIDTH ->
  len + 4 * m <= length a -> len + 4 * m <= length b ->
  IndicesBefore a b len (4 * m) = false ->
  IndicesBefore b a len (4 * m) = true ->
  agree (len - CollisionByteLength + 2 * (4 * m))
    (FullStepRow_merge WIDTH a b len (4 * m) CollisionByteLength)
    (FullStepRow_merge WIDTH b a len (4 * m) CollisionByteLength).
Proof.
  intros Hc HW Ha Hb Hab Hba.
  destruct (merge_bytes WIDTH a b len (4 * m) CollisionByteLength Hc HW Ha Hb)
    as (_ & Hx & Hi1 & Hi2).
  destruct (merge_bytes WIDTH b a len (4 * m) CollisionByteLength Hc HW Hb Ha)
    as (_ & Hx' & Hi1' & Hi2').
  rewrite Hab in Hi1, Hi2. rewrite Hba in Hi1', Hi2'.
  intros x Hxlt.
  destruct (decide (x < len - CollisionByteLength)) as [H1 | H1].
  - rewrite Hx, Hx' by done. apply Z.lxor_comm.
  - destruct (decide (x < len - CollisionByteLength + 4 * m)) as [H2 | H2].
    + replace x with (len - CollisionByteLength + (x - (len - CollisionByteLength))) by lia.
      by rewrite Hi1, Hi1' by lia.
    + replace x with (len - CollisionByteLength + 4 * m
                      + (x - (len - CollisionByteLength + 4 * m))) by lia.
      by rewrite Hi2, Hi2' by lia.
Qed.

Lemma subtree_row_length (r : nat) (a : list Z) :
  subtree_row base_state r a -> hashLen_at r + lenIndices_at r <= length a.
Proof. by intros (s & v & _ & _ & _ & Hl & _). Qed.

(** The merge of two colliding subtree tops with distinct indices is the
    top of a subtree one level up, whichever operand comes first. *)
Lemma subtree_merge (WIDTH r : nat) (a b : list Z) :
  r < K ->
  subtree_row base_state r a -> subtree_row base_state r b ->
  HasCollision a b CollisionByteLength = true ->
  DistinctIndices a b (hashLen_at r) (lenIndices_at r) = true ->
  hashLen_at (S r) + lenIndices_at (S r) <= WIDTH ->
  subtree_row base_state (S r)
    (FullStepRow_merge WIDTH a b (hashLen_at r) (lenIndices_at r) CollisionByteLength).
Proof.
  intros Hr Ha Hb Hcol Hdis HW.
  destruct (IndicesBefore a b (hashLen_at r) (lenIndices_at r)) eqn:Hbef.
  - by apply subtree_merge_ordered.
  - pose proof (lenIndices_at_ge r) as Hli4.
    pose proof (DistinctIndices_leftmost a b (hashLen_at r) (lenIndices_at r)
                  ltac:(lia) Hdis) as Hne.
    assert (Hba : IndicesBefore b a (hashLen_at r) (lenIndices_at r) = true).
    { unfold IndicesBefore in *. apply Z.ltb_ge in Hbef. apply Z.ltb_lt. lia. }
    pose proof (subtree_row_length r a Ha) as Hla.
    pose proof (subtree_row_length r b Hb) as Hlb.
    pose proof (hashLen_at_S r ltac:(lia)) as Hhl.
    assert (Hswap : subtree_row base_state (S r)
              (FullStepRow_merge WIDTH b a (hashLen_at r) (lenIndices_at r) CollisionByteLength)).
    { apply subtree_merge_ordered; try done.
      - by apply HasCollision_sym.
      - by apply DistinctIndices_sym. }
    apply (subtree_row_agree _ _ _ Hswap).
    + rewrite lenIndices_at_S in *. unfold lenIndices_at in *.
      replace (hashLen_at (S r)) with (hashLen_at r - CollisionByteLength) by lia.
      replace (4 * (2 * 2 ^ r)) with (2 * (4 * 2 ^ r)) by lia.
      apply merge_swap_agree; try done; lia.
    + rewrite lenIndices_at_S in *. unfold lenIndices_at in *.
      destruct (merge_bytes WIDTH a b (hashLen_at r) (4 * 2 ^ r) CollisionByteLength
                  ltac:(lia) ltac:(lia) ltac:(lia) ltac:(lia)) as (Hlen & _).
      rewrite Hlen. lia.
Qed.

Lemma subtree_leaf (WIDTH : nat) (i : Z) :
  ExpandedHashLength + 4 <= WIDTH -> (0 <= i < 2 ^ 32)%Z ->
  subtree_row base_state 0 (FullStepRow_new WIDTH N K base_state i).
Proof.
  intros HW Hi.
  pose proof (FinalFullWidth_fits_all 0 ltac:(lia)) as Hfit.
  rewrite hashLen_at_0 in Hfit. change (lenIndices_at 0) with 4 in Hfit.
  exists [i], (FullStepRow_new FinalFullWidth N K base_state i).
  rewrite hashLen_at_0. change (lenIndices_at 0) with 4.
  destruct (FullStepRow_new_spec base_state WIDTH i HW) as (Hl & _).
  destruct (FullStepRow_new_spec base_state FinalFullWidth i Hfit) as (Hl' & _).
  split; [done |]. split; [done |]. split; [done |]. split; [lia |].
  split; [by apply FullStepRow_new_agree |].
  by apply GetIndices_leaf.
Qed.

Lemma group_runs_spec (c : nat) (X : list (list Z)) :
  forall run, In run (group_runs c X) ->
    (forall a, In a run -> In a X) /\
    (forall a b, In a run -> In b run -> HasCollision a b c = true).
Proof.
  induction X as [|x X IH]; intros run Hrun; [done |].
  cbn [group_runs] in Hrun.
  assert (Hsingle : (forall a, In a [x] -> In a (x :: X)) /\
                    (forall a b, In a [x] -> In b [x] -> HasCollision a b c = true)).
  { split.
    - intros a [<- | []]. by left.
    - intros a b [<- | []] [<- | []]. apply HasCollision_refl. }
  assert (Hold : forall run', In run' (group_runs c X) ->
             (forall a, In a run' -> In a (x :: X)) /\
             (forall a b, In a run' -> In b run' -> HasCollision a b c = true)).
  { intros run' Hin. destruct (IH run' Hin) as [H1 H2]. split; [| done].
    intros a Ha. right. by apply H1. }
  destruct (group_runs c X) as [|[|y run0] runs] eqn:E.
  - destruct Hrun as [<- | []]. done.
  - destruct Hrun as [<- | []]. done.
  - destruct (HasCollision x y c) eqn:Hxy.
    + destruct Hrun as [<- | Hin]; [| apply Hold; by right].
      destruct (Hold (y :: run0) ltac:(by left)) as [H1 H2].
      assert (Hx : forall b, In b (y :: run0) -> HasCollision x b c = true).
      { intros b Hb. apply (HasCollision_trans x y b); [done |].
        apply H2; [by left | done]. }
      split.
      * intros a [<- | Ha]; [by left | by apply H1].
      * intros a b [<- | Ha] [<- | Hb].
        -- apply HasCollision_refl.
        -- by apply Hx.
        -- apply HasCollision_sym. by apply Hx.
        -- by apply H2.
    + destruct Hrun as [<- | Hin]; [done | by apply Hold].
Qed.

Lemma run_merges_elem (produce : list Z -> list Z -> list (list Z)) (run : list (list Z)) :
  forall x, In x (run_merges produce run) ->
    exists a b, In a run /\ In b run /\ In x (produce a b).
Proof.
  induction run as [|a run IH]; intros x Hx; [done |].
  cbn [run_merges] in Hx. apply in_app_or in Hx as [Hx | Hx].
  - apply in_flat_map in Hx as (b & Hb & Hx). exists a, b.
    split; [by left |]. split; [by right | done].
  - destruct (IH x Hx) as (a' & b' & Ha' & Hb' & Hx').
    exists a', b'. split; [by right |]. split; [by right | done].
Qed.

Lemma fresh_round_elem (produce : list Z -> list Z -> list (list Z)) (c : nat)
    (X : list (list Z)) :
  forall x, In x (fresh_round produce c X) ->
    exists a b, In a X /\ In b X /\ HasCollision a b c = true /\ In x (produce a b).
Proof.
  intros x Hx. unfold fresh_round in Hx.
  apply in_flat_map in Hx as (run & Hrun & Hx).
  destruct (group_runs_spec c X run Hrun) as [H1 H2].
  destruct (run_merges_elem produce run x Hx) as (a & b & Ha & Hb & Hab).
  exists a, b. split; [by apply H1 |]. split; [by apply H1 |]. split; [by apply H2 | done].
Qed.

Lemma basic_round_sound (r : nat) (X : list (list Z)) :
  S r < K ->
  all_subtree_rows base_state r X ->
  returns (basic_round (X, hashLen_at r, lenIndices_at r))
    (fun st => all_subtree_rows base_state (S r) st.1.1 /\
               st.1.2 = hashLen_at (S r) /\ st.2 = lenIndices_at (S r)).
Proof.
  intros Hr HX.
  eapply returns_weaken;
    [apply (basic_round_refines X (hashLen_at r) (lenIndices_at r) never_cancelled) |].
  intros [[X' hl'] li'] (Hperm & -> & ->). cbn [fst snd].
  pose proof (hashLen_at_S r ltac:(lia)) as Hhl.
  split; [| split; [lia | rewrite lenIndices_at_S; unfold lenIndices_at; lia]].
  intros x Hx.
  apply list_elem_of_In in Hx. rewrite Hperm in Hx. apply list_elem_of_In in Hx.
  destruct (fresh_round_elem _ _ _ x Hx) as (a & b & Ha & Hb & Hcol & Hprod).
  apply list_elem_of_In in Ha, Hb.
  rewrite std_sort_permutation in Ha, Hb. apply list_elem_of_In in Ha, Hb.
  unfold basic_produce in Hprod.
  destruct (DistinctIndices a b (hashLen_at r) (lenIndices_at r)) eqn:Hdis; [| done].
  destruct Hprod as [<- | []].
  apply subtree_merge; try done; [lia | by apply HX | by apply HX |].
  apply FullWidth_fits. lia.
Qed.

Lemma for_each_returns {A S : Type} (I : S -> Prop) (values : list A)
    (body : A -> S -> solver S) :
  (forall x s, In x values -> I s -> returns (body x s) I) ->
  forall s, I s -> returns (for_each values body s) I.
Proof.
  induction values as [|x values IH]; intros Hbody s Hs; cbn [for_each].
  - by apply returns_ret.
  - apply (returns_bind _ _ I); [apply Hbody; [by left | done] |].
    intros s' Hs'. apply IH; [| done]. intros y s'' Hy. apply Hbody. by right.
Qed.

Lemma index_in_range (i : nat) : i < init_size -> (0 <= Z.of_nat i < 2 ^ 32)%Z.
Proof.
  rewrite (init_size_pow2 index_bits). intros Hi.
  assert (H31 : 2 ^ (CollisionBitLength + 1) <= 2 ^ 31) by (apply Nat.pow_le_mono_r; lia).
  assert (Hz : (Z.of_nat i < Z.of_nat (2 ^ 31))%Z) by lia.
  rewrite Nat2Z.inj_pow in Hz. change (Z.of_nat 2 ^ Z.of_nat 31)%Z with (2 ^ 31)%Z in Hz.
  split; [lia |]. assert ((2 ^ 31 < 2 ^ 32)%Z) by done. lia.
Qed.

Lemma list_generation_sound :
  returns (for_each (seq 0 init_size)
             (fun i X =>
                let X := X ++ [FullStepRow_new FullWidth N K base_state (Z.of_nat i)] in
                throw_if cancelled ListGeneration ;;; solver_ret X) [])
    (all_subtree_rows base_state 0).
Proof.
  apply for_each_returns; [| by intros x Hx].
  intros i X Hi HX. apply in_seq in Hi. cbv zeta.
  apply (returns_bind _ _ (fun _ => True)); [by apply throw_if_returns |]. intros _ _.
  apply returns_ret. intros x Hx. apply in_app_or in Hx as [Hx | [<- | []]]; [by apply HX |].
  apply subtree_leaf; [| apply index_in_range; lia].
  pose proof (FullWidth_fits 0 ltac:(lia)) as H. rewrite hashLen_at_0 in H.
  by change (lenIndices_at 0) with 4 in H.
Qed.

Lemma rounds_sound (n : nat) :
  forall r X,
    n + S r = K -> all_subtree_rows base_state r X ->
    returns (rounds basic_round n (S r) (X, hashLen_at r, lenIndices_at r))
      (fun st => exists r', r' < K /\ all_subtree_rows base_state r' st.1.1 /\
                            st.1.2 = hashLen_at r' /\ st.2 = lenIndices_at r' /\
                            (r' = K - 1 \/ st.1.1 = [])).
Proof.
  induction n as [|n IH]; intros r X Hn HX; cbn [rounds].
  - apply returns_ret. exists r. cbn [fst snd]. repeat split; try done; lia.
  - destruct (S r <? K) eqn:E1; [| apply Nat.ltb_ge in E1; lia]. apply Nat.ltb_lt in E1.
    destruct (0 <? length X) eqn:E2; cbn [andb].
    + eapply returns_bind; [by apply (basic_round_sound r X E1 HX) |].
      intros [[X' hl'] li'] (HX' & Hhl & Hli). cbn [fst snd] in *. subst hl' li'.
      replace (S r + 1) with (S (S r)) by lia. apply IH; [lia | done].
    + apply Nat.ltb_ge in E2. apply returns_ret. exists r. cbn [fst snd].
      repeat split; try done; try lia. right. destruct X; [done | simpl in E2; lia].
Qed.

(** ** The final round *)

Lemma HasCollision_le (a b : list Z) (l l' : nat) :
  l' <= l -> HasCollision a b l = true -> HasCollision a b l' = true.
Proof.
  rewrite !HasCollision_spec. intros Hle H x Hx. apply H. lia.
Qed.

Lemma final_pair_valid (a b : list Z) :
  subtree_row base_state (K - 1) a -> subtree_row base_state (K - 1) b ->
  HasCollision a b (hashLen_at (K - 1)) = true ->
  DistinctIndices a b (hashLen_at (K - 1)) (lenIndices_at (K - 1)) = true ->
  IsValidSolution base_state
    (GetIndices (FullStepRow_merge FinalFullWidth a b (hashLen_at (K - 1))
                   (lenIndices_at (K - 1)) 0)
       (hashLen_at (K - 1)) (2 * lenIndices_at (K - 1)))
  = Value true.
Proof.
  intros Ha Hb Hcol Hdis.
  pose proof (hashLen_at_S (K - 1) ltac:(lia)) as Hhl.
  replace (S (K - 1)) with K in Hhl by lia.
  pose proof (subtree_row_length _ _ Ha) as Hla.
  pose proof (subtree_row_length _ _ Hb) as Hlb.
  pose proof (FinalFullWidth_fits_all K ltac:(lia)) as HfitK.
  assert (HliK : lenIndices_at K = 4 * (2 * 2 ^ (K - 1))).
  { rewrite <- lenIndices_at_S. f_equal. lia. }
  assert (Hw : subtree_row base_state K
                 (FullStepRow_merge FinalFullWidth a b (hashLen_at (K - 1))
                    (lenIndices_at (K - 1)) CollisionByteLength)).
  { replace K with (S (K - 1)) at 1 by lia.
    apply subtree_merge; try done; [lia | | replace (S (K - 1)) with K by lia; done].
    apply (HasCollision_le a b (hashLen_at (K - 1))); [lia | done]. }
  destruct Hw as (s & v & Hs & Hp & Hlv & Hlw & Hag & Hg).
  rewrite HliK in Hag, Hg, HfitK, Hlw. rewrite HliK in FinalFullWidth_final.
  unfold lenIndices_at in Hla, Hlb, Hag, Hlw, Hdis |- *.
  set (hl := hashLen_at (K - 1)) in *. set (m := 2 ^ (K - 1)) in *.
  set (w := FullStepRow_merge FinalFullWidth a b hl (4 * m) CollisionByteLength) in *.
  set (res := FullStepRow_merge FinalFullWidth a b hl (4 * m) 0).
  assert (Hsoln : GetIndices res hl (2 * (4 * m)) = s).
  { rewrite <- Hg. rewrite <- (GetIndices_agree (hashLen_at K + 4 * (2 * m)) _ _ w v) by (done || lia).
    replace (hashLen_at K) with (hl - CollisionByteLength) by lia.
    unfold w. rewrite (GetIndices_merge FinalFullWidth a b hl m CollisionByteLength) by lia.
    replace (2 * (4 * m)) with (4 * (2 * m)) by lia.
    rewrite <- (Nat.sub_0_r hl) at 1.
    unfold res. by rewrite (GetIndices_merge FinalFullWidth a b hl m 0) by lia. }
  rewrite Hsoln.
  assert (Hzero : IsZero v (hashLen_at K) = true).
  { apply IsZero_spec. intros x Hx. rewrite <- Hag by lia.
    destruct (merge_bytes FinalFullWidth a b hl (4 * m) CollisionByteLength
                ltac:(lia) ltac:(lia) ltac:(lia) ltac:(lia)) as (_ & Hbytes & _).
    fold w in Hbytes. rewrite Hbytes by lia.
    rewrite HasCollision_spec in Hcol. rewrite Hcol by lia. apply Z.lxor_nilpotent. }
  unfold IsValidSolution. rewrite (soln_size_pow2 K_small), Hs, Nat.eqb_refl. cbn [negb].
  assert (Hmap : length (map (FullStepRow_new FinalFullWidth N K base_state) s) = 2 ^ K)
    by (by rewrite length_map).
  assert (Hfuel : K < S (length (map (FullStepRow_new FinalFullWidth N K base_state) s)))
    by (rewrite Hmap; pose proof (lt_pow2 K); lia).
  rewrite (passes_verify_levels K _ _ _ _ _ Hmap Hfuel Hp).
  simpl. by rewrite Hzero.
Qed.

Lemma pair_loop_bounds (j l m : nat) : In (l, m) (pair_loop j) -> l < m /\ m < j.
Proof.
  unfold pair_loop. intros H. apply in_flat_map in H as (l0 & Hl0 & H).
  apply in_map_iff in H as (m0 & [= <- <-] & Hm0).
  apply in_seq in Hl0. apply in_seq in Hm0. lia.
Qed.

Lemma foldl_invariant {A B : Type} (I : A -> Prop) (f : A -> B -> A) (l : list B) :
  (forall x a, In x l -> I a -> I (f a x)) -> forall a, I a -> I (foldl f a l).
Proof.
  induction l as [|x l IH]; intros Hf a Ha; simpl; [done |].
  apply IH; [| apply Hf; [by left | done]]. intros y a' Hy. apply Hf. by right.
Qed.

Lemma row_at_In (X : list (list Z)) (p : nat) : p < length X -> In (row_at X p) X.
Proof.
  intros Hp. unfold row_at. destruct (lookup_lt_is_Some_2 X p Hp) as [x Hx].
  rewrite Hx. simpl. apply list_elem_of_In. by apply list_elem_of_lookup_2 in Hx.
Qed.

Lemma run_rows_collide (X : list (list Z)) (clen i l m : nat) :
  i < length X ->
  l < run_length X clen i 1 (length X) -> m < run_length X clen i 1 (length X) ->
  In (row_at X (i + l)) X /\ In (row_at X (i + m)) X /\
  HasCollision (row_at X (i + l)) (row_at X (i + m)) clen = true.
Proof.
  intros Hi Hl Hm.
  destruct (run_length_bounds X clen i Hi) as (Hj1 & Hj2 & _ & Hall).
  set (j := run_length X clen i 1 (length X)) in *.
  rewrite take_drop_rows in Hall by lia. rewrite Forall_forall in Hall.
  assert (Hhead : forall q, q < j -> HasCollision (row_at X i) (row_at X (i + q)) clen = true).
  { intros q Hq. apply Hall. apply list_elem_of_In, in_map, in_seq. lia. }
  split; [apply row_at_In; lia |]. split; [apply row_at_In; lia |].
  apply (HasCollision_trans _ (row_at X i)); [apply HasCollision_sym |]; by apply Hhead.
Qed.

Lemma final_loop_invariant (I : list (list Z) -> Prop) (hashLen : nat)
    (emit : list (list Z) -> nat -> nat -> list (list Z) -> list (list Z))
    (X : list (list Z)) :
  (forall p q out,
     In (row_at X p) X -> In (row_at X q) X ->
     HasCollision (row_at X p) (row_at X q) hashLen = true ->
     I out -> I (emit X p q out)) ->
  forall fuel i out, I out -> returns (final_loop hashLen emit fuel X i out) I.
Proof.
  intros Hemit. induction fuel as [|fuel IH]; intros i out Hout; cbn [final_loop].
  - by apply returns_ret.
  - destruct (i <? length X - 1) eqn:E; [| by apply returns_ret].
    apply Nat.ltb_lt in E.
    apply (returns_bind _ _ (fun _ => True)); [by apply throw_if_returns |]. intros _ _.
    apply IH. apply foldl_invariant; [| done].
    intros [l m] out' Hlm Hout'. apply pair_loop_bounds in Hlm. cbn [fst snd].
    destruct (run_rows_collide X hashLen i l m ltac:(lia) ltac:(lia) ltac:(lia))
      as (H1 & H2 & H3).
    by apply Hemit.
Qed.

Lemma set_insert_elem (solns : list (list Z)) (s x : list Z) :
  In x (set_insert solns s) -> In x solns \/ x = s.
Proof.
  unfold set_insert. destruct (existsb (indices_eqb s) solns); [by left |].
  intros H. apply in_app_or in H as [H | [<- | []]]; [by left | by right].
Qed.

Lemma std_sort_In (cmp : list Z -> list Z -> bool) (X : list (list Z)) (x : list Z) :
  In x (std_sort cmp X) -> In x X.
Proof.
  intros H. apply list_elem_of_In in H. apply list_elem_of_In.
  by rewrite <- (std_sort_permutation cmp X).
Qed.

Lemma final_round_sound (r : nat) (X : list (list Z)) :
  all_subtree_rows base_state r X -> r = K - 1 \/ X = [] ->
  returns (final_round (basic_final_emit (hashLen_at r) (lenIndices_at r)) X (hashLen_at r) [])
    (all_valid base_state).
Proof.
  intros HX Hr. unfold final_round.
  destruct (1 <? length X) eqn:E; [| apply returns_ret; by intros s []].
  apply Nat.ltb_lt in E.
  destruct Hr as [-> | ->]; [| simpl in E; lia].
  apply (returns_bind _ _ (fun _ => True)); [by apply throw_if_returns |]. intros _ _.
  apply final_loop_invariant; [| by intros s []].
  intros p q out Hp Hq Hcol Hout. unfold basic_final_emit.
  destruct (DistinctIndices _ _ _ _) eqn:Hdis; [| done].
  intros s Hs. apply set_insert_elem in Hs as [Hs | ->]; [by apply Hout |].
  apply std_sort_In in Hp, Hq.
  apply final_pair_valid; try done; by apply HX.
Qed.

(** C1. For admissible parameters and a probe that never asks to stop,
    BasicSolve returns, and IsValidSolution accepts every index sequence of
    the set it returns. *)
Theorem C1_basic_solutions_are_valid :
  returns (BasicSolve base_state) (all_valid base_state).
Proof.
  unfold BasicSolve.
  eapply returns_bind; [apply list_generation_sound |]. intros X HX. cbv beta.
  eapply returns_bind.
  - rewrite <- hashLen_at_0. change 4 with (lenIndices_at 0).
    apply (rounds_sound (K - 1) 0 X); [lia | done].
  - intros [[X' hl'] li'] (r' & Hr' & HX' & Hhl & Hli & Hlast). cbn [fst snd] in *.
    subst hl' li'. by apply final_round_sound.
Qed.

End Soundness.

(** * Further properties of the code *)

(** ** Index encodings *)

Lemma byte_of_word (i k : Z) :
  (0 <= k)%Z -> Z.land (Z.shiftr i k) 255 = ((i / 2 ^ k) mod 256)%Z.
Proof.
  intros Hk. change 255%Z with (Z.ones 8).
  rewrite Z.land_ones by lia. by rewrite Z.shiftr_div_pow2 by lia.
Qed.

Lemma lor_shiftl_add (a b k : Z) :
  (0 <= k)%Z -> (0 <= b < 2 ^ k)%Z -> Z.lor (Z.shiftl a k) b = (a * 2 ^ k + b)%Z.
Proof.
  intros Hk Hb.
  assert (Hdisj : Z.land (Z.shiftl a k) b = 0%Z).
  { apply Z.bits_inj'. intros n Hn. rewrite Z.land_spec, Z.bits_0.
    destruct (Z.ltb_spec n k) as [Hlt | Hge].
    - by rewrite Z.shiftl_spec_low.
    - destruct (decide (b = 0%Z)) as [-> | Hnz];
        [by rewrite Z.bits_0, andb_false_r |].
      rewrite (Z.bits_above_log2 b n); [apply andb_false_r | lia |].
      apply Z.log2_lt_pow2; [lia |].
      eapply Z.lt_le_trans; [apply Hb |]. apply Z.pow_le_mono_r; lia. }
  rewrite <- Z.lxor_lor by done. rewrite <- Z.add_nocarry_lxor by done.
  by rewrite Z.shiftl_mul_pow2 by lia.
Qed.

Lemma ArrayToEhIndex_sum (a : list Z) (off : nat) :
  (forall x, x < 4 -> (0 <= byte_at a (off + x) < 256)%Z) ->
  ArrayToEhIndex a off
  = (byte_at a off * 2 ^ 24 + byte_at a (off + 1) * 2 ^ 16
     + byte_at a (off + 2) * 2 ^ 8 + byte_at a (off + 3))%Z.
Proof.
  intros Hb. unfold ArrayToEhIndex.
  pose proof (Hb 0 ltac:(lia)) as H0. rewrite Nat.add_0_r in H0.
  pose proof (Hb 1 ltac:(lia)) as H1.
  pose proof (Hb 2 ltac:(lia)) as H2.
  pose proof (Hb 3 ltac:(lia)) as H3.
  rewrite (lor_shiftl_add _ (byte_at a (off + 3)) 8) by lia.
  rewrite (lor_shiftl_add _ _ 16) by lia.
  rewrite (lor_shiftl_add _ _ 24) by lia.
  lia.
Qed.

Lemma EhIndexToArray_bytes (i : Z) :
  EhIndexToArray i
  = [ ((i / 2 ^ 24) mod 256)%Z; ((i / 2 ^ 16) mod 256)%Z;
      ((i / 2 ^ 8) mod 256)%Z; (i mod 256)%Z ].
Proof.
  unfold EhIndexToArray. rewrite !byte_of_word by lia.
  replace (Z.land i 255) with (Z.land (Z.shiftr i 0) 255) by (by rewrite Z.shiftr_0_r).
  rewrite byte_of_word by lia. by rewrite Z.pow_0_r, Z.div_1_r.
Qed.

(** ** Truncated indices *)

Lemma UntruncateIndex_sum (t r ilen : Z) :
  (8 <= ilen <= 32)%Z -> (0 <= t < 256)%Z -> (0 <= r < 2 ^ (ilen - 8))%Z ->
  UntruncateIndex t r ilen = (t * 2 ^ (ilen - 8) + r)%Z /\
  (t * 2 ^ (ilen - 8) + r < 2 ^ ilen)%Z.
Proof.
  intros Hlen Ht Hr. unfold UntruncateIndex.
  assert (Hsplit : (2 ^ ilen = 256 * 2 ^ (ilen - 8))%Z).
  { replace ilen with (8 + (ilen - 8))%Z at 1 by lia. by rewrite Z.pow_add_r by lia. }
  assert (Hpow : (2 ^ ilen <= 2 ^ 32)%Z) by (apply Z.pow_le_mono_r; lia).
  rewrite (u32_small (ilen - 8)) by lia.
  rewrite Z.shiftl_mul_pow2 by lia.
  rewrite u32_small by nia.
  rewrite <- Z.shiftl_mul_pow2 by lia.
  rewrite lor_shiftl_add by lia. rewrite !Z.shiftl_mul_pow2 by lia.
  split; [done | nia].
Qed.

Lemma TruncateIndex_quot (i ilen : Z) :
  (8 <= ilen <= 32)%Z -> (0 <= i < 2 ^ ilen)%Z ->
  TruncateIndex i ilen = (i / 2 ^ (ilen - 8))%Z.
Proof.
  intros Hlen Hi. unfold TruncateIndex.
  rewrite (u32_small (ilen - 8)) by lia.
  rewrite land_255_small by (apply shiftr_lt_256; lia).
  by rewrite Z.shiftr_div_pow2 by lia.
Qed.

(** X4. A truncated index that is extended by [r] low bits truncates back
    to itself: the extension stays below 2^ilen, its top eight bits are the
    truncated index and its low bits are [r]. *)
Theorem X4_truncate_untruncate (t r ilen : Z) :
  (8 <= ilen <= 32)%Z -> (0 <= t < 256)%Z -> (0 <= r < 2 ^ (ilen - 8))%Z ->
  (0 <= UntruncateIndex t r ilen < 2 ^ ilen)%Z /\
  TruncateIndex (UntruncateIndex t r ilen) ilen = t /\
  Z.land (UntruncateIndex t r ilen) (Z.ones (ilen - 8)) = r.
Proof.
  intros Hlen Ht Hr.
  destruct (UntruncateIndex_sum t r ilen Hlen Ht Hr) as [-> Hlt].
  assert (Hpos : (0 < 2 ^ (ilen - 8))%Z) by (apply Z.pow_pos_nonneg; lia).
  split; [nia |]. split.
  - rewrite TruncateIndex_quot by (try done; nia).
    rewrite Z.div_add_l by lia. rewrite Z.div_small by lia. lia.
  - rewrite Z.land_ones by lia.
    rewrite Z.add_comm, Z.mod_add by lia. apply Z.mod_small. lia.
Qed.

Lemma recreate_size_pow2 :
  8 <= CollisionBitLength + 1 < 32 ->
  Z.of_nat recreate_size = (2 ^ (Z.of_nat (CollisionBitLength + 1) - 8))%Z.
Proof.
  intros Hbits. unfold recreate_size.
  assert (Hpos : (0 < 2 ^ (Z.of_nat (CollisionBitLength + 1) - 8))%Z)
    by (apply Z.pow_pos_nonneg; lia).
  destruct (UntruncateIndex_sum 1 0 (Z.of_nat (CollisionBitLength + 1))) as [-> _]; lia.
Qed.

(** X5. In the recreation phase the candidates generated for a truncated
    index t are, each exactly once, the indices below init_size whose
    truncation is t; there are init_size/256 of them. *)
Theorem X5_recreation_candidates (t : Z) :
  8 <= CollisionBitLength + 1 < 32 -> (0 <= t < 256)%Z ->
  let ilen := Z.of_nat (CollisionBitLength + 1) in
  let candidates :=
    map (fun j => UntruncateIndex t (Z.of_nat j) ilen) (seq 0 recreate_size) in
  init_size = 256 * recreate_size /\
  NoDup candidates /\
  forall i, In i candidates <-> (0 <= i < Z.of_nat init_size)%Z /\ TruncateIndex i ilen = t.
Proof.
  intros Hbits Ht ilen candidates.
  pose proof (recreate_size_pow2 Hbits) as Hrs. fold ilen in Hrs.
  assert (Hlen : (8 <= ilen <= 32)%Z) by (unfold ilen; lia).
  assert (Hpos : (0 < 2 ^ (ilen - 8))%Z) by (apply Z.pow_pos_nonneg; lia).
  assert (Hsplit : (2 ^ ilen = 256 * 2 ^ (ilen - 8))%Z).
  { replace ilen with (8 + (ilen - 8))%Z at 1 by lia. by rewrite Z.pow_add_r by lia. }
  assert (Hinit : Z.of_nat init_size = (2 ^ ilen)%Z).
  { rewrite init_size_pow2 by lia. unfold ilen.
    rewrite Nat2Z.inj_pow. done. }
  assert (Hcand : forall j, j < recreate_size ->
            UntruncateIndex t (Z.of_nat j) ilen = (t * 2 ^ (ilen - 8) + Z.of_nat j)%Z).
  { intros j Hj. apply UntruncateIndex_sum; lia. }
  split; [lia |]. split.
  - subst candidates.
    change (NoDup ((fun j => UntruncateIndex t (Z.of_nat j) ilen) <$> seq 0 recreate_size)).
    apply NoDup_fmap_2_strong; [| apply NoDup_seq].
    intros x y Hx Hy Heq.
    apply elem_of_seq in Hx, Hy.
    rewrite !Hcand in Heq by lia. lia.
  - intros i. subst candidates. rewrite in_map_iff. split.
    + intros (j & <- & Hj). apply in_seq in Hj.
      rewrite Hcand by lia.
      split; [nia |].
      rewrite TruncateIndex_quot by (try done; nia).
      rewrite Z.div_add_l by lia. rewrite Z.div_small by lia. lia.
    + intros [Hi Htr]. rewrite TruncateIndex_quot in Htr by (try done; lia).
      exists (Z.to_nat (i mod 2 ^ (ilen - 8))).
      pose proof (Z.mod_pos_bound i (2 ^ (ilen - 8)) Hpos) as Hmod.
      split; [| apply in_seq; lia].
      rewrite Hcand by lia. rewrite Z2Nat.id by lia.
      subst t. rewrite Z.mul_comm. symmetry. apply Z.div_mod. lia.
Qed.

(** ** Fresh rows *)

Lemma land_le (a m : Z) : (0 <= m)%Z -> (0 <= Z.land a m <= m)%Z.
Proof.
  intros Hm. split; [apply Z.land_nonneg; by right |].
  assert (Hsum : (Z.land m a + Z.ldiff m a = m)%Z).
  { rewrite Z.add_nocarry_lxor, Z.lxor_lor, Z.lor_comm.
    - apply Z.lor_ldiff_and.
    - apply Z.bits_inj'. intros n Hn.
      rewrite Z.land_spec, Z.land_spec, Z.ldiff_spec, Z.bits_0.
      by destruct (Z.testbit m n), (Z.testbit a n).
    - apply Z.bits_inj'. intros n Hn.
      rewrite Z.land_spec, Z.land_spec, Z.ldiff_spec, Z.bits_0.
      by destruct (Z.testbit m n), (Z.testbit a n). }
  assert (0 <= Z.ldiff m a)%Z by (apply Z.ldiff_nonneg; by left).
  rewrite (Z.land_comm a m). lia.
Qed.

Lemma fold_store_other (g : nat -> nat) (f : Z -> Z) (l : list nat) (x : nat) :
  (forall j, In j l -> g j <> x) ->
  forall h,
    byte_at (foldl (fun hash i => <[g i := f (byte_at hash (g i))]> hash) h l) x = byte_at h x.
Proof.
  induction l as [|j l IH]; intros Hne h; simpl; [done |].
  rewrite IH by (intros j' Hj'; apply Hne; by right).
  unfold byte_at. rewrite list_lookup_insert_ne; [done |]. apply Hne. by left.
Qed.

Lemma fold_store_hit (g : nat -> nat) (f : Z -> Z) (l : list nat) (x : nat) :
  (forall y, f (f y) = f y) ->
  (exists j, In j l /\ g j = x) ->
  forall h, x < length h ->
    byte_at (foldl (fun hash i => <[g i := f (byte_at hash (g i))]> hash) h l) x
    = f (byte_at h x).
Proof.
  intros Hidem. induction l as [|j l IH]; intros (j0 & Hin & Hj0) h Hx; [destruct Hin |].
  simpl.
  assert (Hhead : g j = x ->
            byte_at (<[g j := f (byte_at h (g j))]> h) x = f (byte_at h x)).
  { intros ->. unfold byte_at at 1. by rewrite list_lookup_insert_eq. }
  assert (Hskip : g j <> x ->
            byte_at (<[g j := f (byte_at h (g j))]> h) x = byte_at h x).
  { intros Hne. unfold byte_at. by rewrite list_lookup_insert_ne. }
  destruct (decide (Exists (fun j' => g j' = x) l)) as [Hex | Hnex].
  - apply List.Exists_exists in Hex as (j' & Hj' & Hg').
    rewrite IH; [| by exists j' | by rewrite length_insert].
    destruct (decide (g j = x)) as [Heq | Hne].
    + by rewrite Hhead, Hidem.
    + by rewrite Hskip.
  - rewrite fold_store_other.
    2:{ intros j' Hj' Hg'. apply Hnex, List.Exists_exists. by exists j'. }
    destruct Hin as [-> | Hin]; [by apply Hhead |].
    exfalso. apply Hnex, List.Exists_exists. by exists j0.
Qed.

Section Fresh.

Variable base_state : eh_HashState.

(** X6. A fresh row has WIDTH bytes; below ExpandedHashLength it carries the
    Blake2b output for the little-endian index, with the leading byte of
    each of the K+1 blocks masked by 0xFF >> (8*CollisionByteLength -
    CollisionBitLength), so that no leading byte exceeds the mask. *)
Theorem X6_StepRow_masks_blocks (WIDTH : nat) (i : Z) :
  ExpandedHashLength <= WIDTH ->
  let row := StepRow_new WIDTH N K base_state i in
  let out := blake2b_final (blake2b_update base_state (le32 i)) ExpandedHashLength in
  let mask := Z.shiftr 255 (Z.of_nat (8 * CollisionByteLength - CollisionBitLength)) in
  length row = WIDTH /\
  (forall b x, b <= K -> x < CollisionByteLength ->
     byte_at row (b * CollisionByteLength + x)
     = if x =? 0 then Z.land (byte_at out (b * CollisionByteLength)) mask
       else byte_at out (b * CollisionByteLength + x)) /\
  (forall b, b <= K -> (0 <= byte_at row (b * CollisionByteLength) <= mask)%Z).
Proof.
  intros HW row out mask.
  assert (Hmask : (0 <= mask)%Z) by (unfold mask; apply Z.shiftr_nonneg; lia).
  assert (Hidem : forall y, Z.land (Z.land y mask) mask = Z.land y mask).
  { intros y. by rewrite <- Z.land_assoc, Z.land_diag. }
  set (h0 := list_inserts 0 (take ExpandedHashLength out) (replicate WIDTH 0%Z)).
  assert (Hrow : row = foldl (fun hash j =>
                     <[j * CollisionByteLength :=
                         Z.land (byte_at hash (j * CollisionByteLength)) mask]> hash)
                   h0 (seq 0 (K + 1))) by done.
  assert (Hh0len : length h0 = WIDTH)
    by (unfold h0; by rewrite length_inserts, length_replicate).
  assert (Hh0 : forall p, p < ExpandedHashLength -> byte_at h0 p = byte_at out p).
  { intros p Hp. unfold h0, byte_at.
    destruct (decide (p < length out)) as [Hlt | Hge].
    - rewrite list_lookup_inserts
        by (rewrite ?length_take, ?length_replicate; lia).
      by rewrite Nat.sub_0_r, lookup_take_lt.
    - rewrite list_lookup_inserts_ge by (rewrite length_take; lia).
      rewrite lookup_replicate_2 by lia.
      by rewrite (lookup_ge_None_2 out) by lia. }
  split; [apply StepRow_new_length |]. split.
  - intros b x Hb Hx.
    assert (Hp : b * CollisionByteLength + x < ExpandedHashLength)
      by (unfold ExpandedHashLength; nia).
    rewrite Hrow. destruct (Nat.eqb_spec x 0) as [-> | Hx0].
    + rewrite Nat.add_0_r in *.
      rewrite (fold_store_hit (fun j => j * CollisionByteLength) (fun y => Z.land y mask));
        [by rewrite Hh0 | done | | lia].
      exists b. split; [apply in_seq; lia | done].
    + rewrite (fold_store_other (fun j => j * CollisionByteLength) (fun y => Z.land y mask));
        [by rewrite Hh0 |].
      intros j _ Heq. 
      assert (j = b) by nia. subst j. lia.
  - intros b Hb. rewrite Hrow.
    destruct (decide (b * CollisionByteLength < WIDTH)) as [Hlt | Hge].
    + rewrite (fold_store_hit (fun j => j * CollisionByteLength) (fun y => Z.land y mask));
        [by apply land_le | done | | lia].
      exists b. split; [apply in_seq; lia | done].
    + unfold byte_at. rewrite lookup_ge_None_2; [simpl; lia |].
      rewrite (fold_store_length (fun j => j * CollisionByteLength) (fun y => Z.land y mask)).
      lia.
Qed.

(** X7. A fresh full row keeps the hash bytes of its StepRow base and reads
    back, as its one-element index history, the index it was built from. *)
Theorem X7_full_leaf_reads_back_index (WIDTH : nat) (i : Z) :
  ExpandedHashLength + 4 <= WIDTH -> (0 <= i < 2 ^ 32)%Z ->
  let row := FullStepRow_new WIDTH N K base_state i in
  length row = WIDTH /\
  agree ExpandedHashLength row (StepRow_new WIDTH N K base_state i) /\
  GetIndices row ExpandedHashLength 4 = [i].
Proof.
  intros HW Hi row.
  destruct (FullStepRow_new_spec base_state WIDTH i HW) as (Hl & Ha & _).
  split; [done |]. split; [done |]. by apply GetIndices_leaf.
Qed.

(** X8. A fresh truncated row keeps the same hash bytes as the full row of
    the same index, whatever the two widths, and its one-byte history is the
    truncation of the index. *)
Theorem X8_truncated_leaf (WIDTH W' : nat) (i ilen : Z) :
  ExpandedHashLength + 1 <= WIDTH -> ExpandedHashLength + 4 <= W' ->
  let row := TruncatedStepRow_new WIDTH N K base_state i ilen in
  length row = WIDTH /\
  agree ExpandedHashLength row (FullStepRow_new W' N K base_state i) /\
  GetTruncatedIndices row ExpandedHashLength 1 = [TruncateIndex i ilen] /\
  (0 <= TruncateIndex i ilen < 256)%Z.
Proof.
  intros HW HW' row.
  pose proof (StepRow_new_length base_state WIDTH i) as Hl.
  assert (Hrow : row = <[ExpandedHashLength := TruncateIndex i ilen]>
                         (StepRow_new WIDTH N K base_state i)) by done.
  split; [by rewrite Hrow, length_insert |]. split; [| split].
  - intros x Hx.
    destruct (FullStepRow_new_spec base_state W' i HW') as (_ & Ha & _).
    rewrite (Ha x Hx), Hrow.
    unfold byte_at at 1. rewrite list_lookup_insert_ne by lia.
    apply (StepRow_new_agree base_state WIDTH W'); lia.
  - unfold GetTruncatedIndices. rewrite Hrow.
    apply list_eq. intros [|n].
    + rewrite lookup_take_lt by lia. rewrite lookup_drop, Nat.add_0_r.
      by rewrite list_lookup_insert_eq by lia.
    + simpl. rewrite lookup_take_ge; [done | lia].
  - unfold TruncateIndex. pose proof (land_le (Z.shiftr i (u32 (ilen - 8))) 255). lia.
Qed.

End Fresh.

(** ** Collisions and merged rows *)

Lemma truncated_merge_bytes (WIDTH : nat) (a b : list Z) (len lenIndices trim : nat) :
  trim <= len -> len - trim + 2 * lenIndices <= WIDTH ->
  len + lenIndices <= length a -> len + lenIndices <= length b ->
  let c := TruncatedStepRow_merge WIDTH a b len lenIndices trim in
  let first := if TruncatedIndicesBefore a b len lenIndices then a else b in
  let second := if TruncatedIndicesBefore a b len lenIndices then b else a in
  length c = WIDTH /\
  (forall x, x < len - trim ->
     byte_at c x = Z.lxor (byte_at a (trim + x)) (byte_at b (trim + x))) /\
  (forall x, x < lenIndices -> byte_at c (len - trim + x) = byte_at first (len + x)) /\
  (forall x, x < lenIndices ->
     byte_at c (len - trim + lenIndices + x) = byte_at second (len + x)).
Proof.
  intros Ht Hw Ha Hb c first second.
  assert (Hf : len + lenIndices <= length first)
    by (unfold first; by destruct (TruncatedIndicesBefore _ _ _ _)).
  assert (Hs : len + lenIndices <= length second)
    by (unfold second; by destruct (TruncatedIndicesBefore _ _ _ _)).
  destruct (merge_layout WIDTH a b first second len lenIndices trim Ht Hw Hf Hs) as [Hl Hlay].
  assert (Hc : c = std_copy second len (len + lenIndices) (len - trim + lenIndices)
                     (std_copy first len (len + lenIndices) (len - trim)
                        (xor_loop a b trim len (StepRow_copy WIDTH a)))).
  { unfold c, first, second, TruncatedStepRow_merge.
    by destruct (TruncatedIndicesBefore _ _ _ _). }
  rewrite <- Hc in Hl, Hlay.
  assert (Hxs : length (xor_bytes a b trim (len - trim)) = len - trim) by apply xor_bytes_length.
  assert (Hh1 : length (take lenIndices (drop len first)) = lenIndices)
    by (rewrite length_take, length_drop; lia).
  split; [done |]. split; [| split].
  - intros x Hx. rewrite <- (byte_at_take c (len - trim + 2 * lenIndices)) by lia.
    rewrite Hlay, byte_at_app_l by lia.
    apply byte_at_lookup. by apply xor_bytes_lookup.
  - intros x Hx. rewrite <- (byte_at_take c (len - trim + 2 * lenIndices)) by lia.
    rewrite Hlay.
    replace (len - trim + x) with (length (xor_bytes a b trim (len - trim)) + x) by lia.
    rewrite byte_at_app_r.
    rewrite byte_at_app_l by lia. by apply byte_at_history.
  - intros x Hx. rewrite <- (byte_at_take c (len - trim + 2 * lenIndices)) by lia.
    rewrite Hlay.
    replace (len - trim + lenIndices + x)
      with (length (xor_bytes a b trim (len - trim))
            + (length (take lenIndices (drop len first)) + x)) by lia.
    rewrite !byte_at_app_r. by apply byte_at_history.
Qed.

Lemma collision_split (a b c : list Z) (len clen : nat) :
  clen <= len ->
  (forall x, x < len - clen ->
     byte_at c x = Z.lxor (byte_at a (clen + x)) (byte_at b (clen + x))) ->
  HasCollision a b len = HasCollision a b clen && IsZero c (len - clen).
Proof.
  intros Hle Hc. apply eq_true_iff_eq.
  rewrite andb_true_iff, !HasCollision_spec, IsZero_spec. split.
  - intros H. split; [intros x Hx; apply H; lia |].
    intros x Hx. rewrite Hc by done. rewrite H by lia. apply Z.lxor_nilpotent.
  - intros [H1 H2] x Hx.
    destruct (decide (x < clen)) as [Hlt | Hge]; [by apply H1 |].
    apply Z.lxor_eq. replace x with (clen + (x - clen)) by lia.
    rewrite <- Hc by lia. apply H2. lia.
Qed.

(** X9. Two rows collide on their first len bytes exactly when they collide
    on the first clen bytes and the row merged from them with clen bytes
    trimmed is zero on the len - clen bytes it keeps; this holds for full
    and for truncated rows.  (With clen = 0: the pair collides on len bytes
    exactly when the untrimmed merge is zero on them.) *)
Theorem X9_collision_is_zero_xor (WIDTH : nat) (a b : list Z) (len lenIndices clen : nat) :
  clen <= len -> len - clen + 2 * lenIndices <= WIDTH ->
  len + lenIndices <= length a -> len + lenIndices <= length b ->
  HasCollision a b len
  = HasCollision a b clen
    && IsZero (FullStepRow_merge WIDTH a b len lenIndices clen) (len - clen) /\
  HasCollision a b len
  = HasCollision a b clen
    && IsZero (TruncatedStepRow_merge WIDTH a b len lenIndices clen) (len - clen).
Proof.
  intros Hle Hw Ha Hb. split; apply collision_split; try done.
  - by destruct (merge_bytes WIDTH a b len lenIndices clen Hle Hw Ha Hb) as (_ & H & _).
  - by destruct (truncated_merge_bytes WIDTH a b len lenIndices clen Hle Hw Ha Hb)
      as (_ & H & _).
Qed.

Lemma run_length_stops (X : list (list Z)) (clen i : nat) (fuel : nat) :
  forall j, length X - (i + j) <= fuel ->
    i + run_length X clen i j fuel < length X ->
    HasCollision (row_at X i) (row_at X (i + run_length X clen i j fuel)) clen = false.
Proof.
  induction fuel as [|fuel IH]; intros j Hfuel Hin; simpl in *; [lia |].
  destruct (i + j <? length X) eqn:Hlt; simpl in *.
  - destruct (HasCollision (row_at X i) (row_at X (i + j)) clen) eqn:Hc; [| done].
    apply IH; [lia | done].
  - apply Nat.ltb_ge in Hlt. lia.
Qed.

(** X10. Step 2b compares the following rows with the head of the run only,
    and yet the run it finds is a run of rows that collide pairwise, it
    stays inside the list, and it is maximal: the row after it, if there is
    one, does not collide with the head. *)
Theorem X10_run_is_maximal (X : list (list Z)) (clen i : nat) :
  i < length X ->
  let j := run_length X clen i 1 (length X) in
  1 <= j /\ i + j <= length X /\
  (forall l m, l < j -> m < j ->
     HasCollision (row_at X (i + l)) (row_at X (i + m)) clen = true) /\
  (i + j < length X -> HasCollision (row_at X i) (row_at X (i + j)) clen = false).
Proof.
  intros Hi j.
  destruct (run_length_bounds X clen i Hi) as (H1 & H2 & _ & Hrun).
  fold j in H1, H2, Hrun.
  split; [done |]. split; [done |]. split.
  - rewrite take_drop_rows in Hrun by done.
    assert (Hhead : forall l, l < j ->
              HasCollision (row_at X i) (row_at X (i + l)) clen = true).
    { intros l Hl. rewrite List.Forall_forall in Hrun. apply Hrun.
      apply in_map, in_seq. lia. }
    intros l m Hl Hm.
    eapply HasCollision_trans; [apply HasCollision_sym |]; by apply Hhead.
  - apply run_length_stops. lia.
Qed.

(** ** The duplicate filter *)

Lemma even_occurrences_map (f : Z -> Z) (n : nat) :
  forall s : list Z, length s <= n ->
    (forall v, Nat.Even (occurrences v s)) ->
    forall w, Nat.Even (occurrences w (map f s)).
Proof.
  induction n as [|n IH]; intros s Hlen Heven w.
  - destruct s; [exists 0; done | simpl in Hlen; lia].
  - destruct s as [|x s]; [exists 0; done |].
    destruct (decide (x ∈ s)) as [Hin | Hnin];
      [| by destruct (odd_without_partner x s Hnin)].
    apply elem_of_Permutation in Hin as [s' Hp].
    pose proof (proj1 (even_after_pairing x s s' Hp) Heven) as Heven'.
    assert (Hlen' : length s' <= n).
    { apply Permutation_length in Hp. simpl in *. lia. }
    specialize (IH s' Hlen' Heven' w).
    assert (Hpm : map f (x :: s) ≡ₚ f x :: f x :: map f s').
    { simpl. constructor. change (map f s ≡ₚ map f (x :: s')). by apply Permutation_map. }
    rewrite (occurrences_perm w _ _ Hpm), !occurrences_cons.
    destruct (decide (f x = w)); simpl; [by apply Nat.Even_succ_succ | done].
Qed.

(** X11. The duplicate filter never misses a real duplicate: when every full
    index of a list occurs an even number of times, IsProbablyDuplicate
    holds of the truncated indices; and its answer does not depend on the
    order of the indices. *)
Theorem X11_duplicate_filter_never_misses :
  (forall (s : list Z) (ilen : Z),
     (forall v, Nat.Even (occurrences v s)) ->
     IsProbablyDuplicate (map (fun i => TruncateIndex i ilen) s) (length s) = true) /\
  (forall s s' : list Z, s ≡ₚ s' ->
     IsProbablyDuplicate s (length s) = IsProbablyDuplicate s' (length s')).
Proof.
  split.
  - intros s ilen Heven.
    rewrite <- (length_map (fun i => TruncateIndex i ilen) s).
    apply IsProbablyDuplicate_spec.
    by apply (even_occurrences_map _ (length s)).
  - intros s s' Hp. apply eq_true_iff_eq. rewrite !IsProbablyDuplicate_spec.
    split; intros H v; specialize (H v).
    + by rewrite <- (occurrences_perm v s s' Hp).
    + by rewrite (occurrences_perm v s s' Hp).
Qed.

(** ** The verifier's loop and the accepted trees *)

Lemma verify_levels_passes (r : nat) :
  forall fuel X hl li,
    length X = 2 ^ r -> r < fuel ->
    verify_levels fuel (X, hl, li) = passes r (X, hl, li).
Proof.
  induction r as [|r IH]; intros fuel X hl li Hlen Hfuel;
    (destruct fuel as [|fuel]; [lia |]).
  - cbn [verify_levels passes]. simpl in Hlen. rewrite Hlen. done.
  - rewrite passes_S. cbn [verify_levels].
    assert (Hbig : 1 < length X).
    { rewrite Hlen. pose proof (pow2_pos r). simpl. lia. }
    apply Nat.ltb_lt in Hbig. rewrite Hbig.
    destruct (verify_level_pow2 X hl li r Hlen) as [E | (Xc & E & Hl)]; rewrite E; [done |].
    apply IH; [done | lia].
Qed.

Lemma verify_level_app_inv (X Y Z' : list (list Z)) (nX nY hl li hl' li' : nat) :
  length X = 2 * nX -> length Y = 2 * nY ->
  verify_level (X ++ Y, hl, li) = Value (Some (Z', hl', li')) ->
  exists X' Y',
    verify_level (X, hl, li) = Value (Some (X', hl', li')) /\
    verify_level (Y, hl, li) = Value (Some (Y', hl', li')) /\
    Z' = X' ++ Y'.
Proof.
  intros HX HY. unfold verify_level.
  rewrite length_app, HX, HY.
  replace ((2 * nX + 2 * nY + 1) / 2) with (nX + nY)
    by (symmetry; replace (2 * nX + 2 * nY) with (2 * (nX + nY)) by lia; apply half_even).
  rewrite !half_even.
  rewrite verify_pairs_split.
  rewrite verify_pairs_app_l by lia.
  destruct (verify_pairs X hl li nX 0 []) as [[Xc1|]| | |] eqn:EX; try discriminate.
  replace (0 + 2 * nX) with (length X + 0) by lia.
  rewrite verify_pairs_app_r, verify_pairs_acc.
  destruct (verify_pairs Y hl li nY 0 []) as [[R|]| | |] eqn:EY; try discriminate.
  intros H. injection H as <- <- <-. by exists Xc1, R.
Qed.

Lemma passes_app_inv (r : nat) :
  forall X Y hl li Z' hl' li',
    length X = 2 ^ r -> length Y = 2 ^ r ->
    passes r (X ++ Y, hl, li) = Value (Some (Z', hl', li')) ->
    exists x y,
      passes r (X, hl, li) = Value (Some ([x], hl', li')) /\
      passes r (Y, hl, li) = Value (Some ([y], hl', li')) /\
      Z' = [x; y].
Proof.
  induction r as [|r IH]; intros X Y hl li Z' hl' li' HX HY.
  - cbn [passes]. intros H. injection H as <- <- <-.
    destruct X as [|x [|? ?]]; try done. destruct Y as [|y [|? ?]]; try done.
    by exists x, y.
  - rewrite !passes_S.
    destruct (verify_level (X ++ Y, hl, li)) as [[[[Z1 hl1] li1]|]| | |] eqn:E;
      try discriminate.
    assert (HX2 : length X = 2 * 2 ^ r) by (rewrite HX; simpl; lia).
    assert (HY2 : length Y = 2 * 2 ^ r) by (rewrite HY; simpl; lia).
    destruct (verify_level_app_inv X Y Z1 _ _ hl li hl1 li1 HX2 HY2 E)
      as (X' & Y' & EX & EY & ->).
    rewrite EX, EY.
    destruct (verify_level_pow2 X hl li r HX) as [E' | (Xc & E' & HlX)];
      rewrite E' in EX; [discriminate | injection EX as -> _ _].
    destruct (verify_level_pow2 Y hl li r HY) as [E'' | (Yc & E'' & HlY)];
      rewrite E'' in EY; [discriminate | injection EY as -> _ _].
    by apply IH.
Qed.

Lemma verify_level_pair_inv (x y : list Z) (hl li : nat) (Z' : list (list Z)) (hl' li' : nat) :
  verify_level ([x; y], hl, li) = Value (Some (Z', hl', li')) ->
  HasCollision x y CollisionByteLength = true /\
  IndicesBefore y x hl li = false /\
  DistinctIndices x y hl li = true /\
  Z' = [FullStepRow_merge FinalFullWidth x y hl li CollisionByteLength].
Proof.
  unfold verify_level. simpl.
  destruct (HasCollision x y CollisionByteLength); simpl; [| discriminate].
  destruct (IndicesBefore y x hl li); [discriminate |].
  destruct (DistinctIndices x y hl li); simpl; [| discriminate].
  intros H. by injection H as <- _ _.
Qed.

Lemma hashLen_at_ge (r : nat) : r <= K -> CollisionByteLength <= hashLen_at r.
Proof. intros Hr. rewrite hashLen_at_mul by lia. nia. Qed.

Lemma hashLen_at_succ (r : nat) :
  r <= K -> hashLen_at (S r) = hashLen_at r - CollisionByteLength.
Proof. intros Hr. rewrite (hashLen_at_S r) by done. lia. Qed.

Lemma valid_tree_ordered (r : nat) (v1 v2 : list Z) :
  IndicesBefore v2 v1 (hashLen_at r) (lenIndices_at r) = false ->
  DistinctIndices v1 v2 (hashLen_at r) (lenIndices_at r) = true ->
  IndicesBefore v1 v2 (hashLen_at r) (lenIndices_at r) = true.
Proof.
  intros Hord Hdis.
  assert (Hge : 1 <= lenIndices_at r) by (pose proof (lenIndices_at_ge r); lia).
  pose proof (DistinctIndices_leftmost v1 v2 _ _ Hge Hdis) as Hne.
  unfold IndicesBefore in *. apply Z.ltb_ge in Hord. apply Z.ltb_lt. lia.
Qed.

Lemma xor_all_app (l1 l2 : list Z) : xor_all (l1 ++ l2) = Z.lxor (xor_all l1) (xor_all l2).
Proof.
  induction l1 as [|x l1 IH]; simpl; [by rewrite Z.lxor_0_l |].
  by rewrite IH, Z.lxor_assoc.
Qed.

Section Trees.

Variable base_state : eh_HashState.

Hypothesis K_small : K < 32.

(** The rows of the verifier are wide enough for the rows of every level. *)
Hypothesis FinalFullWidth_holds :
  forall r, r <= K -> hashLen_at r + lenIndices_at r <= FinalFullWidth.

Lemma valid_tree_passes (r : nat) (s v : list Z) :
  valid_tree base_state r s v ->
  length s = 2 ^ r /\
  passes r (map (FullStepRow_new FinalFullWidth N K base_state) s, ExpandedHashLength, 4)
  = Value (Some ([v], hashLen_at r, lenIndices_at r)).
Proof.
  induction 1 as [i | r s1 s2 v1 v2 _ [Hl1 IH1] _ [Hl2 IH2] Hcol Hord Hdis].
  - split; [done |]. cbn [passes]. by rewrite hashLen_at_0.
  - split; [rewrite length_app, Hl1, Hl2; simpl; lia |].
    rewrite passes_snoc, map_app.
    assert (Ha : length (map (FullStepRow_new FinalFullWidth N K base_state) s1) = 2 ^ r)
      by (by rewrite length_map).
    assert (Hb : length (map (FullStepRow_new FinalFullWidth N K base_state) s2) = 2 ^ r)
      by (by rewrite length_map).
    rewrite (passes_app r _ _ _ _ _ _ Ha Hb IH1 IH2).
    cbn [fst snd app].
    rewrite verify_level_pair by done.
    do 3 f_equal; [f_equal |].
    + unfold hashLen_at. lia.
    + unfold lenIndices_at. simpl. lia.
Qed.

Lemma passes_valid_tree (r : nat) :
  forall (s v : list Z) hl li,
    length s = 2 ^ r ->
    passes r (map (FullStepRow_new FinalFullWidth N K base_state) s, ExpandedHashLength, 4) = Value (Some ([v], hl, li)) ->
    valid_tree base_state r s v.
Proof.
  induction r as [|r IH]; intros s v hl li Hlen Hp.
  - destruct s as [|i [|? ?]]; try done.
    cbn [passes] in Hp. injection Hp as <- _ _. constructor.
  - rewrite passes_snoc in Hp.
    rewrite <- (take_drop (2 ^ r) s) in Hp |- *.
    assert (Hl1 : length (take (2 ^ r) s) = 2 ^ r)
      by (rewrite length_take, Hlen; simpl; lia).
    assert (Hl2 : length (drop (2 ^ r) s) = 2 ^ r)
      by (rewrite length_drop, Hlen; simpl; lia).
    rewrite map_app in Hp.
    destruct (passes r (map (FullStepRow_new FinalFullWidth N K base_state) (take (2 ^ r) s) ++ map (FullStepRow_new FinalFullWidth N K base_state) (drop (2 ^ r) s),
                        ExpandedHashLength, 4))
      as [[[[Z1 hl1] li1]|]| | |] eqn:E; try discriminate.
    assert (Ha : length (map (FullStepRow_new FinalFullWidth N K base_state)
                           (take (2 ^ r) s)) = 2 ^ r) by (by rewrite length_map).
    assert (Hb : length (map (FullStepRow_new FinalFullWidth N K base_state)
                           (drop (2 ^ r) s)) = 2 ^ r) by (by rewrite length_map).
    destruct (passes_app_inv r _ _ _ _ _ _ _ Ha Hb E) as (x & y & Ex & Ey & ->).
    destruct (passes_state r _ _ _ _ _ _ Ex) as [-> ->].
    pose proof (IH _ _ _ _ Hl1 Ex) as Hx. pose proof (IH _ _ _ _ Hl2 Ey) as Hy.
    apply verify_level_pair_inv in Hp as (Hcol & Hord & Hdis & Hv).
    injection Hv as ->. by constructor.
Qed.

Lemma IsValidSolution_tree (soln : list Z) :
  IsValidSolution base_state soln = Value true <->
  exists v, valid_tree base_state K soln v /\ IsZero v (hashLen_at K) = true.
Proof.
  unfold IsValidSolution. cbv zeta. rewrite (soln_size_pow2 K_small).
  split.
  - destruct (Nat.eqb_spec (length soln) (2 ^ K)) as [Hlen | Hlen]; cbn [negb];
      [| discriminate].
    rewrite (verify_levels_passes K)
      by (rewrite length_map, ?Hlen; pose proof (lt_pow2 K); lia).
    destruct (passes K (map (FullStepRow_new FinalFullWidth N K base_state) soln,
                        ExpandedHashLength, 4))
      as [[[[X hl] li]|]| | |] eqn:E; try discriminate.
    destruct X as [|X0 [|? ?]]; simpl; try discriminate.
    intros H. injection H as H.
    destruct (passes_state K _ _ _ _ _ _ E) as [-> ->].
    exists X0. split; [| done]. by apply (passes_valid_tree K soln X0 _ _ Hlen E).
  - intros (v & Hv & Hz).
    destruct (valid_tree_passes K soln v Hv) as [Hlen Hp].
    rewrite Hlen, Nat.eqb_refl. cbn [negb].
    rewrite (verify_levels_passes K)
      by (rewrite length_map, ?Hlen; pose proof (lt_pow2 K); lia).
    rewrite Hp. simpl. by rewrite Hz.
Qed.

(** X12. The level-by-level loop of IsValidSolution accepts exactly the
    leaf sequences of binary trees of height K in which, at every node, the
    rows of the two subtrees collide on CollisionByteLength bytes, the right
    one does not come before the left one, their indices are distinct, and
    the row merged at the root is zero on the bytes that remain. *)
Theorem X12_accepted_solutions_are_trees (soln : list Z) :
  IsValidSolution base_state soln = Value true <->
  exists v, valid_tree base_state K soln v /\ IsZero v (hashLen_at K) = true.
Proof. apply IsValidSolution_tree. Qed.

Lemma valid_tree_width (r : nat) (s v : list Z) :
  valid_tree base_state r s v -> r <= K -> length v = FinalFullWidth.
Proof.
  induction 1 as [i | r s1 s2 v1 v2 _ IH1 _ IH2 Hcol Hord Hdis]; intros Hr.
  - pose proof (FinalFullWidth_holds 0 ltac:(lia)) as HW.
    rewrite hashLen_at_0 in HW. change (lenIndices_at 0) with 4 in HW.
    by destruct (FullStepRow_new_spec base_state FinalFullWidth i HW) as (Hl & _).
  - pose proof (FinalFullWidth_holds r ltac:(lia)) as HW.
    pose proof (FinalFullWidth_holds (S r) Hr) as HW'.
    pose proof (hashLen_at_ge r ltac:(lia)) as Hge.
    rewrite hashLen_at_succ, lenIndices_at_S in HW' by lia.
    apply merge_bytes; rewrite ?IH1, ?IH2 by lia; unfold lenIndices_at in *; lia.
Qed.

Lemma valid_tree_indices (r : nat) (s v : list Z) :
  valid_tree base_state r s v -> r <= K ->
  Forall (fun i => (0 <= i < 2 ^ 32)%Z) s ->
  GetIndices v (hashLen_at r) (lenIndices_at r) = s /\ NoDup s.
Proof.
  induction 1 as [i | r s1 s2 v1 v2 H1 IH1 H2 IH2 Hcol Hord Hdis]; intros Hr Hrange.
  - pose proof (FinalFullWidth_holds 0 ltac:(lia)) as HW.
    rewrite hashLen_at_0 in *. change (lenIndices_at 0) with 4 in *.
    split; [| apply NoDup_singleton].
    apply GetIndices_leaf; [done |]. by apply Forall_inv in Hrange.
  - apply Forall_app in Hrange as [Hr1 Hr2].
    destruct (IH1 ltac:(lia) Hr1) as [Hg1 _]. destruct (IH2 ltac:(lia) Hr2) as [Hg2 _].
    pose proof (valid_tree_ordered r v1 v2 Hord Hdis) as Hlt.
    pose proof (FinalFullWidth_holds r ltac:(lia)) as HW.
    pose proof (FinalFullWidth_holds (S r) Hr) as HW'.
    pose proof (hashLen_at_ge r ltac:(lia)) as Hge.
    pose proof (valid_tree_width r s1 v1 H1 ltac:(lia)) as Hl1.
    pose proof (valid_tree_width r s2 v2 H2 ltac:(lia)) as Hl2.
    rewrite hashLen_at_succ, lenIndices_at_S in * by lia.
    split.
    + unfold lenIndices_at in *.
      rewrite GetIndices_merge by lia. rewrite Hlt. by rewrite Hg1, Hg2.
    + rewrite <- Hg1, <- Hg2. by apply DistinctIndices_iff.
Qed.

(** X13. A solution that IsValidSolution accepts lists exactly 2^K indices
    and no index twice. *)
Theorem X13_accepted_solutions_are_distinct (soln : list Z) :
  Forall (fun i => (0 <= i < 2 ^ 32)%Z) soln ->
  IsValidSolution base_state soln = Value true ->
  length soln = 2 ^ K /\ NoDup soln.
Proof.
  intros Hrange Hv. apply IsValidSolution_tree in Hv as (v & Hv & _).
  split.
  - by destruct (valid_tree_passes K soln v Hv).
  - by destruct (valid_tree_indices K soln v Hv ltac:(lia) Hrange).
Qed.

Lemma valid_tree_xor (r : nat) (s v : list Z) :
  valid_tree base_state r s v -> r <= K ->
  (forall x, x < hashLen_at r ->
     byte_at v x
     = xor_all (map (fun i => byte_at (FullStepRow_new FinalFullWidth N K base_state i)
                                (r * CollisionByteLength + x)) s)) /\
  (forall x, x < r * CollisionByteLength ->
     xor_all (map (fun i => byte_at (FullStepRow_new FinalFullWidth N K base_state i) x) s)
     = 0%Z).
Proof.
  induction 1 as [i | r s1 s2 v1 v2 H1 IH1 H2 IH2 Hcol Hord Hdis]; intros Hr.
  - split; [| intros x Hx; lia].
    intros x Hx. simpl. by rewrite Z.lxor_0_r.
  - destruct (IH1 ltac:(lia)) as [IH1a IH1b]. destruct (IH2 ltac:(lia)) as [IH2a IH2b].
    pose proof (FinalFullWidth_holds r ltac:(lia)) as HW.
    pose proof (FinalFullWidth_holds (S r) Hr) as HW'.
    pose proof (hashLen_at_ge r ltac:(lia)) as Hge.
    pose proof (valid_tree_width r s1 v1 H1 ltac:(lia)) as Hl1.
    pose proof (valid_tree_width r s2 v2 H2 ltac:(lia)) as Hl2.
    rewrite hashLen_at_succ, lenIndices_at_S in * by lia.
    split.
    + intros x Hx.
      destruct (merge_bytes FinalFullWidth v1 v2 (hashLen_at r) (lenIndices_at r)
                  CollisionByteLength) as (_ & Hb & _);
        [unfold lenIndices_at in *; lia.. |].
      rewrite Hb by done. rewrite IH1a, IH2a by lia.
      rewrite map_app, xor_all_app.
      f_equal; f_equal; apply map_ext; intros i; f_equal; lia.
    + intros x Hx. rewrite map_app, xor_all_app.
      destruct (decide (x < r * CollisionByteLength)) as [Hlt | Hge'].
      * by rewrite IH1b, IH2b.
      * assert (Hy : x - r * CollisionByteLength < CollisionByteLength) by lia.
        pose proof (IH1a (x - r * CollisionByteLength) ltac:(lia)) as E1.
        pose proof (IH2a (x - r * CollisionByteLength) ltac:(lia)) as E2.
        replace (r * CollisionByteLength + (x - r * CollisionByteLength)) with x in E1, E2
          by lia.
        rewrite <- E1, <- E2.
        rewrite (proj1 (HasCollision_spec v1 v2 CollisionByteLength) Hcol) by done.
        apply Z.lxor_nilpotent.
Qed.

(** X14. In a solution that IsValidSolution accepts the hashes of the 2^K
    indices XOR to zero on all of their ExpandedHashLength bytes. *)
Theorem X14_accepted_solutions_xor_to_zero (soln : list Z) :
  IsValidSolution base_state soln = Value true ->
  forall x, x < ExpandedHashLength ->
    xor_all (map (fun i => byte_at (StepRow_new FinalFullWidth N K base_state i) x) soln)
    = 0%Z.
Proof.
  intros Hv x Hx. apply IsValidSolution_tree in Hv as (v & Hv & Hz).
  destruct (valid_tree_xor K soln v Hv ltac:(lia)) as [Ha Hb].
  pose proof (FinalFullWidth_holds 0 ltac:(lia)) as HW.
  rewrite hashLen_at_0 in HW. change (lenIndices_at 0) with 4 in HW.
  assert (Hleaf : forall y, y < ExpandedHashLength ->
            map (fun i => byte_at (StepRow_new FinalFullWidth N K base_state i) y) soln
            = map (fun i => byte_at (FullStepRow_new FinalFullWidth N K base_state i) y) soln).
  { intros y Hy. apply map_ext. intros i.
    destruct (FullStepRow_new_spec base_state FinalFullWidth i HW) as (_ & Hag & _).
    symmetry. by apply Hag. }
  rewrite Hleaf by done.
  destruct (decide (x < K * CollisionByteLength)) as [Hlt | Hge]; [by apply Hb |].
  assert (Hy : x - K * CollisionByteLength < hashLen_at K).
  { rewrite hashLen_at_K. unfold ExpandedHashLength in Hx. nia. }
  pose proof (Ha _ Hy) as E.
  replace (K * CollisionByteLength + (x - K * CollisionByteLength)) with x in E by lia.
  rewrite <- E. by apply (proj1 (IsZero_spec v (hashLen_at K)) Hz).
Qed.

Lemma valid_tree_least (r : nat) (s v : list Z) :
  valid_tree base_state r s v -> r <= K ->
  Forall (fun i => (0 <= i < 2 ^ 32)%Z) s ->
  forall i, In i s -> (hd 0%Z s <= i)%Z.
Proof.
  induction 1 as [i0 | r s1 s2 v1 v2 H1 IH1 H2 IH2 Hcol Hord Hdis]; intros Hr Hrange i Hi.
  - destruct Hi as [<- | []]. simpl. lia.
  - apply Forall_app in Hrange as [Hr1 Hr2].
    destruct (valid_tree_indices r s1 v1 H1 ltac:(lia) Hr1) as [Hg1 _].
    destruct (valid_tree_indices r s2 v2 H2 ltac:(lia) Hr2) as [Hg2 _].
    assert (Hge : 1 <= lenIndices_at r) by (pose proof (lenIndices_at_ge r); lia).
    destruct (GetIndices_head v1 (hashLen_at r) (lenIndices_at r) Hge) as [t1 Ht1].
    destruct (GetIndices_head v2 (hashLen_at r) (lenIndices_at r) Hge) as [t2 Ht2].
    rewrite Hg1 in Ht1. rewrite Hg2 in Ht2.
    unfold IndicesBefore in Hord. apply Z.ltb_ge in Hord.
    assert (Hhd : hd 0%Z (s1 ++ s2) = hd 0%Z s1) by (by rewrite Ht1).
    rewrite Hhd.
    apply in_app_or in Hi as [Hi | Hi]; [by apply IH1; [lia | |] |].
    specialize (IH2 ltac:(lia) Hr2 i Hi).
    rewrite Ht1, Ht2 in *. simpl in *. lia.
Qed.

(** X15. In a solution that IsValidSolution accepts the first index is the
    smallest one. *)
Theorem X15_accepted_solutions_start_with_least (soln : list Z) :
  Forall (fun i => (0 <= i < 2 ^ 32)%Z) soln ->
  IsValidSolution base_state soln = Value true ->
  forall i, In i soln -> (hd 0%Z soln <= i)%Z.
Proof.
  intros Hrange Hv. apply IsValidSolution_tree in Hv as (v & Hv & _).
  by apply (valid_tree_least K soln v).
Qed.

End Trees.

(** ** Sorted lists and the pairs that a scan visits *)

Lemma memcmp_squeeze (a b x : list Z) (n : nat) :
  forall off,
    (forall p, off <= p < off + n -> byte_at a p = byte_at b p) ->
    memcmp_from x a off n <> Lt -> memcmp_from b x off n <> Lt ->
    forall p, off <= p < off + n -> byte_at x p = byte_at a p.
Proof.
  induction n as [|n IH]; intros off Hab Hxa Hbx p Hp; [lia |].
  cbn [memcmp_from] in Hxa, Hbx.
  pose proof (Hab off ltac:(lia)) as Hoff.
  destruct (Z.compare_spec (byte_at x off) (byte_at a off)) as [Heq | Hlt | Hgt]; [| done |].
  - rewrite <- Hoff, Heq, Z.compare_refl in Hbx.
    destruct (decide (p = off)) as [-> | Hne]; [done |].
    apply (IH (S off)); [intros; apply Hab; lia | done | done | lia].
  - rewrite <- Hoff in Hbx.
    destruct (Z.compare_spec (byte_at a off) (byte_at x off)); [lia | done | lia].
Qed.

Lemma sorted_between (c : nat) (X : list (list Z)) (p t q : nat) :
  StronglySorted (fun a b => CompareSR c b a = false) X ->
  p <= t <= q -> q < length X ->
  HasCollision (row_at X p) (row_at X q) c = true ->
  HasCollision (row_at X p) (row_at X t) c = true.
Proof.
  intros Hs Ht Hq Hcol.
  destruct (decide (t = p)) as [-> | Hne1]; [apply HasCollision_refl |].
  destruct (decide (t = q)) as [-> | Hne2]; [done |].
  assert (Hrow : forall i, i < length X -> X !! i = Some (row_at X i)).
  { intros i Hi. unfold row_at. by destruct (lookup_lt_is_Some_2 X i Hi) as [x ->]. }
  assert (Hord : forall i j, i < j -> j < length X ->
            CompareSR c (row_at X j) (row_at X i) = false).
  { intros i j Hij Hj. rewrite <- (take_drop j X) in Hs.
    apply (StronglySorted_app_1_elem_of _ _ _ (row_at X i) (row_at X j) Hs).
    - apply list_elem_of_lookup. exists i. rewrite lookup_take_lt by done. apply Hrow. lia.
    - apply list_elem_of_lookup. exists 0. rewrite lookup_drop, Nat.add_0_r. by apply Hrow. }
  pose proof (Hord p t ltac:(lia) ltac:(lia)) as H1.
  pose proof (Hord t q ltac:(lia) ltac:(lia)) as H2.
  unfold CompareSR in H1, H2.
  apply HasCollision_sym, HasCollision_spec. intros y Hy.
  apply (memcmp_squeeze (row_at X p) (row_at X q) (row_at X t) c 0).
  - intros y' Hy'. apply (proj1 (HasCollision_spec _ _ _) Hcol). lia.
  - by destruct (memcmp_from (row_at X t) (row_at X p) 0 c).
  - by destruct (memcmp_from (row_at X q) (row_at X t) 0 c).
  - lia.
Qed.

Lemma run_length_pairwise (X : list (list Z)) (clen i l m : nat) :
  i < length X ->
  l < run_length X clen i 1 (length X) -> m < run_length X clen i 1 (length X) ->
  HasCollision (row_at X (i + l)) (row_at X (i + m)) clen = true.
Proof.
  intros Hi Hl Hm.
  destruct (run_length_bounds X clen i Hi) as (H1 & H2 & _ & Hrun).
  rewrite take_drop_rows in Hrun by done.
  assert (Hhead : forall l, l < run_length X clen i 1 (length X) ->
            HasCollision (row_at X i) (row_at X (i + l)) clen = true).
  { intros l' Hl'. rewrite List.Forall_forall in Hrun. apply Hrun.
    apply in_map, in_seq. lia. }
  eapply HasCollision_trans; [apply HasCollision_sym |]; by apply Hhead.
Qed.

(** A run that reaches the first row of a stretch of colliding rows reaches
    its last row. *)
Lemma run_covers (X : list (list Z)) (clen i p q : nat) :
  i <= p -> p < q -> q < length X ->
  (forall t, p <= t <= q -> HasCollision (row_at X p) (row_at X t) clen = true) ->
  p < i + run_length X clen i 1 (length X) ->
  q < i + run_length X clen i 1 (length X).
Proof.
  intros Hip Hpq Hq Hbetween Hp.
  destruct (decide (q < i + run_length X clen i 1 (length X))) as [| Hge]; [done |].
  exfalso.
  assert (Hi : i < length X) by lia.
  set (j := run_length X clen i 1 (length X)) in *.
  pose proof (run_length_stops X clen i (length X) 1 ltac:(lia)) as Hstop.
  fold j in Hstop. specialize (Hstop ltac:(lia)).
  pose proof (run_length_pairwise X clen i 0 (p - i) Hi) as Hhead.
  fold j in Hhead. specialize (Hhead ltac:(destruct (run_length_bounds X clen i Hi); lia) ltac:(lia)).
  rewrite Nat.add_0_r in Hhead. replace (i + (p - i)) with p in Hhead by lia.
  rewrite (HasCollision_trans _ _ _ _ Hhead (Hbetween (i + j) ltac:(lia))) in Hstop.
  done.
Qed.

Lemma pair_loop_In (j l m : nat) : l < m -> m < j -> In (l, m) (pair_loop j).
Proof.
  intros Hlm Hm. unfold pair_loop. apply in_flat_map. exists l.
  split; [apply in_seq; lia |]. apply in_map, in_seq. lia.
Qed.

Lemma foldl_hit {A B : Type} (P : A -> Prop) (f : A -> B -> A) (x : B) (l : list B) :
  In x l -> (forall a y, P a -> P (f a y)) -> (forall a, P (f a x)) ->
  forall a, P (foldl f a l).
Proof.
  intros Hin Hmono Hhit. induction l as [|y l IH]; intros a; [destruct Hin |].
  simpl. destruct Hin as [-> | Hin]; [| by apply IH].
  apply foldl_invariant; [| apply Hhit]. intros z b _. apply Hmono.
Qed.

Lemma fresh_round_visits (produce : list Z -> list Z -> list (list Z)) (c : nat)
    (X : list (list Z)) (p q : nat) (x : list Z) :
  p < q -> q < length X ->
  (forall t, p <= t <= q -> HasCollision (row_at X p) (row_at X t) c = true) ->
  In x (produce (row_at X p) (row_at X q)) ->
  forall fuel i, length X - i <= fuel -> i <= p ->
    In x (fresh_round produce c (drop i X)).
Proof.
  intros Hpq Hq Hbetween Hx.
  induction fuel as [|fuel IH]; intros i Hfuel Hip; [lia |].
  assert (Hi : i < length X) by lia.
  destruct (run_length_bounds X c i Hi) as (Hj1 & Hj2 & Hgroup & _).
  set (j := run_length X c i 1 (length X)) in *.
  unfold fresh_round. rewrite Hgroup. cbn [flat_map]. apply in_or_app.
  destruct (decide (p < i + j)) as [Hin | Hout].
  - left. pose proof (run_covers X c i p q Hip Hpq Hq Hbetween Hin) as Hqin.
    rewrite <- pair_loop_merges by done.
    apply in_flat_map. exists (p - i, q - i).
    split; [apply pair_loop_In; lia |]. cbn [fst snd].
    by replace (i + (p - i)) with p by lia; replace (i + (q - i)) with q by lia.
  - right. apply IH; lia.
Qed.

Lemma final_loop_visits (P : list (list Z) -> Prop) (hashLen : nat)
    (emit : list (list Z) -> nat -> nat -> list (list Z) -> list (list Z))
    (X : list (list Z)) (p q : nat) :
  (forall log l, cancelled log l = false) ->
  (forall p' q' out, P out -> P (emit X p' q' out)) ->
  (forall out, P (emit X p q out)) ->
  p < q -> q < length X ->
  (forall t, p <= t <= q -> HasCollision (row_at X p) (row_at X t) hashLen = true) ->
  forall fuel i out,
    length X - i <= fuel -> i <= p \/ P out ->
    returns (final_loop hashLen emit fuel X i out) P.
Proof.
  intros Hnever Hmono Hhit Hpq Hq Hbetween.
  induction fuel as [|fuel IH]; intros i out Hfuel Hstate; cbn [final_loop].
  - apply returns_ret. destruct Hstate as [Hip | HP]; [lia | done].
  - destruct (i <? length X - 1) eqn:E.
    + apply Nat.ltb_lt in E.
      apply (returns_bind _ _ (fun _ => True)); [by apply throw_if_returns |]. intros _ _.
      assert (Hi : i < length X) by lia.
      destruct (run_length_bounds X hashLen i Hi) as (Hj1 & Hj2 & _).
      set (j := run_length X hashLen i 1 (length X)) in *.
      apply IH; [lia |].
      destruct Hstate as [Hip | HP].
      * destruct (decide (p < i + j)) as [Hin | Hout]; [| left; lia].
        right. pose proof (run_covers X hashLen i p q Hip Hpq Hq Hbetween Hin) as Hqin.
        apply (foldl_hit P _ (p - i, q - i)).
        -- apply pair_loop_In; lia.
        -- intros a [l m] Ha. by apply Hmono.
        -- intros a. cbn [fst snd].
           replace (i + (p - i)) with p by lia. replace (i + (q - i)) with q by lia.
           apply Hhit.
      * right. apply foldl_invariant; [| done]. intros [l m] a _ Ha. by apply Hmono.
    + apply Nat.ltb_ge in E. apply returns_ret.
      destruct Hstate as [Hip | HP]; [lia | done].
Qed.

Lemma merge_agree (W W' : nat) (a a' b b' : list Z) (len m trim : nat) :
  1 <= m -> trim <= len ->
  len - trim + 2 * (4 * m) <= W -> len - trim + 2 * (4 * m) <= W' ->
  len + 4 * m <= length a -> len + 4 * m <= length b ->
  len + 4 * m <= length a' -> len + 4 * m <= length b' ->
  agree (len + 4 * m) a a' -> agree (len + 4 * m) b b' ->
  agree (len - trim + 2 * (4 * m))
    (FullStepRow_merge W a b len (4 * m) trim)
    (FullStepRow_merge W' a' b' len (4 * m) trim).
Proof.
  intros Hm Ht HW HW' Ha Hb Ha' Hb' Haa Hbb x Hx.
  destruct (merge_bytes W a b len (4 * m) trim Ht HW Ha Hb) as (_ & Hx1 & Hf1 & Hs1).
  destruct (merge_bytes W' a' b' len (4 * m) trim Ht HW' Ha' Hb') as (_ & Hx2 & Hf2 & Hs2).
  rewrite <- (IndicesBefore_agree (len + 4 * m) len (4 * m) a a' b b' Haa Hbb ltac:(lia))
    in Hf2, Hs2.
  destruct (decide (x < len - trim)) as [Hlo | Hhi].
  - rewrite Hx1, Hx2 by done. by rewrite Haa, Hbb by lia.
  - destruct (decide (x < len - trim + 4 * m)) as [Hmid | Hlast].
    + replace x with (len - trim + (x - (len - trim))) by lia.
      rewrite Hf1, Hf2 by lia.
      destruct (IndicesBefore a b len (4 * m)); [apply Haa | apply Hbb]; lia.
    + replace x with (len - trim + 4 * m + (x - (len - trim + 4 * m))) by lia.
      rewrite Hs1, Hs2 by lia.
      destruct (IndicesBefore a b len (4 * m)); [apply Hbb | apply Haa]; lia.
Qed.

Lemma indices_eqb_eq (s t : list Z) : indices_eqb s t = true -> s = t.
Proof.
  revert t. induction s as [|x s IH]; intros [|y t]; simpl; try done.
  intros H. apply andb_true_iff in H as [Hxy Hst].
  apply Z.eqb_eq in Hxy. subst. f_equal. by apply IH.
Qed.

Lemma set_insert_mono (solns : list (list Z)) (s x : list Z) :
  In x solns -> In x (set_insert solns s).
Proof.
  intros Hx. unfold set_insert. destruct (existsb _ _); [done |].
  apply in_or_app. by left.
Qed.

Lemma set_insert_In (solns : list (list Z)) (s : list Z) : In s (set_insert solns s).
Proof.
  unfold set_insert. destruct (existsb (indices_eqb s) solns) eqn:E.
  - apply existsb_exists in E as (t & Ht & Heq). apply indices_eqb_eq in Heq. by subst.
  - apply in_or_app. right. by left.
Qed.

Lemma for_each_collect {A : Type} (f : A -> list Z) (label : EhSolverCancelCheck)
    (values : list A) :
  (forall log l, cancelled log l = false) ->
  forall X0,
    returns (for_each values
               (fun x X => let X := X ++ [f x] in
                           throw_if cancelled label ;;; solver_ret X) X0)
      (fun X => X = X0 ++ map f values).
Proof.
  intros Hnever. induction values as [|x values IH]; intros X0; cbn [for_each].
  - apply returns_ret. by rewrite app_nil_r.
  - eapply returns_bind.
    + cbv zeta. apply (returns_bind _ _ (fun _ => True)); [by apply throw_if_returns |].
      intros _ _. by apply (returns_ret _ (fun X => X = X0 ++ [f x])).
    + intros X ->. eapply returns_weaken; [apply IH |].
      intros X ->. by rewrite <- app_assoc.
Qed.

Lemma rounds_invariant (I : nat -> list (list Z) -> Prop)
    (round : list (list Z) * nat * nat -> solver (list (list Z) * nat * nat)) :
  (forall r X, S r < K -> I r X ->
     returns (round (X, hashLen_at r, lenIndices_at r))
       (fun st => I (S r) st.1.1 /\ st.1.2 = hashLen_at (S r) /\
                  st.2 = lenIndices_at (S r))) ->
  forall n r X,
    n + S r = K -> I r X ->
    returns (rounds round n (S r) (X, hashLen_at r, lenIndices_at r))
      (fun st => exists r', r' < K /\ I r' st.1.1 /\
                            st.1.2 = hashLen_at r' /\ st.2 = lenIndices_at r' /\
                            (r' = K - 1 \/ st.1.1 = [])).
Proof.
  intros Hround.
  induction n as [|n IH]; intros r X Hn HX; cbn [rounds].
  - apply returns_ret. exists r. cbn [fst snd].
    split; [lia |]. split; [done |]. split; [done |]. split; [done |]. left. lia.
  - destruct (S r <? K) eqn:E1; [| apply Nat.ltb_ge in E1; lia]. apply Nat.ltb_lt in E1.
    destruct (0 <? length X) eqn:E2; cbn [andb].
    + eapply returns_bind; [by apply (Hround r X E1 HX) |].
      intros [[X' hl'] li'] (HX' & Hhl & Hli). cbn [fst snd] in *. subst hl' li'.
      replace (S r + 1) with (S (S r)) by lia. apply IH; [lia | done].
    + apply Nat.ltb_ge in E2. apply returns_ret. exists r. cbn [fst snd].
      split; [lia |]. split; [done |]. split; [done |]. split; [done |].
      right. destruct X; [done | simpl in E2; lia].
Qed.

(** ** BasicSolve finds every solution *)

Lemma valid_tree_sub (base_state : eh_HashState) (r : nat) (s v : list Z) :
  valid_tree base_state r s v ->
  forall r', r' <= r ->
    exists s' v', valid_tree base_state r' s' v' /\ forall i, In i s' -> In i s.
Proof.
  induction 1 as [i | r s1 s2 v1 v2 H1 IH1 H2 IH2 Hcol Hord Hdis]; intros r' Hr'.
  - replace r' with 0 by lia. eexists [i], _. split; [constructor | done].
  - destruct (decide (r' = S r)) as [-> | Hne].
    + eexists (s1 ++ s2), _. split; [by constructor | done].
    + destruct (IH1 r' ltac:(lia)) as (s' & v' & Hv' & Hsub).
      exists s', v'. split; [done |]. intros i Hi. apply in_or_app. left. by apply Hsub.
Qed.

Section Completeness.

Variable base_state : eh_HashState.

Hypothesis K_pos : 1 <= K.
Hypothesis K_small : K < 32.
Hypothesis index_bits : CollisionBitLength + 1 < 32.
Hypothesis FullWidth_fits :
  forall r, r < K -> hashLen_at r + lenIndices_at r <= FullWidth.
Hypothesis FinalFullWidth_fits :
  forall r, r < K -> hashLen_at r + lenIndices_at r <= FinalFullWidth.
Hypothesis FinalFullWidth_final :
  hashLen_at (K - 1) + lenIndices_at K <= FinalFullWidth.

(** [std::sort] returns a permutation of its input in which no row comes
    before a row that the comparator puts first. *)
Hypothesis std_sort_permutation : forall cmp X, std_sort cmp X ≡ₚ X.
Hypothesis std_sort_sorted :
  forall len X,
    StronglySorted (fun a b => CompareSR len b a = false) (std_sort (CompareSR len) X).

(** The probe never asks to stop. *)
Hypothesis never_cancelled : forall log label, cancelled log label = false.

Lemma FinalFullWidth_all (r : nat) :
  r <= K -> hashLen_at r + lenIndices_at r <= FinalFullWidth.
Proof.
  intros Hr. destruct (decide (r < K)) as [Hlt | Hge]; [by apply FinalFullWidth_fits |].
  replace r with K by lia.
  pose proof (hashLen_at_S (K - 1) ltac:(lia)) as H.
  replace (S (K - 1)) with K in H by lia. lia.
Qed.

Lemma init_range (s : list Z) :
  Forall (fun i => (0 <= i < Z.of_nat init_size)%Z) s ->
  Forall (fun i => (0 <= i < 2 ^ 32)%Z) s.
Proof.
  intros H. eapply Forall_impl; [exact H |]. intros i Hi. cbv beta in Hi.
  rewrite (init_size_pow2 index_bits) in Hi.
  rewrite Nat2Z.inj_pow in Hi.
  assert ((2 ^ Z.of_nat (CollisionBitLength + 1) <= 2 ^ 32)%Z)
    by (apply Z.pow_le_mono_r; lia).
  simpl in *. lia.
Qed.

Lemma list_generation_covers :
  returns (for_each (seq 0 init_size)
             (fun i X =>
                let X := X ++ [FullStepRow_new FullWidth N K base_state (Z.of_nat i)] in
                throw_if cancelled ListGeneration ;;; solver_ret X) [])
    (covers base_state 0).
Proof.
  eapply returns_weaken;
    [apply (for_each_collect
              (fun i => FullStepRow_new FullWidth N K base_state (Z.of_nat i))
              ListGeneration (seq 0 init_size) never_cancelled []) |].
  intros X ->. rewrite app_nil_l. intros s v Hv Hrange.
  inversion Hv as [i Hs Hvv |]; subst.
  apply Forall_inv in Hrange.
  pose proof (FullWidth_fits 0 ltac:(lia)) as HW.
  pose proof (FinalFullWidth_fits 0 ltac:(lia)) as HW'.
  rewrite hashLen_at_0 in *. change (lenIndices_at 0) with 4 in *.
  exists (FullStepRow_new FullWidth N K base_state i).
  split; [| split].
  - replace i with (Z.of_nat (Z.to_nat i)) by lia.
    apply (in_map (fun j => FullStepRow_new FullWidth N K base_state (Z.of_nat j))).
    apply in_seq. lia.
  - by destruct (FullStepRow_new_spec base_state FullWidth i HW) as (-> & _).
  - by apply FullStepRow_new_agree.
Qed.

Lemma pair_positions (X : list (list Z)) (a b : list Z) :
  In a X -> In b X -> a <> b ->
  exists p q, p < q /\ q < length X /\
    ((row_at X p = a /\ row_at X q = b) \/ (row_at X p = b /\ row_at X q = a)).
Proof.
  intros Ha Hb Hne.
  apply list_elem_of_In, list_elem_of_lookup in Ha as [pa Hpa].
  apply list_elem_of_In, list_elem_of_lookup in Hb as [pb Hpb].
  pose proof (lookup_lt_Some _ _ _ Hpa) as Hla.
  pose proof (lookup_lt_Some _ _ _ Hpb) as Hlb.
  assert (Hra : row_at X pa = a) by (unfold row_at; by rewrite Hpa).
  assert (Hrb : row_at X pb = b) by (unfold row_at; by rewrite Hpb).
  destruct (lt_eq_lt_dec pa pb) as [[Hlt | Heq] | Hgt].
  - exists pa, pb. split; [done |]. split; [done |]. by left.
  - subst pb. congruence.
  - exists pb, pa. split; [done |]. split; [done |]. by right.
Qed.

(** The rows of the two halves of an accepted tree, as the solver holds them. *)
Lemma tree_pair_rows (r : nat) (X : list (list Z)) (s1 s2 v1 v2 : list Z) :
  r < K ->
  covers base_state r X ->
  valid_tree base_state r s1 v1 -> valid_tree base_state r s2 v2 ->
  Forall (fun i => (0 <= i < Z.of_nat init_size)%Z) (s1 ++ s2) ->
  HasCollision v1 v2 CollisionByteLength = true ->
  IndicesBefore v2 v1 (hashLen_at r) (lenIndices_at r) = false ->
  DistinctIndices v1 v2 (hashLen_at r) (lenIndices_at r) = true ->
  exists a1 a2,
    In a1 X /\ In a2 X /\ a1 <> a2 /\
    hashLen_at r + lenIndices_at r <= length a1 /\
    hashLen_at r + lenIndices_at r <= length a2 /\
    agree (hashLen_at r + lenIndices_at r) a1 v1 /\
    agree (hashLen_at r + lenIndices_at r) a2 v2 /\
    HasCollision a1 a2 CollisionByteLength = true /\
    DistinctIndices a1 a2 (hashLen_at r) (lenIndices_at r) = true /\
    DistinctIndices a2 a1 (hashLen_at r) (lenIndices_at r) = true /\
    IndicesBefore a1 a2 (hashLen_at r) (lenIndices_at r) = true /\
    IndicesBefore a2 a1 (hashLen_at r) (lenIndices_at r) = false /\
    GetIndices a1 (hashLen_at r) (lenIndices_at r) = s1 /\
    GetIndices a2 (hashLen_at r) (lenIndices_at r) = s2.
Proof.
  intros Hr HX H1 H2 Hrange Hcol Hord Hdis.
  apply Forall_app in Hrange as [Hr1 Hr2].
  destruct (HX s1 v1 H1 Hr1) as (a1 & Hin1 & Hlen1 & Hag1).
  destruct (HX s2 v2 H2 Hr2) as (a2 & Hin2 & Hlen2 & Hag2).
  pose proof (hashLen_at_ge r ltac:(lia)) as Hge.
  pose proof (lenIndices_at_ge r) as Hli.
  pose proof (valid_tree_ordered r v1 v2 Hord Hdis) as Hlt.
  destruct (valid_tree_indices base_state K_small FinalFullWidth_all r s1 v1 H1
              ltac:(lia) (init_range s1 Hr1)) as [Hg1 _].
  destruct (valid_tree_indices base_state K_small FinalFullWidth_all r s2 v2 H2
              ltac:(lia) (init_range s2 Hr2)) as [Hg2 _].
  assert (Hcol' : HasCollision a1 a2 CollisionByteLength = true).
  { rewrite (HasCollision_agree (hashLen_at r + lenIndices_at r) _ a1 v1 a2 v2); try done.
    lia. }
  assert (Hdis' : DistinctIndices a1 a2 (hashLen_at r) (lenIndices_at r) = true).
  { unfold lenIndices_at in *.
    by rewrite (DistinctIndices_agree (hashLen_at r + 4 * 2 ^ r) _ _ a1 v1 a2 v2). }
  assert (Hlt' : IndicesBefore a1 a2 (hashLen_at r) (lenIndices_at r) = true).
  { rewrite (IndicesBefore_agree (hashLen_at r + lenIndices_at r) _ _ a1 v1 a2 v2); try done.
    lia. }
  assert (Hord' : IndicesBefore a2 a1 (hashLen_at r) (lenIndices_at r) = false).
  { rewrite (IndicesBefore_agree (hashLen_at r + lenIndices_at r) _ _ a2 v2 a1 v1); try done.
    lia. }
  exists a1, a2.
  split; [done |]. split; [done |]. split.
  { intros ->. by rewrite Hlt' in Hord'. }
  split; [done |]. split; [done |]. split; [done |]. split; [done |]. split; [done |].
  split; [done |]. split; [by apply DistinctIndices_sym |].
  split; [done |]. split; [done |].
  unfold lenIndices_at in *.
  split.
  - by rewrite (GetIndices_agree (hashLen_at r + 4 * 2 ^ r) _ _ a1 v1).
  - by rewrite (GetIndices_agree (hashLen_at r + 4 * 2 ^ r) _ _ a2 v2).
Qed.

Lemma valid_node_inv (r : nat) (s v : list Z) :
  valid_tree base_state (S r) s v ->
  exists s1 s2 v1 v2,
    s = s1 ++ s2 /\
    v = FullStepRow_merge FinalFullWidth v1 v2 (hashLen_at r) (lenIndices_at r)
          CollisionByteLength /\
    valid_tree base_state r s1 v1 /\ valid_tree base_state r s2 v2 /\
    HasCollision v1 v2 CollisionByteLength = true /\
    IndicesBefore v2 v1 (hashLen_at r) (lenIndices_at r) = false /\
    DistinctIndices v1 v2 (hashLen_at r) (lenIndices_at r) = true.
Proof.
  intros Hv. inversion Hv as [| r0 s1 s2 v1 v2 H1 H2 Hcol Hord Hdis]; subst.
  by exists s1, s2, v1, v2.
Qed.

Lemma basic_round_covers (r : nat) (X : list (list Z)) :
  S r < K ->
  covers base_state r X ->
  returns (basic_round (X, hashLen_at r, lenIndices_at r))
    (fun st => covers base_state (S r) st.1.1 /\
               st.1.2 = hashLen_at (S r) /\ st.2 = lenIndices_at (S r)).
Proof.
  intros Hr HX.
  eapply returns_weaken;
    [apply (basic_round_refines X (hashLen_at r) (lenIndices_at r) never_cancelled) |].
  intros [[X' hl'] li'] (Hperm & -> & ->). cbn [fst snd].
  pose proof (hashLen_at_succ r ltac:(lia)) as Hhl.
  split; [| split; [lia | rewrite lenIndices_at_S; unfold lenIndices_at; lia]].
  intros s v Hv Hrange.
  apply valid_node_inv in Hv as (s1 & s2 & v1 & v2 & -> & -> & H1 & H2 & Hcol & Hord & Hdis).
  destruct (tree_pair_rows r X s1 s2 v1 v2 ltac:(lia) HX H1 H2 Hrange Hcol Hord Hdis)
    as (a1 & a2 & Hin1 & Hin2 & Hne & Hlen1 & Hlen2 & Hag1 & Hag2 & Hcol' & Hdis' & Hdis''
        & Hlt' & Hord' & _).
  set (Xs := std_sort (CompareSR CollisionByteLength) X) in *.
  assert (Hin1' : In a1 Xs).
  { apply list_elem_of_In. unfold Xs. rewrite std_sort_permutation. by apply list_elem_of_In. }
  assert (Hin2' : In a2 Xs).
  { apply list_elem_of_In. unfold Xs. rewrite std_sort_permutation. by apply list_elem_of_In. }
  pose proof (hashLen_at_ge r ltac:(lia)) as Hge.
  pose proof (pow2_pos r) as Hpow.
  pose proof (FullWidth_fits (S r) Hr) as HW.
  pose proof (FinalFullWidth_fits (S r) Hr) as HW'.
  pose proof (FinalFullWidth_fits r ltac:(lia)) as HWr.
  pose proof (valid_tree_width base_state K_small FinalFullWidth_all r s1 v1 H1 ltac:(lia))
    as Hl1.
  pose proof (valid_tree_width base_state K_small FinalFullWidth_all r s2 v2 H2 ltac:(lia))
    as Hl2.
  rewrite Hhl, lenIndices_at_S in HW, HW' |- *.
  unfold lenIndices_at in *.
  replace (4 * (2 * 2 ^ r)) with (2 * (4 * 2 ^ r)) in * by lia.
  assert (Hagree : agree (hashLen_at r - CollisionByteLength + 2 * (4 * 2 ^ r))
                     (FullStepRow_merge FullWidth a1 a2 (hashLen_at r) (4 * 2 ^ r)
                        CollisionByteLength)
                     (FullStepRow_merge FinalFullWidth v1 v2 (hashLen_at r) (4 * 2 ^ r)
                        CollisionByteLength)).
  { apply merge_agree; try done; lia. }
  assert (Hwidth : forall a b, hashLen_at r + 4 * 2 ^ r <= length a ->
            hashLen_at r + 4 * 2 ^ r <= length b ->
            length (FullStepRow_merge FullWidth a b (hashLen_at r) (4 * 2 ^ r)
                      CollisionByteLength) = FullWidth).
  { intros a b Ha Hb. by apply merge_bytes. }
  destruct (pair_positions Xs a1 a2 Hin1' Hin2' Hne)
    as (p & q & Hpq & Hq & [[Hp1 Hq1] | [Hp1 Hq1]]).
  - exists (FullStepRow_merge FullWidth a1 a2 (hashLen_at r) (4 * 2 ^ r) CollisionByteLength).
    split; [| split; [rewrite Hwidth by done; lia | done]].
    apply list_elem_of_In. rewrite Hperm. apply list_elem_of_In.
    rewrite <- (drop_0 Xs).
    apply (fresh_round_visits _ _ Xs p q _ Hpq Hq) with (fuel := length Xs); [| | lia | lia].
    + intros t Ht. apply sorted_between with (q := q); try done; [apply std_sort_sorted |].
      by rewrite Hp1, Hq1.
    + rewrite Hp1, Hq1. unfold basic_produce. rewrite Hdis'. by left.
  - exists (FullStepRow_merge FullWidth a2 a1 (hashLen_at r) (4 * 2 ^ r) CollisionByteLength).
    split; [| split; [rewrite Hwidth by done; lia |]].
    + apply list_elem_of_In. rewrite Hperm. apply list_elem_of_In.
      rewrite <- (drop_0 Xs).
      apply (fresh_round_visits _ _ Xs p q _ Hpq Hq) with (fuel := length Xs); [| | lia | lia].
      * intros t Ht. apply sorted_between with (q := q); try done; [apply std_sort_sorted |].
        rewrite Hp1, Hq1. by apply HasCollision_sym.
      * rewrite Hp1, Hq1. unfold basic_produce. rewrite Hdis''. by left.
    + eapply agree_trans; [| exact Hagree].
      apply (merge_swap_agree K_pos K_small index_bits FinalFullWidth_final); try done; lia.
Qed.

Lemma final_round_covers (X : list (list Z)) (soln : list Z) :
  covers base_state (K - 1) X ->
  Forall (fun i => (0 <= i < Z.of_nat init_size)%Z) soln ->
  IsValidSolution base_state soln = Value true ->
  returns (final_round (basic_final_emit (hashLen_at (K - 1)) (lenIndices_at (K - 1)))
             X (hashLen_at (K - 1)) [])
    (fun solns => In soln solns).
Proof.
  intros HX Hrange Hv.
  apply (IsValidSolution_tree base_state K_small) in Hv as (v & Hv & Hz).
  assert (HK : K = S (K - 1)) by lia.
  set (r := K - 1) in *.
  rewrite HK in Hv, Hz.
  apply valid_node_inv in Hv as (s1 & s2 & v1 & v2 & -> & -> & H1 & H2 & Hcol & Hord & Hdis).
  destruct (tree_pair_rows r X s1 s2 v1 v2 ltac:(lia) HX H1 H2 Hrange Hcol Hord Hdis)
    as (a1 & a2 & Hin1 & Hin2 & Hne & Hlen1 & Hlen2 & Hag1 & Hag2 & Hcol' & Hdis' & Hdis''
        & Hlt' & Hord' & Hg1 & Hg2).
  pose proof (hashLen_at_ge r ltac:(lia)) as Hge.
  pose proof (hashLen_at_succ r ltac:(lia)) as Hhl.
  pose proof (pow2_pos r) as Hpow.
  pose proof (FinalFullWidth_all r ltac:(lia)) as HWr.
  pose proof (FinalFullWidth_all (S r) ltac:(lia)) as HW'.
  pose proof FinalFullWidth_final as HWf. fold r in HWf. rewrite HK in HWf.
  pose proof (valid_tree_width base_state K_small FinalFullWidth_all r s1 v1 H1 ltac:(lia))
    as Hl1.
  pose proof (valid_tree_width base_state K_small FinalFullWidth_all r s2 v2 H2 ltac:(lia))
    as Hl2.
  rewrite Hhl, lenIndices_at_S in *.
  unfold lenIndices_at in *.
  (* the two rows collide on all of hashLen *)
  assert (Hfull : HasCollision a1 a2 (hashLen_at r) = true).
  { rewrite (HasCollision_agree (hashLen_at r + 4 * 2 ^ r) _ a1 v1 a2 v2) by (done || lia).
    rewrite (collision_split v1 v2
               (FullStepRow_merge FinalFullWidth v1 v2 (hashLen_at r) (4 * 2 ^ r)
                  CollisionByteLength) (hashLen_at r) CollisionByteLength Hge).
    - by rewrite Hcol, Hz.
    - by destruct (merge_bytes FinalFullWidth v1 v2 (hashLen_at r) (4 * 2 ^ r)
                     CollisionByteLength Hge ltac:(lia) ltac:(lia) ltac:(lia))
        as (_ & Hb & _). }
  set (Xs := std_sort (CompareSR (hashLen_at r)) X) in *.
  assert (Hin1' : In a1 Xs).
  { apply list_elem_of_In. unfold Xs. rewrite std_sort_permutation. by apply list_elem_of_In. }
  assert (Hin2' : In a2 Xs).
  { apply list_elem_of_In. unfold Xs. rewrite std_sort_permutation. by apply list_elem_of_In. }
  destruct (pair_positions Xs a1 a2 Hin1' Hin2' Hne) as (p & q & Hpq & Hq & Hrows).
  assert (HlenX : length Xs = length X)
    by (unfold Xs; apply Permutation_length, std_sort_permutation).
  unfold final_round.
  assert (Hguard : (1 <? length X) = true) by (apply Nat.ltb_lt; lia).
  rewrite Hguard. fold Xs.
  apply (returns_bind _ _ (fun _ => True)); [by apply throw_if_returns |]. intros _ _.
  assert (Hsoln : forall a b,
            (a = a1 /\ b = a2) \/ (a = a2 /\ b = a1) ->
            GetIndices (FullStepRow_merge FinalFullWidth a b (hashLen_at r) (4 * 2 ^ r) 0)
              (hashLen_at r) (2 * (4 * 2 ^ r)) = s1 ++ s2).
  { intros a b Hab.
    replace (2 * (4 * 2 ^ r)) with (4 * (2 * 2 ^ r)) by lia.
    rewrite <- (Nat.sub_0_r (hashLen_at r)) at 2.
    rewrite GetIndices_merge by (destruct Hab as [[-> ->] | [-> ->]]; lia).
    destruct Hab as [[-> ->] | [-> ->]].
    - by rewrite Hlt', Hg1, Hg2.
    - by rewrite Hord', Hg1, Hg2. }
  apply (final_loop_visits (fun solns => In (s1 ++ s2) solns) _ _ Xs p q never_cancelled);
    [| | exact Hpq | exact Hq | | lia | left; lia].
  - intros p' q' out Hout. cbv beta. unfold basic_final_emit. cbv zeta.
    destruct (DistinctIndices (row_at Xs p') (row_at Xs q') _ _);
      [by apply set_insert_mono | done].
  - intros out. cbv beta. unfold basic_final_emit. cbv zeta.
    destruct Hrows as [[-> ->] | [-> ->]].
    + rewrite Hdis'. rewrite Hsoln by (by left). apply set_insert_In.
    + rewrite Hdis''. rewrite Hsoln by (by right). apply set_insert_In.
  - intros t Ht. apply sorted_between with (q := q); try done; [apply std_sort_sorted |].
    destruct Hrows as [[-> ->] | [-> ->]]; [done | by apply HasCollision_sym].
Qed.

Lemma BasicSolve_complete (soln : list Z) :
  Forall (fun i => (0 <= i < Z.of_nat init_size)%Z) soln ->
  IsValidSolution base_state soln = Value true ->
  returns (BasicSolve base_state) (fun solns => In soln solns).
Proof.
  intros Hrange Hv. unfold BasicSolve.
  eapply returns_bind; [apply list_generation_covers |]. intros X HX. cbv beta.
  eapply returns_bind.
  - rewrite <- hashLen_at_0. change 4 with (lenIndices_at 0).
    apply (rounds_invariant (covers base_state) basic_round basic_round_covers (K - 1) 0 X);
      [lia | done].
  - intros [[X' hl'] li'] (r' & Hr' & HX' & Hhl & Hli & Hlast). cbn [fst snd] in *.
    subst hl' li'.
    destruct Hlast as [-> | ->]; [by apply final_round_covers |].
    exfalso.
    pose proof Hv as Hv'.
    apply (IsValidSolution_tree base_state K_small) in Hv' as (v & Hv' & _).
    destruct (valid_tree_sub base_state K soln v Hv' r' ltac:(lia)) as (s' & v' & Hs' & Hsub).
    destruct (HX' s' v' Hs') as (row & [] & _).
    rewrite Forall_forall in Hrange |- *. intros i Hi.
    apply Hrange. apply list_elem_of_In. apply Hsub. by apply list_elem_of_In.
Qed.

(** X16. BasicSolve is complete: for admissible parameters, a std::sort that
    sorts and a probe that never asks to stop, every index sequence over
    indices below init_size that IsValidSolution accepts is in the set that
    BasicSolve returns. *)
Theorem X16_basic_solve_finds_every_solution (soln : list Z) :
  Forall (fun i => (0 <= i < Z.of_nat init_size)%Z) soln ->
  IsValidSolution base_state soln = Value true ->
  returns (BasicSolve base_state) (fun solns => In soln solns).
Proof. apply BasicSolve_complete. Qed.

(** *** The indices of the solutions *)

Lemma list_generation_below :
  returns (for_each (seq 0 init_size)
             (fun i X =>
                let X := X ++ [FullStepRow_new FullWidth N K base_state (Z.of_nat i)] in
                throw_if cancelled ListGeneration ;;; solver_ret X) [])
    (rows_below 0).
Proof.
  eapply returns_weaken;
    [apply (for_each_collect
              (fun i => FullStepRow_new FullWidth N K base_state (Z.of_nat i))
              ListGeneration (seq 0 init_size) never_cancelled []) |].
  intros X ->. rewrite app_nil_l. intros row Hrow.
  apply in_map_iff in Hrow as (i & <- & Hi). apply in_seq in Hi.
  pose proof (FullWidth_fits 0 ltac:(lia)) as HW.
  rewrite hashLen_at_0 in *. change (lenIndices_at 0) with 4 in *.
  split.
  - by destruct (FullStepRow_new_spec base_state FullWidth (Z.of_nat i) HW) as (-> & _).
  - assert (Hi' : Forall (fun i => (0 <= i < Z.of_nat init_size)%Z) [Z.of_nat i])
      by (constructor; [lia | constructor]).
    rewrite GetIndices_leaf; [done | done |].
    by apply (Forall_inv (init_range _ Hi')).
Qed.

Lemma merge_below (WIDTH r : nat) (a b : list Z) (trim : nat) :
  trim <= hashLen_at r ->
  hashLen_at r - trim + 2 * lenIndices_at r <= WIDTH ->
  hashLen_at r + lenIndices_at r <= length a ->
  hashLen_at r + lenIndices_at r <= length b ->
  Forall (fun i => (0 <= i < Z.of_nat init_size)%Z)
    (GetIndices a (hashLen_at r) (lenIndices_at r)) ->
  Forall (fun i => (0 <= i < Z.of_nat init_size)%Z)
    (GetIndices b (hashLen_at r) (lenIndices_at r)) ->
  Forall (fun i => (0 <= i < Z.of_nat init_size)%Z)
    (GetIndices (FullStepRow_merge WIDTH a b (hashLen_at r) (lenIndices_at r) trim)
       (hashLen_at r - trim) (2 * lenIndices_at r)).
Proof.
  unfold lenIndices_at. intros Ht HW Ha Hb Hga Hgb.
  replace (2 * (4 * 2 ^ r)) with (4 * (2 * 2 ^ r)) by lia.
  rewrite GetIndices_merge by lia.
  apply Forall_app. by destruct (IndicesBefore a b (hashLen_at r) (4 * 2 ^ r)).
Qed.

Lemma basic_round_below (r : nat) (X : list (list Z)) :
  S r < K ->
  rows_below r X ->
  returns (basic_round (X, hashLen_at r, lenIndices_at r))
    (fun st => rows_below (S r) st.1.1 /\
               st.1.2 = hashLen_at (S r) /\ st.2 = lenIndices_at (S r)).
Proof.
  intros Hr HX.
  eapply returns_weaken;
    [apply (basic_round_refines X (hashLen_at r) (lenIndices_at r) never_cancelled) |].
  intros [[X' hl'] li'] (Hperm & -> & ->). cbn [fst snd].
  pose proof (hashLen_at_succ r ltac:(lia)) as Hhl.
  pose proof (hashLen_at_ge r ltac:(lia)) as Hge.
  pose proof (FullWidth_fits (S r) Hr) as HW.
  assert (Hli : lenIndices_at (S r) = 2 * lenIndices_at r)
    by (rewrite lenIndices_at_S; unfold lenIndices_at; lia).
  split; [| split; [lia | lia]].
  intros x Hx.
  apply list_elem_of_In in Hx. rewrite Hperm in Hx. apply list_elem_of_In in Hx.
  destruct (fresh_round_elem _ _ _ x Hx) as (a & b & Ha & Hb & Hcol & Hprod).
  apply list_elem_of_In in Ha, Hb.
  rewrite std_sort_permutation in Ha, Hb. apply list_elem_of_In in Ha, Hb.
  destruct (HX a Ha) as [Hla Hga]. destruct (HX b Hb) as [Hlb Hgb].
  unfold basic_produce in Hprod.
  destruct (DistinctIndices a b (hashLen_at r) (lenIndices_at r)); [| done].
  destruct Hprod as [<- | []].
  rewrite Hhl, Hli in *.
  split.
  - destruct (merge_bytes FullWidth a b (hashLen_at r) (lenIndices_at r) CollisionByteLength)
      as (-> & _); lia.
  - apply (merge_below FullWidth r a b CollisionByteLength);
      [lia | lia | exact Hla | exact Hlb | exact Hga | exact Hgb].
Qed.

Lemma final_round_below (r : nat) (X : list (list Z)) :
  rows_below r X -> r = K - 1 \/ X = [] ->
  returns (final_round (basic_final_emit (hashLen_at r) (lenIndices_at r)) X (hashLen_at r) [])
    (fun solns => forall s, In s solns ->
                    Forall (fun i => (0 <= i < Z.of_nat init_size)%Z) s).
Proof.
  intros HX Hr. unfold final_round.
  destruct (1 <? length X) eqn:E; [| apply returns_ret; by intros s []].
  apply Nat.ltb_lt in E.
  destruct Hr as [-> | ->]; [| simpl in E; lia].
  apply (returns_bind _ _ (fun _ => True)); [by apply throw_if_returns |]. intros _ _.
  set (Xs := std_sort (CompareSR (hashLen_at (K - 1))) X).
  apply (final_loop_invariant K_pos K_small index_bits FinalFullWidth_final never_cancelled);
    [| by intros s []].
  intros p q out Hp Hq Hcol Hout. unfold basic_final_emit. cbv zeta.
  destruct (DistinctIndices (row_at Xs p) (row_at Xs q) _ _); [| done].
  intros s Hs. apply set_insert_elem in Hs as [Hs | ->]; [by apply Hout |].
  apply (std_sort_In std_sort_permutation) in Hp, Hq.
  destruct (HX _ Hp) as [Hla Hga]. destruct (HX _ Hq) as [Hlb Hgb].
  pose proof FinalFullWidth_final as HWf.
  assert (Hli : lenIndices_at K = 2 * lenIndices_at (K - 1)).
  { replace K with (S (K - 1)) at 1 by lia. rewrite lenIndices_at_S.
    unfold lenIndices_at. lia. }
  assert (Ht : 0 <= hashLen_at (K - 1)) by lia.
  assert (HW : hashLen_at (K - 1) - 0 + 2 * lenIndices_at (K - 1) <= FinalFullWidth) by lia.
  pose proof (merge_below FinalFullWidth (K - 1) (row_at Xs p) (row_at Xs q) 0
                Ht HW Hla Hlb Hga Hgb) as Hm.
  rewrite Nat.sub_0_r in Hm. exact Hm.
Qed.

Lemma BasicSolve_below :
  returns (BasicSolve base_state)
    (fun solns => forall s, In s solns ->
                    Forall (fun i => (0 <= i < Z.of_nat init_size)%Z) s).
Proof.
  unfold BasicSolve.
  eapply returns_bind; [apply list_generation_below |]. intros X HX. cbv beta.
  eapply returns_bind.
  - rewrite <- hashLen_at_0. change 4 with (lenIndices_at 0).
    apply (rounds_invariant rows_below basic_round basic_round_below (K - 1) 0 X);
      [lia | done].
  - intros [[X' hl'] li'] (r' & Hr' & HX' & Hhl & Hli & Hlast). cbn [fst snd] in *.
    subst hl' li'. by apply final_round_below.
Qed.

(** X17. Every index of every sequence that BasicSolve returns is below
    init_size = 2^(CollisionBitLength + 1). *)
Theorem X17_basic_solutions_are_below_init_size :
  returns (BasicSolve base_state)
    (fun solns => forall s, In s solns ->
                    Forall (fun i => (0 <= i < Z.of_nat init_size)%Z) s).
Proof. apply BasicSolve_below. Qed.

End Completeness.

(** ** Cancellation *)

Lemma probed_trans (log log' log'' : probe_log) :
  probed log log' -> probed log' log'' -> probed log log''.
Proof. intros H1 H2. induction H2; [done | by constructor]. Qed.

Lemma polite_ret {A : Type} (a : A) : polite (solver_ret a).
Proof. intros log. constructor. Qed.

Lemma polite_fail {A : Type} : polite (fun log => (@AssertionFailed A, log)).
Proof. intros log. constructor. Qed.

Lemma polite_assert (c : bool) : polite (solver_assert c).
Proof. intros log. unfold solver_assert. destruct c; constructor. Qed.

Lemma polite_throw_if (label : EhSolverCancelCheck) : polite (throw_if cancelled label).
Proof.
  intros log. unfold throw_if. destruct (cancelled log label) eqn:E.
  - exists label, log. split; [done |]. split; [constructor | done].
  - constructor; [constructor | done].
Qed.

Lemma polite_bind {A B : Type} (m : solver A) (f : A -> solver B) :
  polite m -> (forall a, polite (f a)) -> polite (solver_bind m f).
Proof.
  intros Hm Hf log. unfold solver_bind. specialize (Hm log).
  destruct (m log) as [[a | |] log']; [| done | done].
  specialize (Hf a log'). destruct (f a log') as [[b | |] log''].
  - by apply (probed_trans log log' log'').
  - destruct Hf as (label & lg & -> & Hp & Hc). exists label, lg.
    split; [done |]. split; [by apply (probed_trans log log' lg) | done].
  - by apply (probed_trans log log' log'').
Qed.

Lemma polite_for_each {A S : Type} (values : list A) (body : A -> S -> solver S) :
  (forall x s, polite (body x s)) -> forall s, polite (for_each values body s).
Proof.
  intros Hbody. induction values as [|x values IH]; intros s; cbn [for_each].
  - apply polite_ret.
  - apply polite_bind; [apply Hbody | apply IH].
Qed.

Lemma polite_collide (clen : nat)
    (emit : list (list Z) -> nat -> nat -> list (list Z) -> list (list Z))
    (check : solver unit) (X : list (list Z)) :
  polite check -> polite (collide clen emit check X).
Proof.
  intros Hcheck. unfold collide. apply polite_bind; [| intros st; apply polite_ret].
  generalize (X, @nil (list Z), 0, 0). generalize (length X).
  induction n as [|n IH]; intros [[[X1 Xc] i] pf]; cbn [collide_loop]; [apply polite_ret |].
  destruct (i <? length X1 - 1); [| apply polite_ret].
  apply polite_bind; [done | intros _; apply IH].
Qed.

Lemma polite_rounds
    (round : list (list Z) * nat * nat -> solver (list (list Z) * nat * nat)) :
  (forall st, polite (round st)) -> forall n r st, polite (rounds round n r st).
Proof.
  intros Hround. induction n as [|n IH]; intros r [[X hl] li]; cbn [rounds];
    [apply polite_ret |].
  destruct ((r <? K) && (0 <? length X)); [| apply polite_ret].
  apply polite_bind; [apply Hround | intros st; apply IH].
Qed.

Lemma polite_basic_round (st : list (list Z) * nat * nat) : polite (basic_round st).
Proof.
  destruct st as [[X hl] li]. unfold basic_round.
  apply polite_bind; [apply polite_throw_if | intros _].
  apply polite_bind; [apply polite_collide, polite_throw_if | intros X'].
  apply polite_bind; [apply polite_throw_if | intros _; apply polite_ret].
Qed.

Lemma polite_truncated_round (st : list (list Z) * nat * nat) : polite (truncated_round st).
Proof.
  destruct st as [[X hl] li]. unfold truncated_round.
  apply polite_bind; [apply polite_throw_if | intros _].
  apply polite_bind; [apply polite_collide, polite_throw_if | intros X'].
  apply polite_bind; [apply polite_throw_if | intros _; apply polite_ret].
Qed.

Lemma polite_final_round
    (emit : list (list Z) -> nat -> nat -> list (list Z) -> list (list Z))
    (X : list (list Z)) (hashLen : nat) (out : list (list Z)) :
  polite (final_round emit X hashLen out).
Proof.
  unfold final_round. destruct (1 <? length X); [| apply polite_ret].
  apply polite_bind; [apply polite_throw_if | intros _].
  generalize 0, out. generalize (std_sort (CompareSR hashLen) X). intros Xs.
  generalize (length Xs).
  induction n as [|n IH]; intros i out'; cbn [final_loop]; [apply polite_ret |].
  destruct (i <? length Xs - 1); [| apply polite_ret].
  apply polite_bind; [apply polite_throw_if | intros _; apply IH].
Qed.

Lemma polite_subtree_loop (partialSoln : list Z) (n : nat) :
  forall r ic hashLen lenIndices rti X,
    polite (subtree_loop partialSoln n r ic hashLen lenIndices rti X).
Proof.
  induction n as [|n IH]; intros r ic hashLen lenIndices rti X; cbn [subtree_loop];
    [apply polite_ret |].
  destruct (r <? length X); [| apply polite_ret].
  destruct (X !! r) as [[Xr |] |]; try apply polite_ret.
  apply polite_bind; [apply polite_throw_if | intros _].
  apply polite_bind; [apply polite_collide, polite_ret | intros ic'].
  destruct (length ic' =? 0); [apply polite_ret |].
  apply polite_bind; [apply polite_throw_if | intros _; apply IH].
Qed.

Lemma polite_recreate (base_state : eh_HashState) (partialSoln : list Z)
    (solns : list (list Z)) :
  polite (recreate base_state partialSoln solns).
Proof.
  unfold recreate. apply polite_bind.
  - apply polite_for_each. intros i [[[X hl] li] |]; unfold recreate_index;
      [| apply polite_ret].
    apply polite_bind.
    + apply polite_for_each. intros j icv. cbv zeta.
      apply polite_bind; [apply polite_throw_if | intros _; apply polite_ret].
    + intros icv. apply polite_bind; [apply polite_subtree_loop |].
      intros [st |]; [| apply polite_ret].
      apply polite_bind; [apply polite_throw_if | intros _; apply polite_ret].
  - intros [[[X hl] li] |]; [| apply polite_ret].
    apply polite_bind; [apply polite_assert | intros _].
    destruct (X !! K) as [[rows |] |]; try apply polite_fail.
    apply polite_bind; [apply polite_throw_if | intros _; apply polite_ret].
Qed.

Lemma polite_solvers (base_state : eh_HashState) :
  polite (BasicSolve base_state) /\ polite (OptimisedSolve base_state).
Proof.
  split.
  - unfold BasicSolve. apply polite_bind.
    + apply polite_for_each. intros i X. cbv zeta.
      apply polite_bind; [apply polite_throw_if | intros _; apply polite_ret].
    + intros X. apply polite_bind; [apply polite_rounds, polite_basic_round |].
      intros [[X' hl] li]. apply polite_final_round.
  - unfold OptimisedSolve. apply polite_bind.
    + apply polite_for_each. intros i X. cbv zeta.
      apply polite_bind; [apply polite_throw_if | intros _; apply polite_ret].
    + intros X. apply polite_bind; [apply polite_rounds, polite_truncated_round |].
      intros [[X' hl] li]. apply polite_bind; [apply polite_final_round |].
      intros partialSolns. apply polite_for_each. intros p s. apply polite_recreate.
Qed.

(** X20. Whatever the probe answers, either solver returns a set only if the
    probe has answered false to every invocation, and raises
    SolverCancelled exactly at the first invocation that answers true: the
    log then ends with that invocation, and every invocation before it
    answered false. *)
Theorem X20_solvers_stop_at_first_cancellation (base_state : eh_HashState) :
  polite (BasicSolve base_state) /\ polite (OptimisedSolve base_state).
Proof. apply polite_solvers. Qed.

(** ** The other two scans *)

Lemma collide_keeps_log (clen : nat)
    (emit : list (list Z) -> nat -> nat -> list (list Z) -> list (list Z))
    (X : list (list Z)) (log : probe_log) :
  exists X', collide clen emit (solver_ret tt) X log = (Returned X', log).
Proof.
  unfold collide, solver_bind.
  assert (Hloop : forall fuel st,
            exists st', collide_loop clen emit (solver_ret tt) fuel st log = (Returned st', log)).
  { induction fuel as [|fuel IH]; intros [[[X1 Xc] i] pf]; cbn [collide_loop];
      [by eexists |].
    destruct (i <? length X1 - 1); [| by eexists].
    unfold solver_bind, solver_ret at 1. apply IH. }
  destruct (Hloop (length X) (X, [], 0, 0)) as [st' ->]. by eexists.
Qed.

Lemma branch_emit_produce (WIDTH hlen lenIndices clen : nat) (ilen lt rt : Z) :
  forall X p q Xc,
    branch_emit WIDTH hlen lenIndices clen ilen lt rt X p q Xc
    = Xc ++ branch_produce WIDTH hlen lenIndices clen ilen lt rt (row_at X p) (row_at X q).
Proof.
  intros X p q Xc. unfold branch_emit, branch_produce.
  destruct (DistinctIndices _ _ _ _); [| by rewrite app_nil_r].
  destruct (IsValidBranch (row_at X p) hlen ilen lt && IsValidBranch (row_at X q) hlen ilen rt);
    [done |].
  destruct (IsValidBranch (row_at X q) hlen ilen lt && IsValidBranch (row_at X p) hlen ilen rt);
    [done | by rewrite app_nil_r].
Qed.

Lemma CollideBranches_spec (WIDTH : nat) (X : list (list Z)) (hlen lenIndices clen : nat)
    (ilen lt rt : Z) (log : probe_log) :
  exists X',
    CollideBranches WIDTH X hlen lenIndices clen ilen lt rt log = (Returned X', log) /\
    X' ≡ₚ fresh_round (branch_produce WIDTH hlen lenIndices clen ilen lt rt) clen X /\
    forall x, In x X' ->
      exists l r,
        In l X /\ In r X /\ HasCollision l r clen = true /\
        DistinctIndices l r hlen lenIndices = true /\
        IsValidBranch l hlen ilen lt = true /\ IsValidBranch r hlen ilen rt = true /\
        x = FullStepRow_merge WIDTH l r hlen lenIndices clen.
Proof.
  unfold CollideBranches.
  destruct (collide_keeps_log clen (branch_emit WIDTH hlen lenIndices clen ilen lt rt) X log)
    as [X' HX'].
  destruct (collide_spec clen (branch_emit WIDTH hlen lenIndices clen ilen lt rt)
              (branch_produce WIDTH hlen lenIndices clen ilen lt rt) (solver_ret tt)
              (branch_emit_produce WIDTH hlen lenIndices clen ilen lt rt)
              (returns_ret tt (fun _ => True) I) X log) as (X'' & log' & Hrun & Hperm).
  rewrite HX' in Hrun. injection Hrun as <- <-.
  exists X'. split; [done |]. split; [done |].
  intros x Hx.
  apply list_elem_of_In in Hx. rewrite Hperm in Hx. apply list_elem_of_In in Hx.
  destruct (fresh_round_elem _ _ _ x Hx) as (a & b & Ha & Hb & Hcol & Hprod).
  unfold branch_produce in Hprod.
  destruct (DistinctIndices a b hlen lenIndices) eqn:Hdis; [| done].
  destruct (IsValidBranch a hlen ilen lt && IsValidBranch b hlen ilen rt) eqn:E1.
  - apply andb_true_iff in E1 as [E1a E1b]. destruct Hprod as [<- | []].
    by exists a, b.
  - destruct (IsValidBranch b hlen ilen lt && IsValidBranch a hlen ilen rt) eqn:E2; [| done].
    apply andb_true_iff in E2 as [E2a E2b]. destruct Hprod as [<- | []].
    exists b, a. split; [done |]. split; [done |].
    split; [by apply HasCollision_sym |]. split; [by apply DistinctIndices_sym |]. done.
Qed.

(** X18. CollideBranches never invokes the probe and, entered with a
    non-empty list, leaves in it exactly the merges that its step 2c admits
    for the pairs of the runs of the list, as a multiset; every row it
    leaves is the merge of a row whose leftmost index truncates to lt with a
    colliding row, of distinct indices, whose leftmost index truncates to
    rt, in this order. *)
Theorem X18_CollideBranches_keeps_matching_branches (WIDTH : nat) (X : list (list Z))
    (hlen lenIndices clen : nat) (ilen lt rt : Z) (log : probe_log) :
  0 < length X ->
  exists X',
    CollideBranches WIDTH X hlen lenIndices clen ilen lt rt log = (Returned X', log) /\
    X' ≡ₚ fresh_round (branch_produce WIDTH hlen lenIndices clen ilen lt rt) clen X /\
    forall x, In x X' ->
      exists l r,
        In l X /\ In r X /\ HasCollision l r clen = true /\
        DistinctIndices l r hlen lenIndices = true /\
        IsValidBranch l hlen ilen lt = true /\ IsValidBranch r hlen ilen rt = true /\
        x = FullStepRow_merge WIDTH l r hlen lenIndices clen.
Proof. intros _. apply CollideBranches_spec. Qed.

Lemma truncated_emit_produce (hashLen lenIndices : nat) :
  forall X p q Xc,
    truncated_emit hashLen lenIndices X p q Xc
    = Xc ++ truncated_produce hashLen lenIndices (row_at X p) (row_at X q).
Proof.
  intros X p q Xc. unfold truncated_emit, truncated_produce. cbv zeta.
  destruct (negb _); [done | by rewrite app_nil_r].
Qed.

Lemma truncated_round_refines (Xt : list (list Z)) (hashLen lenIndices : nat) :
  (forall log l, cancelled log l = false) ->
  returns (truncated_round (Xt, hashLen, lenIndices))
    (fun st => let '(X', hashLen', lenIndices') := st in
       X' ≡ₚ fresh_round (truncated_produce hashLen lenIndices) CollisionByteLength
               (std_sort (CompareSR CollisionByteLength) Xt) /\
       hashLen' = hashLen - CollisionByteLength /\ lenIndices' = lenIndices * 2).
Proof.
  intros Hnever. unfold truncated_round.
  apply (returns_bind _ _ (fun _ => True)); [by apply throw_if_returns |]. intros _ _.
  eapply returns_bind.
  - apply (collide_spec CollisionByteLength (truncated_emit hashLen lenIndices)
             (truncated_produce hashLen lenIndices) (throw_if cancelled ListColliding)).
    + apply truncated_emit_produce.
    + by apply throw_if_returns.
  - intros X' HX'. simpl in HX'.
    apply (returns_bind _ _ (fun _ => True)); [by apply throw_if_returns |]. intros _ _.
    apply returns_ret. done.
Qed.

(** X19. A round of the truncated phase of OptimisedSolve, entered with a
    non-empty list and a probe that never asks to stop, leaves in Xt exactly
    the merged rows that its filter keeps for the pairs of the runs of the
    sorted list, as a multiset, shortens hashLen by CollisionByteLength and
    doubles lenIndices. *)
Theorem X19_truncated_round_compaction (Xt : list (list Z)) (hashLen lenIndices : nat) :
  (forall log l, cancelled log l = false) ->
  0 < length Xt ->
  returns (truncated_round (Xt, hashLen, lenIndices))
    (fun st => let '(X', hashLen', lenIndices') := st in
       X' ≡ₚ fresh_round (truncated_produce hashLen lenIndices) CollisionByteLength
               (std_sort (CompareSR CollisionByteLength) Xt) /\
       hashLen' = hashLen - CollisionByteLength /\ lenIndices' = lenIndices * 2).
Proof. intros Hnever _. by apply truncated_round_refines. Qed.

(** ** The recreation phase keeps its assertion *)

Lemma safe_ret {A : Type} (a : A) (P : A -> Prop) : P a -> safe (solver_ret a) P.
Proof. by intros H log. Qed.

Lemma safe_bind {A B : Type} (m : solver A) (f : A -> solver B)
    (P : A -> Prop) (Q : B -> Prop) :
  safe m P -> (forall a, P a -> safe (f a) Q) -> safe (solver_bind m f) Q.
Proof.
  intros Hm Hf log. unfold solver_bind. specialize (Hm log).
  destruct (m log) as [[a | |] log']; [| done | done].
  apply (Hf a Hm log').
Qed.

Lemma safe_weaken {A : Type} (m : solver A) (P Q : A -> Prop) :
  safe m P -> (forall a, P a -> Q a) -> safe m Q.
Proof.
  intros Hm HPQ log. specialize (Hm log).
  destruct (m log) as [[a | |] log']; [by apply HPQ | done | done].
Qed.

Lemma safe_throw_if (label : EhSolverCancelCheck) :
  safe (throw_if cancelled label) (fun _ => True).
Proof. intros log. unfold throw_if. by destruct (cancelled log label). Qed.

Lemma safe_for_each_from {A St : Type} (I : nat -> St -> Prop) (f : nat -> A)
    (body : A -> St -> solver St) (n : nat) :
  forall k s,
    (forall j s, k <= j < k + n -> I j s -> safe (body (f j) s) (I (S j))) ->
    I k s -> safe (for_each (map f (seq k n)) body s) (I (k + n)).
Proof.
  induction n as [|n IH]; intros k s Hbody Hs; cbn [seq map for_each].
  - rewrite Nat.add_0_r. by apply safe_ret.
  - eapply safe_bind; [apply Hbody; [lia | done] |].
    intros s' Hs'. replace (k + S n) with (S k + n) by lia.
    apply IH; [| done]. intros j s'' Hj. apply Hbody. lia.
Qed.

Lemma safe_for_each {A St : Type} (I : St -> Prop) (values : list A)
    (body : A -> St -> solver St) :
  (forall x s, I s -> safe (body x s) I) -> forall s, I s -> safe (for_each values body s) I.
Proof.
  intros Hbody. induction values as [|x values IH]; intros s Hs; cbn [for_each].
  - by apply safe_ret.
  - eapply safe_bind; [by apply Hbody |]. intros s' Hs'. by apply IH.
Qed.

Lemma safe_collide (clen : nat)
    (emit : list (list Z) -> nat -> nat -> list (list Z) -> list (list Z))
    (check : solver unit) (X : list (list Z)) :
  safe check (fun _ => True) -> safe (collide clen emit check X) (fun _ => True).
Proof.
  intros Hcheck. unfold collide.
  apply (safe_bind _ _ (fun _ => True)); [| intros st _; by apply safe_ret].
  generalize (X, @nil (list Z), 0, 0). generalize (length X).
  induction n as [|n IH]; intros [[[X1 Xc] i] pf]; cbn [collide_loop]; [by apply safe_ret |].
  destruct (i <? length X1 - 1); [| by apply safe_ret].
  apply (safe_bind _ _ (fun _ => True)); [done | intros _ _; apply IH].
Qed.

Lemma safe_rounds
    (round : list (list Z) * nat * nat -> solver (list (list Z) * nat * nat)) :
  (forall st, safe (round st) (fun _ => True)) ->
  forall n r st, safe (rounds round n r st) (fun _ => True).
Proof.
  intros Hround. induction n as [|n IH]; intros r [[X hl] li]; cbn [rounds];
    [by apply safe_ret |].
  destruct ((r <? K) && (0 <? length X)); [| by apply safe_ret].
  apply (safe_bind _ _ (fun _ => True)); [apply Hround | intros st _; apply IH].
Qed.

Lemma safe_truncated_round (st : list (list Z) * nat * nat) :
  safe (truncated_round st) (fun _ => True).
Proof.
  destruct st as [[X hl] li]. unfold truncated_round.
  apply (safe_bind _ _ (fun _ => True)); [apply safe_throw_if | intros _ _].
  apply (safe_bind _ _ (fun _ => True)); [apply safe_collide, safe_throw_if | intros X' _].
  apply (safe_bind _ _ (fun _ => True)); [apply safe_throw_if | intros _ _].
  by apply safe_ret.
Qed.

Lemma safe_final_loop (hashLen : nat)
    (emit : list (list Z) -> nat -> nat -> list (list Z) -> list (list Z))
    (X : list (list Z)) :
  forall fuel i out, safe (final_loop hashLen emit fuel X i out) (fun _ => True).
Proof.
  induction fuel as [|fuel IH]; intros i out; cbn [final_loop]; [by apply safe_ret |].
  destruct (i <? length X - 1); [| by apply safe_ret].
  apply (safe_bind _ _ (fun _ => True)); [apply safe_throw_if | intros _ _; apply IH].
Qed.

Lemma safe_final_round
    (emit : list (list Z) -> nat -> nat -> list (list Z) -> list (list Z))
    (X : list (list Z)) (hashLen : nat) (out : list (list Z)) :
  safe (final_round emit X hashLen out) (fun _ => True).
Proof.
  unfold final_round. destruct (1 <? length X); [| by apply safe_ret].
  apply (safe_bind _ _ (fun _ => True)); [apply safe_throw_if | intros _ _].
  apply safe_final_loop.
Qed.

(** *** The slots as a binary counter *)

Lemma slots_weight_app (X Y : list (option (list (list Z)))) :
  forall r, slots_weight (X ++ Y) r = slots_weight X r + slots_weight Y (r + length X).
Proof.
  induction X as [|x X IH]; intros r; simpl.
  - by rewrite Nat.add_0_r.
  - rewrite IH. replace (S r + length X) with (r + S (length X)) by lia. lia.
Qed.

Lemma slots_weight_insert (X : list (option (list (list Z)))) (v : option (list (list Z))) :
  forall p r,
    p < length X ->
    slots_weight (<[p := v]> X) r + (if engaged X p then 2 ^ (r + p) else 0)
    = slots_weight X r + (if v is Some _ then 2 ^ (r + p) else 0).
Proof.
  induction X as [|x X IH]; intros p r Hp; simpl in Hp; [lia |].
  destruct p as [|p].
  - unfold engaged. simpl. rewrite Nat.add_0_r. destruct x, v; lia.
  - simpl. specialize (IH p (S r) ltac:(lia)).
    replace (S r + p) with (r + S p) in IH by lia.
    change (engaged (x :: X) (S p)) with (engaged X p). lia.
Qed.

Lemma slots_weight_lt (X : list (option (list (list Z)))) :
  forall r, slots_weight X r + 2 ^ r <= 2 ^ (r + length X).
Proof.
  induction X as [|x X IH]; intros r; simpl.
  - by rewrite Nat.add_0_r.
  - specialize (IH (S r)). replace (S r + length X) with (r + S (length X)) in IH by lia.
    simpl in IH. destruct x; lia.
Qed.

Lemma slots_weight_ge (X : list (option (list (list Z)))) :
  forall p r, engaged X p = true -> 2 ^ (r + p) <= slots_weight X r.
Proof.
  induction X as [|x X IH]; intros p r Hp; [done |].
  destruct p as [|p]; simpl.
  - unfold engaged in Hp. simpl in Hp. rewrite Nat.add_0_r. destruct x; [lia | done].
  - specialize (IH p (S r) Hp). replace (S r + p) with (r + S p) in IH by lia. lia.
Qed.

Lemma slots_weight_ge2 (X : list (option (list (list Z)))) :
  forall p q r,
    p < q -> engaged X p = true -> engaged X q = true ->
    2 ^ (r + p) + 2 ^ (r + q) <= slots_weight X r.
Proof.
  induction X as [|x X IH]; intros p q r Hpq Hp Hq; [done |].
  destruct q as [|q]; [lia |]. destruct p as [|p]; simpl.
  - unfold engaged in Hp. simpl in Hp. rewrite Nat.add_0_r.
    change (engaged (x :: X) (S q)) with (engaged X q) in Hq.
    pose proof (slots_weight_ge X q (S r) Hq) as H.
    replace (S r + q) with (r + S q) in H by lia. destruct x; [lia | done].
  - change (engaged (x :: X) (S p)) with (engaged X p) in Hp.
    change (engaged (x :: X) (S q)) with (engaged X q) in Hq.
    specialize (IH p q (S r) ltac:(lia) Hp Hq).
    replace (S r + p) with (r + S p) in IH by lia.
    replace (S r + q) with (r + S q) in IH by lia. lia.
Qed.

Lemma engaged_insert (X : list (option (list (list Z)))) (p r : nat)
    (v : option (list (list Z))) :
  p < length X ->
  engaged (<[p := v]> X) r
  = if decide (r = p) then (if v is Some _ then true else false) else engaged X r.
Proof.
  intros Hp. unfold engaged. destruct (decide (r = p)) as [-> | Hne].
  - by rewrite list_lookup_insert_eq.
  - by rewrite list_lookup_insert_ne.
Qed.

Lemma engaged_snoc (X : list (option (list (list Z)))) (r : nat) (ic : list (list Z)) :
  engaged (X ++ [Some ic]) r
  = if decide (r = length X) then true else engaged X r.
Proof.
  unfold engaged. destruct (decide (r = length X)) as [-> | Hne].
  - by rewrite lookup_app_r, Nat.sub_diag.
  - destruct (decide (r < length X)) as [Hlt | Hge].
    + by rewrite lookup_app_l.
    + rewrite !lookup_ge_None_2; [done | lia | rewrite length_app; simpl; lia].
Qed.

Lemma engaged_lt (X : list (option (list (list Z)))) (r : nat) :
  engaged X r = true -> r < length X.
Proof.
  unfold engaged. intros H. destruct (X !! r) eqn:E; [| done].
  by apply lookup_lt_Some in E.
Qed.

Section Recreation.

Variable base_state : eh_HashState.

Hypothesis K_small : K < 32.

Lemma subtree_loop_counter (partialSoln : list Z) (i : nat) (n : nat) :
  forall r ic hashLen lenIndices rti X,
    n + r = K + 1 ->
    r <= length X ->
    (forall r', r' < r -> engaged X r' = false) ->
    slots_weight X 0 + 2 ^ r = i + 1 -> i + 1 <= 2 ^ K ->
    r = length X \/ engaged X (length X - 1) = true ->
    lenIndices = 4 * 2 ^ r ->
    safe (subtree_loop partialSoln n r ic hashLen lenIndices rti X) (counter (i + 1)).
Proof.
  induction n as [|n IH]; intros r ic hashLen lenIndices rti X Hfuel Hr Hlow Hw Hi Hlast Hli.
  - exfalso. replace r with (S K) in Hw by lia. simpl in Hw. lia.
  - cbn [subtree_loop]. destruct (r <? length X) eqn:E.
    + apply Nat.ltb_lt in E.
      destruct (X !! r) as [[Xr |] |] eqn:EX.
      * assert (Heng : engaged X r = true) by (unfold engaged; by rewrite EX).
        apply (safe_bind _ _ (fun _ => True)); [apply safe_throw_if | intros _ _].
        apply (safe_bind _ _ (fun _ => True)).
        { unfold CollideBranches. apply safe_collide. by apply safe_ret. }
        intros ic' _. destruct (length ic' =? 0); [by apply safe_ret |].
        apply (safe_bind _ _ (fun _ => True)); [apply safe_throw_if | intros _ _].
        pose proof (slots_weight_insert X None r 0 E) as Hins.
        rewrite Heng in Hins. simpl in Hins.
        apply IH.
        -- lia.
        -- rewrite length_insert. lia.
        -- intros r' Hr'. rewrite engaged_insert by done.
           destruct (decide (r' = r)); [done | apply Hlow; lia].
        -- replace (r + 1) with (S r) by lia. simpl. lia.
        -- done.
        -- rewrite length_insert.
           destruct (decide (r + 1 = length X)) as [| Hne]; [by left | right].
           rewrite engaged_insert by done.
           destruct (decide (length X - 1 = r)); [lia |].
           destruct Hlast as [-> | Hlast]; [lia | done].
        -- subst lenIndices. replace (r + 1) with (S r) by lia. simpl. lia.
      * apply safe_ret. unfold counter.
        assert (Heng : engaged X r = false) by (unfold engaged; by rewrite EX).
        pose proof (slots_weight_insert X (Some ic) r 0 E) as Hins.
        rewrite Heng in Hins. simpl in Hins.
        split; [lia |]. split.
        -- right. rewrite length_insert, engaged_insert by done.
           destruct (decide (length X - 1 = r)); [done |].
           destruct Hlast as [-> | Hlast]; [lia | done].
        -- intros _. exists r. split; [done |]. split.
           ++ rewrite engaged_insert by done. by destruct (decide (r = r)).
           ++ intros r' Hr'. rewrite engaged_insert by done.
              destruct (decide (r' = r)); [lia | by apply Hlow].
      * apply lookup_ge_None in EX. lia.
    + apply Nat.ltb_ge in E. assert (r = length X) as -> by lia.
      apply safe_ret. unfold counter.
      split; [rewrite slots_weight_app; simpl; lia |]. split.
      * right. rewrite length_app. simpl.
        replace (length X + 1 - 1) with (length X) by lia.
        rewrite engaged_snoc. by destruct (decide (length X = length X)).
      * intros _. exists (length X). split; [done |]. split.
        -- rewrite engaged_snoc. by destruct (decide (length X = length X)).
        -- intros r' Hr'. rewrite engaged_snoc.
           destruct (decide (r' = length X)); [lia | by apply Hlow].
Qed.

Lemma recreate_index_counter (partialSoln : list Z) (i : nat)
    (st : option (list (option (list (list Z))) * nat * nat)) :
  i < 2 ^ K -> counter i st ->
  safe (recreate_index base_state partialSoln i st) (counter (S i)).
Proof.
  intros Hi Hst. unfold recreate_index.
  destruct st as [[[X hl] li] |]; [| by apply safe_ret].
  destruct Hst as (Hw & Hlast & _).
  apply (safe_bind _ _ (fun _ => True)).
  { apply safe_for_each; [| done]. intros j icv _. cbv zeta.
    apply (safe_bind _ _ (fun _ => True)); [apply safe_throw_if | intros _ _].
    by apply safe_ret. }
  intros icv _. cbv zeta.
  apply (safe_bind _ _ (counter (i + 1))).
  - apply subtree_loop_counter; try done; try (simpl; lia).
    destruct Hlast as [-> | Hlast]; [by left | by right].
  - replace (i + 1) with (S i) by lia.
    intros [st' |] Hst'; [| by apply safe_ret].
    apply (safe_bind _ _ (fun _ => True)); [apply safe_throw_if | intros _ _].
    by apply safe_ret.
Qed.

Lemma GetIndices_length (hash : list Z) (len n : nat) :
  length (GetIndices hash len (4 * n)) = n.
Proof.
  unfold GetIndices. rewrite length_map, length_seq.
  replace (4 * n + 3) with (3 + n * 4) by lia.
  rewrite Nat.div_add by lia. done.
Qed.

Lemma recreate_safe (partialSoln : list Z) (solns : list (list Z)) :
  (forall s, In s solns -> length s = 2 ^ K) ->
  safe (recreate base_state partialSoln solns)
    (fun solns' => forall s, In s solns' -> length s = 2 ^ K).
Proof.
  intros Hsolns. unfold recreate.
  apply (safe_bind _ _ (counter (2 ^ K))).
  - rewrite (soln_size_pow2 K_small).
    rewrite <- (map_id (seq 0 (2 ^ K))).
    apply (safe_for_each_from counter id (recreate_index base_state partialSoln) (2 ^ K) 0).
    + intros j st Hj Hst. apply recreate_index_counter; [lia | done].
    + unfold counter. split; [done |]. split; [by left | lia].
  - intros [[[X hl] li] |] Hst; [| by apply safe_ret].
    destruct Hst as (Hw & Hlast & Hlow).
    pose proof (pow2_pos K) as HK.
    destruct Hlast as [-> | Hlast]; [simpl in Hw; lia |].
    pose proof (slots_weight_ge X (length X - 1) 0 Hlast) as Hge.
    pose proof (slots_weight_lt X 0) as Hlt.
    simpl in Hge, Hlt. rewrite Hw in Hge, Hlt.
    apply Nat.pow_le_mono_r_iff in Hge; [| lia].
    assert (HKlen : K < length X).
    { apply (Nat.pow_lt_mono_r_iff 2); lia. }
    assert (Hlen : length X = K + 1) by lia.
    destruct (Hlow HK) as (r & -> & Hr & _).
    replace (length X - 1) with K in Hlast by lia.
    assert (HrK : r = K).
    { pose proof (engaged_lt X r Hr) as Hrl.
      destruct (decide (r = K)) as [| Hne]; [done |].
      pose proof (slots_weight_ge2 X r K 0 ltac:(lia) Hr Hlast) as H2.
      simpl in H2. pose proof (pow2_pos r). lia. }
    subst r.
    apply (safe_bind _ _ (fun _ => True)).
    { intros log. unfold solver_assert. by rewrite Hlen, Nat.eqb_refl. }
    intros _ _. unfold engaged in Hlast.
    destruct (X !! K) as [[rows |] |]; try done.
    apply (safe_bind _ _ (fun _ => True)); [apply safe_throw_if | intros _ _].
    apply safe_ret.
    apply foldl_invariant; [| done].
    intros row out _ Hout s Hs.
    apply set_insert_elem in Hs as [Hs | ->]; [by apply Hout |].
    apply GetIndices_length.
Qed.

Lemma OptimisedSolve_safe :
  safe (OptimisedSolve base_state) (fun solns => forall s, In s solns -> length s = 2 ^ K).
Proof.
  unfold OptimisedSolve.
  apply (safe_bind _ _ (fun _ => True)).
  { apply safe_for_each; [| done]. intros i Xt _. cbv zeta.
    apply (safe_bind _ _ (fun _ => True)); [apply safe_throw_if | intros _ _].
    by apply safe_ret. }
  intros Xt _.
  apply (safe_bind _ _ (fun _ => True)); [apply safe_rounds, safe_truncated_round |].
  intros [[Xt' hl] li] _.
  apply (safe_bind _ _ (fun _ => True)); [apply safe_final_round |].
  intros partialSolns _.
  apply safe_for_each; [| by intros s []].
  intros partialSoln solns Hsolns. by apply recreate_safe.
Qed.

(** X21. For K < 32 and whatever the probe answers, the assertion
    [X.size() == K+1] at the end of OptimisedSolve's loop over the 2^K
    indices of a partial solution never fails, and [X[K]] then holds a list
    (the slots of X are the digits of a binary counter of the indices
    seen); every index sequence in the returned set has exactly 2^K
    indices. *)
Theorem X21_optimised_solve_keeps_its_assertion :
  safe (OptimisedSolve base_state) (fun solns => forall s, In s solns -> length s = 2 ^ K).
Proof. apply OptimisedSolve_safe. Qed.

End Recreation.

(** ** The filter of a truncated round and the next list *)







(** ** The sequences that OptimisedSolve returns *)

Lemma safe_polite_returns {A : Type} (m : solver A) (P : A -> Prop) :
  (forall log l, cancelled log l = false) -> safe m P -> polite m -> returns m P.
Proof.
  intros Hnever Hsafe Hpolite log.
  specialize (Hsafe log). specialize (Hpolite log).
  destruct (m log) as [[a | |] log'].
  - by exists a, log'.
  - destruct Hpolite as (label & log'' & _ & _ & Hc). by rewrite Hnever in Hc.
  - done.
Qed.

Lemma safe_and {A : Type} (m : solver A) (P Q : A -> Prop) :
  safe m P -> safe m Q -> safe m (fun a => P a /\ Q a).
Proof.
  intros HP HQ log. specialize (HP log). specialize (HQ log).
  by destruct (m log) as [[a | |] log'].
Qed.

Lemma safe_CollideBranches (WIDTH : nat) (X : list (list Z)) (hlen lenIndices clen : nat)
    (ilen lt rt : Z) :
  safe (CollideBranches WIDTH X hlen lenIndices clen ilen lt rt)
    (fun X' => forall x, In x X' ->
       exists l r,
         In l X /\ In r X /\ HasCollision l r clen = true /\
         DistinctIndices l r hlen lenIndices = true /\
         x = FullStepRow_merge WIDTH l r hlen lenIndices clen).
Proof.
  intros log.
  destruct (CollideBranches_spec WIDTH X hlen lenIndices clen ilen lt rt log)
    as (X' & -> & _ & H).
  intros x Hx. destruct (H x Hx) as (l & r & Hl & Hr & Hc & Hd & _ & _ & ->).
  by exists l, r.
Qed.

Lemma lenIndices_at_inj (r r' : nat) : lenIndices_at r = lenIndices_at r' -> r = r'.
Proof.
  unfold lenIndices_at. intros H.
  apply (Nat.pow_inj_r 2); lia.
Qed.

Lemma counter_full (X : list (option (list (list Z)))) (hashLen lenIndices : nat) :
  counter (2 ^ K) (Some (X, hashLen, lenIndices)) ->
  length X = K + 1 /\ engaged X K = true /\ lenIndices = lenIndices_at K.
Proof.
  intros (Hw & Hlast & Hlow).
  pose proof (pow2_pos K) as HK.
  destruct Hlast as [-> | Hlast]; [simpl in Hw; lia |].
  pose proof (slots_weight_ge X (length X - 1) 0 Hlast) as Hge.
  pose proof (slots_weight_lt X 0) as Hlt.
  simpl in Hge, Hlt. rewrite Hw in Hge, Hlt.
  apply Nat.pow_le_mono_r_iff in Hge; [| lia].
  assert (HKlen : K < length X).
  { apply (Nat.pow_lt_mono_r_iff 2); lia. }
  assert (Hlen : length X = K + 1) by lia.
  destruct (Hlow HK) as (r & -> & Hr & _).
  replace (length X - 1) with K in Hlast by lia.
  split; [done |]. split; [done |].
  destruct (decide (r = K)) as [-> | Hne]; [done |].
  pose proof (engaged_lt X r Hr) as Hrl.
  pose proof (slots_weight_ge2 X r K 0 ltac:(lia) Hr Hlast) as H2.
  simpl in H2. pose proof (pow2_pos r). lia.
Qed.


Lemma slots_rows_insert_None (base_state : eh_HashState)
    (X : list (option (list (list Z)))) (r : nat) :
  slots_rows base_state X -> slots_rows base_state (<[r := None]> X).
Proof.
  intros HX r' rows Hr'.
  destruct (decide (r' = r)) as [-> | Hne].
  - destruct (decide (r < length X)) as [Hlt | Hge].
    + by rewrite list_lookup_insert_eq in Hr' by done.
    + rewrite list_insert_ge in Hr' by lia. by apply HX.
  - rewrite list_lookup_insert_ne in Hr' by done. by apply HX.
Qed.

Lemma slots_rows_insert_Some (base_state : eh_HashState)
    (X : list (option (list (list Z)))) (r : nat) (ic : list (list Z)) :
  slots_rows base_state X ->
  all_subtree_rows base_state r ic -> rows_below r ic ->
  slots_rows base_state (<[r := Some ic]> X).
Proof.
  intros HX Hic Hbelow r' rows Hr'.
  destruct (decide (r' = r)) as [-> | Hne].
  - destruct (decide (r < length X)) as [Hlt | Hge].
    + rewrite list_lookup_insert_eq in Hr' by done. by injection Hr' as <-.
    + rewrite list_insert_ge in Hr' by lia. by apply HX.
  - rewrite list_lookup_insert_ne in Hr' by done. by apply HX.
Qed.

Lemma slots_rows_snoc (base_state : eh_HashState)
    (X : list (option (list (list Z)))) (ic : list (list Z)) :
  slots_rows base_state X ->
  all_subtree_rows base_state (length X) ic -> rows_below (length X) ic ->
  slots_rows base_state (X ++ [Some ic]).
Proof.
  intros HX Hic Hbelow r' rows Hr'.
  destruct (decide (r' < length X)) as [Hlt | Hge].
  - rewrite lookup_app_l in Hr' by done. by apply HX.
  - rewrite lookup_app_r in Hr' by lia.
    destruct (r' - length X) as [|d] eqn:E; [| by destruct d].
    injection Hr' as <-. by replace r' with (length X) by lia.
Qed.

Section Recreated.

Variable base_state : eh_HashState.

(** The parameters are admissible: as for BasicSolve, and an index of
    CollisionBitLength + 1 bits has at least the eight bits that a
    truncated index keeps. *)
Hypothesis K_pos : 1 <= K.
Hypothesis K_small : K < 32.
Hypothesis index_bits : CollisionBitLength + 1 < 32.
Hypothesis trunc_bits : 8 <= CollisionBitLength + 1.
Hypothesis FinalFullWidth_fits :
  forall r, r < K -> hashLen_at r + lenIndices_at r <= FinalFullWidth.
Hypothesis FinalFullWidth_final :
  hashLen_at (K - 1) + lenIndices_at K <= FinalFullWidth.
Hypothesis std_sort_permutation : forall cmp X, std_sort cmp X ≡ₚ X.

Lemma candidate_below (t : Z) (j : nat) :
  (0 <= t < 256)%Z -> j < recreate_size ->
  (0 <= UntruncateIndex t (Z.of_nat j) (Z.of_nat (CollisionBitLength + 1))
   < Z.of_nat init_size)%Z.
Proof.
  intros Ht Hj.
  pose proof (recreate_size_pow2 ltac:(lia)) as Hsize.
  destruct (UntruncateIndex_sum t (Z.of_nat j) (Z.of_nat (CollisionBitLength + 1))
              ltac:(lia) Ht ltac:(lia)) as [-> Hlt].
  rewrite (init_size_pow2 index_bits).
  rewrite Nat2Z.inj_pow. change (Z.of_nat 2) with 2%Z.
  split; [| exact Hlt].
  assert (0 <= 2 ^ (Z.of_nat (CollisionBitLength + 1) - 8))%Z by (apply Z.pow_nonneg; lia).
  nia.
Qed.

Lemma leaf_rows (t : Z) :
  (0 <= t < 256)%Z ->
  safe (for_each (seq 0 recreate_size)
          (fun j icv =>
             let newIndex := UntruncateIndex t (Z.of_nat j)
                               (Z.of_nat (CollisionBitLength + 1)) in
             let icv := icv ++ [FullStepRow_new FinalFullWidth N K base_state newIndex] in
             throw_if cancelled PartialGeneration ;;; solver_ret icv) [])
    (fun icv => all_subtree_rows base_state 0 icv /\ rows_below 0 icv).
Proof.
  intros Ht.
  rewrite <- (map_id (seq 0 recreate_size)).
  apply (safe_for_each_from
           (fun _ icv => all_subtree_rows base_state 0 icv /\ rows_below 0 icv) id _
           recreate_size 0).
  - intros j icv Hj [Hsub Hbelow]. unfold id. cbv zeta.
    apply (safe_bind _ _ (fun _ => True)); [apply safe_throw_if | intros _ _].
    apply safe_ret.
    pose proof (candidate_below t j Ht ltac:(lia)) as Hidx.
    set (idx := UntruncateIndex t (Z.of_nat j) (Z.of_nat (CollisionBitLength + 1))) in *.
    assert (Hword : (0 <= idx < 2 ^ 32)%Z).
    { pose proof (init_range K_pos K_small index_bits FinalFullWidth_final [idx]
                    ltac:(by constructor)) as H.
      by inversion H. }
    assert (HW : ExpandedHashLength + 4 <= FinalFullWidth).
    { pose proof (FinalFullWidth_fits 0 ltac:(lia)) as H.
      rewrite hashLen_at_0 in H. exact H. }
    pose proof (subtree_leaf base_state K_pos K_small index_bits FinalFullWidth_fits
                  FinalFullWidth_final FinalFullWidth idx HW Hword) as Hleaf.
    split.
    + intros x Hx. apply in_app_or in Hx as [Hx | [<- | []]]; [by apply Hsub | done].
    + intros x Hx. apply in_app_or in Hx as [Hx | [<- | []]]; [by apply Hbelow |].
      split; [by apply subtree_row_length in Hleaf |].
      rewrite hashLen_at_0. change (lenIndices_at 0) with 4.
      rewrite (GetIndices_leaf base_state FinalFullWidth idx HW Hword).
      by constructor.
  - split; by intros x [].
Qed.

Lemma merged_rows (r : nat) (ic : list (list Z)) (x : list Z) :
  r < K ->
  all_subtree_rows base_state r ic -> rows_below r ic ->
  (exists l r',
     In l ic /\ In r' ic /\ HasCollision l r' CollisionByteLength = true /\
     DistinctIndices l r' (hashLen_at r) (lenIndices_at r) = true /\
     x = FullStepRow_merge FinalFullWidth l r' (hashLen_at r) (lenIndices_at r)
           CollisionByteLength) ->
  subtree_row base_state (S r) x /\
  hashLen_at (S r) + lenIndices_at (S r) <= length x /\
  Forall (fun i => (0 <= i < Z.of_nat init_size)%Z)
    (GetIndices x (hashLen_at (S r)) (lenIndices_at (S r))).
Proof.
  intros Hr Hsub Hbelow (l & r' & Hl & Hr' & Hcol & Hdist & ->).
  pose proof (FinalFullWidth_fits_all K_pos K_small index_bits FinalFullWidth_fits
                FinalFullWidth_final (S r) ltac:(lia)) as HW.
  pose proof (subtree_merge base_state K_pos K_small index_bits FinalFullWidth_fits
                FinalFullWidth_final FinalFullWidth r l r' Hr
                (Hsub l Hl) (Hsub r' Hr') Hcol Hdist HW) as Hm.
  split; [exact Hm |]. split; [by apply subtree_row_length in Hm |].
  destruct (Hbelow l Hl) as [Hll Hgl]. destruct (Hbelow r' Hr') as [Hlr Hgr].
  pose proof (hashLen_at_succ r ltac:(lia)) as Hhl.
  pose proof (hashLen_at_ge r ltac:(lia)) as Hge.
  assert (Hli : lenIndices_at (S r) = 2 * lenIndices_at r)
    by (rewrite lenIndices_at_S; unfold lenIndices_at; lia).
  pose proof (merge_below K_pos K_small index_bits FinalFullWidth_final
                FinalFullWidth r l r' CollisionByteLength Hge ltac:(lia)
                Hll Hlr Hgl Hgr) as Hb.
  rewrite <- Hhl, <- Hli in Hb. exact Hb.
Qed.

Lemma subtree_loop_rows (partialSoln : list Z) (i n : nat) :
  forall r ic rti X,
    n + r = K + 1 ->
    r <= length X ->
    slots_weight X 0 + 2 ^ r = i + 1 -> i + 1 <= 2 ^ K ->
    all_subtree_rows base_state r ic -> rows_below r ic ->
    slots_rows base_state X ->
    safe (subtree_loop partialSoln n r ic (hashLen_at r) (lenIndices_at r) rti X)
      (recreated base_state).
Proof.
  induction n as [|n IH]; intros r ic rti X Hfuel Hlen Hw Hi Hsub Hbelow HX.
  - exfalso. replace r with (S K) in Hw by lia. simpl in Hw. lia.
  - cbn [subtree_loop]. destruct (r <? length X) eqn:E.
    + apply Nat.ltb_lt in E.
      destruct (X !! r) as [[Xr |] |] eqn:EX.
      * assert (Heng : engaged X r = true) by (unfold engaged; by rewrite EX).
        pose proof (slots_weight_ge X r 0 Heng) as Hge. simpl in Hge.
        assert (Hr : r < K).
        { assert (H2 : 2 ^ S r <= 2 ^ K) by (simpl; lia).
          apply Nat.pow_le_mono_r_iff in H2; lia. }
        destruct (HX r Xr EX) as [HsubX HbelowX].
        apply (safe_bind _ _ (fun _ => True)); [apply safe_throw_if | intros _ _].
        eapply safe_bind; [apply safe_CollideBranches |].
        intros ic' Hic'. cbv beta in Hic'.
        destruct (length ic' =? 0); [by apply safe_ret |].
        apply (safe_bind _ _ (fun _ => True)); [apply safe_throw_if | intros _ _].
        assert (Hall : forall x, In x ic' ->
                  subtree_row base_state (S r) x /\
                  hashLen_at (S r) + lenIndices_at (S r) <= length x /\
                  Forall (fun i => (0 <= i < Z.of_nat init_size)%Z)
                    (GetIndices x (hashLen_at (S r)) (lenIndices_at (S r)))).
        { intros x Hx.
          apply (merged_rows r (ic ++ Xr) x Hr).
          - intros y Hy. apply in_app_or in Hy as [Hy | Hy]; [by apply Hsub | by apply HsubX].
          - intros y Hy. apply in_app_or in Hy as [Hy | Hy]; [by apply Hbelow | by apply HbelowX].
          - destruct (Hic' x Hx) as (l & r' & Hl & Hr' & Hrest).
            exists l, r'.
            split; [by apply (std_sort_In std_sort_permutation) in Hl |].
            split; [by apply (std_sort_In std_sort_permutation) in Hr' |].
            exact Hrest. }
        pose proof (slots_weight_insert X None r 0 E) as Hins.
        rewrite Heng in Hins. simpl in Hins.
        replace (hashLen_at r - CollisionByteLength) with (hashLen_at (r + 1))
          by (replace (r + 1) with (S r) by lia; apply hashLen_at_succ; lia).
        replace (lenIndices_at r * 2) with (lenIndices_at (r + 1))
          by (replace (r + 1) with (S r) by lia; rewrite lenIndices_at_S;
              unfold lenIndices_at; lia).
        apply IH.
        -- lia.
        -- rewrite length_insert. lia.
        -- replace (r + 1) with (S r) by lia. simpl. lia.
        -- done.
        -- replace (r + 1) with (S r) by lia. intros x Hx. by apply Hall.
        -- replace (r + 1) with (S r) by lia. intros x Hx.
           destruct (Hall x Hx) as (_ & H1 & H2). by split.
        -- by apply slots_rows_insert_None.
      * apply safe_ret. split.
        -- by apply slots_rows_insert_Some.
        -- intros r' Hr'. apply lenIndices_at_inj in Hr'. by subst r'.
      * apply lookup_ge_None in EX. lia.
    + apply Nat.ltb_ge in E.
      apply safe_ret. split.
      * assert (r = length X) as -> by lia. by apply slots_rows_snoc.
      * intros r' Hr'. apply lenIndices_at_inj in Hr'. by subst r'.
Qed.

Lemma recreate_index_rows (partialSoln : list Z) (i : nat)
    (st : option (list (option (list (list Z))) * nat * nat)) :
  Forall (fun t => (0 <= t < 256)%Z) partialSoln ->
  i < 2 ^ K -> counter i st -> recreated base_state st ->
  safe (recreate_index base_state partialSoln i st) (recreated base_state).
Proof.
  intros Hbytes Hi Hcount Hst. unfold recreate_index.
  destruct st as [[[X hl] li] |]; [| by apply safe_ret].
  destruct Hcount as (Hw & _ & _). destruct Hst as [HX _].
  assert (Ht : (0 <= byte_at partialSoln i < 256)%Z).
  { unfold byte_at. destruct (partialSoln !! i) as [t |] eqn:E; [| simpl; lia].
    simpl. by apply (Forall_lookup_1 _ _ _ _ Hbytes E). }
  eapply safe_bind; [by apply leaf_rows |].
  intros icv [Hsub Hbelow]. cbv zeta.
  apply (safe_bind _ _ (recreated base_state)).
  - rewrite <- hashLen_at_0. change 4 with (lenIndices_at 0).
    apply (subtree_loop_rows partialSoln i); try done; simpl; lia.
  - intros [st' |] Hst'; [| by apply safe_ret].
    apply (safe_bind _ _ (fun _ => True)); [apply safe_throw_if | intros _ _].
    by apply safe_ret.
Qed.

Lemma recreate_sound (partialSoln : list Z) (solns : list (list Z)) :
  Forall (fun t => (0 <= t < 256)%Z) partialSoln ->
  all_trees base_state solns ->
  safe (recreate base_state partialSoln solns) (all_trees base_state).
Proof.
  intros Hbytes Hsolns. unfold recreate.
  apply (safe_bind _ _ (fun st => counter (2 ^ K) st /\ recreated base_state st)).
  - rewrite (soln_size_pow2 K_small).
    rewrite <- (map_id (seq 0 (2 ^ K))).
    apply (safe_for_each_from (fun i st => counter i st /\ recreated base_state st) id
             (recreate_index base_state partialSoln) (2 ^ K) 0).
    + intros j st Hj [Hcount Hst]. unfold id. apply safe_and.
      * apply (recreate_index_counter base_state K_small); [lia | done].
      * apply recreate_index_rows; [done | lia | done | done].
    + split.
      * unfold counter. split; [done |]. split; [by left | lia].
      * split; [by intros r rows Hr; destruct r | ].
        intros r Hr. unfold lenIndices_at in Hr. pose proof (pow2_pos r). lia.
  - intros [[[X hl] li] |] [Hcount Hst]; [| by apply safe_ret].
    destruct (counter_full X hl li Hcount) as (Hlen & Heng & ->).
    destruct Hst as [HX Hhl]. rewrite (Hhl K eq_refl).
    apply (safe_bind _ _ (fun _ => True)).
    { intros log. unfold solver_assert. by rewrite Hlen, Nat.eqb_refl. }
    intros _ _. unfold engaged in Heng.
    destruct (X !! K) as [[rows |] |] eqn:EX; try done.
    destruct (HX K rows EX) as [Hsub Hbelow].
    apply (safe_bind _ _ (fun _ => True)); [apply safe_throw_if | intros _ _].
    apply safe_ret.
    apply foldl_invariant; [| done].
    intros row out Hrow Hout s Hs.
    apply set_insert_elem in Hs as [Hs | ->]; [by apply Hout |].
    destruct (Hsub row Hrow) as (s & v & Hls & Hpass & Hlv & Hlrow & Hagree & Hget).
    destruct (Hbelow row Hrow) as [_ Hrange].
    assert (Hs : GetIndices row (hashLen_at K) (lenIndices_at K) = s).
    { rewrite <- Hget. unfold lenIndices_at.
      apply (GetIndices_agree (hashLen_at K + 4 * 2 ^ K)); [exact Hagree | lia]. }
    rewrite Hs in *. split; [exact Hrange |].
    exists v. by apply (passes_valid_tree base_state K_small K s v _ _ Hls Hpass).
Qed.

(** The truncated phase: its rows keep bytes as their history. *)
Hypothesis TruncatedWidth_fits :
  forall r, r < K -> hashLen_at r + 2 ^ r <= TruncatedWidth.
Hypothesis FinalTruncatedWidth_final :
  hashLen_at (K - 1) + 2 ^ K <= FinalTruncatedWidth.

(** The probe never asks to stop. *)
Hypothesis never_cancelled : forall log label, cancelled log label = false.

Lemma truncated_leaf_history (i ilen : Z) :
  byte_history (hashLen_at 0) 1 (TruncatedStepRow_new TruncatedWidth N K base_state i ilen).
Proof.
  pose proof (TruncatedWidth_fits 0 ltac:(lia)) as HW. simpl in HW.
  rewrite hashLen_at_0 in *.
  pose proof (StepRow_new_length base_state TruncatedWidth i) as Hl.
  assert (Hrow : TruncatedStepRow_new TruncatedWidth N K base_state i ilen
                 = <[ExpandedHashLength := TruncateIndex i ilen]>
                     (StepRow_new TruncatedWidth N K base_state i)) by done.
  rewrite Hrow. split; [rewrite length_insert; lia |].
  intros x Hx. replace x with 0 by lia. rewrite Nat.add_0_r.
  unfold byte_at. rewrite list_lookup_insert_eq by lia. simpl.
  unfold TruncateIndex. pose proof (land_le (Z.shiftr i (u32 (ilen - 8))) 255). lia.
Qed.

Lemma truncated_merge_history (WIDTH : nat) (a b : list Z) (len lenIndices trim : nat) :
  trim <= len -> len - trim + 2 * lenIndices <= WIDTH ->
  byte_history len lenIndices a -> byte_history len lenIndices b ->
  byte_history (len - trim) (2 * lenIndices)
    (TruncatedStepRow_merge WIDTH a b len lenIndices trim).
Proof.
  intros Htrim HW [Hla Ha] [Hlb Hb].
  destruct (truncated_merge_bytes WIDTH a b len lenIndices trim Htrim HW Hla Hlb)
    as (Hlen & _ & Hfirst & Hsecond).
  split; [lia |]. intros x Hx.
  destruct (decide (x < lenIndices)) as [Hlt | Hge].
  - rewrite (Hfirst x Hlt).
    destruct (TruncatedIndicesBefore a b len lenIndices); [by apply Ha | by apply Hb].
  - replace (len - trim + x) with (len - trim + lenIndices + (x - lenIndices)) by lia.
    rewrite (Hsecond (x - lenIndices)) by lia.
    destruct (TruncatedIndicesBefore a b len lenIndices); [apply Hb | apply Ha]; lia.
Qed.

Lemma history_bytes (hashLen lenIndices : nat) (row : list Z) :
  byte_history hashLen lenIndices row ->
  Forall (fun t => (0 <= t < 256)%Z) (GetTruncatedIndices row hashLen lenIndices).
Proof.
  intros [Hl Hb]. apply Forall_lookup_2. intros x t Hx.
  unfold GetTruncatedIndices in Hx.
  assert (Hlt : x < lenIndices).
  { apply lookup_lt_Some in Hx. rewrite length_take in Hx. lia. }
  rewrite lookup_take_lt, lookup_drop in Hx by done.
  rewrite <- (byte_at_lookup _ _ _ Hx). by apply Hb.
Qed.

Lemma truncated_round_bytes (r : nat) (X : list (list Z)) :
  S r < K ->
  (forall row, In row X -> byte_history (hashLen_at r) (2 ^ r) row) ->
  returns (truncated_round (X, hashLen_at r, 2 ^ r))
    (fun st => (forall row, In row st.1.1 -> byte_history (hashLen_at (S r)) (2 ^ S r) row) /\
               st.1.2 = hashLen_at (S r) /\ st.2 = 2 ^ S r).
Proof.
  intros Hr HX.
  eapply returns_weaken; [by apply truncated_round_refines |].
  intros [[X' hl'] li'] (Hperm & -> & ->). cbn [fst snd].
  pose proof (hashLen_at_succ r ltac:(lia)) as Hhl.
  pose proof (hashLen_at_ge r ltac:(lia)) as Hge.
  pose proof (TruncatedWidth_fits (S r) Hr) as HW.
  split; [| split; [lia | simpl; lia]].
  intros x Hx.
  apply (Permutation_in _ Hperm) in Hx.
  destruct (fresh_round_elem _ _ _ x Hx) as (a & b & Ha & Hb & _ & Hprod).
  apply (std_sort_In std_sort_permutation) in Ha, Hb.
  unfold truncated_produce in Hprod. cbv zeta in Hprod.
  destruct (negb _); [| done]. destruct Hprod as [<- | []].
  rewrite Hhl. replace (2 ^ S r) with (2 * 2 ^ r) by (simpl; lia).
  apply truncated_merge_history; [lia | | by apply HX | by apply HX].
  rewrite <- Hhl. simpl in HW. lia.
Qed.

Lemma truncated_rounds_bytes (n : nat) :
  forall r X,
    n + S r = K ->
    (forall row, In row X -> byte_history (hashLen_at r) (2 ^ r) row) ->
    returns (rounds truncated_round n (S r) (X, hashLen_at r, 2 ^ r))
      (fun st => exists r', r' < K /\
                   (forall row, In row st.1.1 -> byte_history (hashLen_at r') (2 ^ r') row) /\
                   st.1.2 = hashLen_at r' /\ st.2 = 2 ^ r' /\
                   (r' = K - 1 \/ st.1.1 = [])).
Proof.
  induction n as [|n IH]; intros r X Hn HX; cbn [rounds].
  - apply returns_ret. exists r. cbn [fst snd].
    split; [lia |]. split; [done |]. split; [done |]. split; [done |]. left. lia.
  - destruct (S r <? K) eqn:E1; [| apply Nat.ltb_ge in E1; lia]. apply Nat.ltb_lt in E1.
    destruct (0 <? length X) eqn:E2; cbn [andb].
    + eapply returns_bind; [by apply (truncated_round_bytes r X E1 HX) |].
      intros [[X' hl'] li'] (HX' & Hhl & Hli). cbn [fst snd] in *. subst hl' li'.
      replace (S r + 1) with (S (S r)) by lia. apply IH; [lia | done].
    + apply Nat.ltb_ge in E2. apply returns_ret. exists r. cbn [fst snd].
      split; [lia |]. split; [done |]. split; [done |]. split; [done |].
      right. destruct X; [done | simpl in E2; lia].
Qed.

Lemma partial_solutions_bytes (r : nat) (X : list (list Z)) :
  (forall row, In row X -> byte_history (hashLen_at r) (2 ^ r) row) ->
  r = K - 1 \/ X = [] ->
  returns (final_round (truncated_final_emit (hashLen_at r) (2 ^ r)) X (hashLen_at r) [])
    (fun partialSolns =>
       forall p, In p partialSolns -> Forall (fun t => (0 <= t < 256)%Z) p).
Proof.
  intros HX Hlast. unfold final_round.
  destruct (1 <? length X) eqn:E; [| apply returns_ret; by intros p []].
  destruct Hlast as [-> | ->]; [| done].
  apply (returns_bind _ _ (fun _ => True)); [by apply throw_if_returns |]. intros _ _.
  apply (final_loop_invariant K_pos K_small index_bits FinalFullWidth_final never_cancelled);
    [| by intros p []].
  intros p q out Hp Hq _ Hout s Hs.
  unfold truncated_final_emit in Hs. cbv zeta in Hs.
  apply in_app_or in Hs as [Hs | [<- | []]]; [by apply Hout |].
  apply (std_sort_In std_sort_permutation) in Hp, Hq.
  apply (history_bytes (hashLen_at (K - 1)) (2 * 2 ^ (K - 1))).
  assert (Hpow : 2 * 2 ^ (K - 1) = 2 ^ K).
  { replace K with (S (K - 1)) at 2 by lia. simpl. lia. }
  pose proof (truncated_merge_history FinalTruncatedWidth
                (row_at (std_sort (CompareSR (hashLen_at (K - 1))) X) p)
                (row_at (std_sort (CompareSR (hashLen_at (K - 1))) X) q)
                (hashLen_at (K - 1)) (2 ^ (K - 1)) 0
                ltac:(lia) ltac:(lia) (HX _ Hp) (HX _ Hq)) as H.
  rewrite Nat.sub_0_r in H. exact H.
Qed.

Lemma OptimisedSolve_trees :
  returns (OptimisedSolve base_state) (all_trees base_state).
Proof.
  unfold OptimisedSolve.
  eapply returns_bind.
  { apply (for_each_collect
             (fun i => TruncatedStepRow_new TruncatedWidth N K base_state (Z.of_nat i)
                         (Z.of_nat (CollisionBitLength + 1)))
             ListGeneration (seq 0 init_size) never_cancelled []). }
  intros Xt ->. cbv beta. rewrite app_nil_l.
  eapply returns_bind.
  { rewrite <- hashLen_at_0. change 1 with (2 ^ 0) at 2.
    apply (truncated_rounds_bytes (K - 1) 0); [lia |].
    intros row Hrow. apply in_map_iff in Hrow as (i & <- & _).
    apply truncated_leaf_history. }
  intros [[Xt' hl'] li'] (r' & Hr' & HX' & Hhl & Hli & Hlast). cbn [fst snd] in *.
  subst hl' li'.
  eapply returns_bind; [by apply partial_solutions_bytes |].
  intros partialSolns Hbytes. cbv beta in Hbytes.
  apply for_each_returns; [| by intros s []].
  intros partialSoln solns Hin Hsolns.
  apply (safe_polite_returns _ _ never_cancelled).
  - apply recreate_sound; [by apply Hbytes | done].
  - apply polite_recreate.
Qed.

End Recreated.

Section Optimised.

Variable base_state : eh_HashState.

(** The parameters are admissible (the widths of crypto/equihash.h are wide
    enough for every row that the solvers and the verifier build, an index
    has at least the eight bits of a truncated index and fewer than 32),
    [std::sort] sorts, and the probe never asks to stop. *)
Hypothesis K_pos : 1 <= K.
Hypothesis K_small : K < 32.
Hypothesis index_bits : CollisionBitLength + 1 < 32.
Hypothesis trunc_bits : 8 <= CollisionBitLength + 1.
Hypothesis FullWidth_fits :
  forall r, r < K -> hashLen_at r + lenIndices_at r <= FullWidth.
Hypothesis FinalFullWidth_fits :
  forall r, r < K -> hashLen_at r + lenIndices_at r <= FinalFullWidth.
Hypothesis FinalFullWidth_final :
  hashLen_at (K - 1) + lenIndices_at K <= FinalFullWidth.
Hypothesis TruncatedWidth_fits :
  forall r, r < K -> hashLen_at r + 2 ^ r <= TruncatedWidth.
Hypothesis FinalTruncatedWidth_final :
  hashLen_at (K - 1) + 2 ^ K <= FinalTruncatedWidth.
Hypothesis std_sort_permutation : forall cmp X, std_sort cmp X ≡ₚ X.
Hypothesis std_sort_sorted :
  forall len X,
    StronglySorted (fun a b => CompareSR len b a = false) (std_sort (CompareSR len) X).
Hypothesis never_cancelled : forall log label, cancelled log label = false.


Lemma OptimisedSolve_all_trees :
  returns (OptimisedSolve base_state) (all_trees base_state).
Proof.
  by apply (OptimisedSolve_trees base_state K_pos K_small index_bits trunc_bits
              FinalFullWidth_fits FinalFullWidth_final std_sort_permutation
              TruncatedWidth_fits FinalTruncatedWidth_final never_cancelled).
Qed.



(** X22. For admissible parameters, a [std::sort] that returns a permutation
    and a probe that never asks to stop, every index sequence that
    OptimisedSolve returns has 2^K indices, no index twice, only indices
    below init_size, and its first index is its least. *)
Theorem X22_optimised_solutions_are_canonical :
  returns (OptimisedSolve base_state)
    (fun solns =>
       forall s, In s solns ->
         length s = 2 ^ K /\ NoDup s /\
         Forall (fun i => (0 <= i < Z.of_nat init_size)%Z) s /\
         forall i, In i s -> (hd 0%Z s <= i)%Z).
Proof.
  eapply returns_weaken; [apply OptimisedSolve_all_trees |].
  intros solns Hsolns s Hs.
  destruct (Hsolns s Hs) as (Hrange & v & Hv).
  pose proof (init_range K_pos K_small index_bits FinalFullWidth_final s Hrange) as Hword.
  pose proof (FinalFullWidth_fits_all K_pos K_small index_bits FinalFullWidth_fits
                FinalFullWidth_final) as Hall.
  split; [by apply (valid_tree_passes base_state K_small K s v) |].
  split; [by apply (valid_tree_indices base_state K_small Hall K s v) |].
  split; [done |].
  by apply (valid_tree_least base_state K_small Hall K s v).
Qed.

End Optimised.


End Equihash.

(** ** The properties at the small instance *)

Lemma toy_insert_permutation (cmp : list Z -> list Z -> bool) (x : list Z) (l : list (list Z)) :
  toy_insert cmp x l ≡ₚ x :: l.
Proof.
  induction l as [|y l IH]; simpl; [done |].
  destruct (cmp y x); [| done]. rewrite IH. apply Permutation_swap.
Qed.

Lemma toy_sort_permutation (cmp : list Z -> list Z -> bool) (X : list (list Z)) :
  toy_sort cmp X ≡ₚ X.
Proof.
  unfold toy_sort. rewrite <- (reverse_Permutation X) at 2.
  induction (reverse X) as [|x l IH]; simpl; [done |].
  by rewrite toy_insert_permutation, IH.
Qed.

Lemma toy_FullWidth_fits (r : nat) :
  r < 5 -> hashLen_at 48 5 r + lenIndices_at r <= toy_FullWidth.
Proof.
  intros Hr. do 5 (destruct r as [|r]; [vm_compute; lia |]). lia.
Qed.

Lemma toy_FinalFullWidth_fits (r : nat) :
  r < 5 -> hashLen_at 48 5 r + lenIndices_at r <= toy_FinalFullWidth.
Proof.
  intros Hr. do 5 (destruct r as [|r]; [vm_compute; lia |]). lia.
Qed.

Lemma C1_basic_solutions_are_valid_witness :
  IsValidSolution toy_update toy_final 48 5 toy_FinalFullWidth [] toy_solution = Value true.
Proof.
  destruct (C1_basic_solutions_are_valid toy_update toy_final toy_sort never_cancel
              48 5 toy_FullWidth toy_FinalFullWidth []
              ltac:(lia) ltac:(lia) ltac:(vm_compute; lia)
              toy_FullWidth_fits toy_FinalFullWidth_fits ltac:(vm_compute; lia)
              toy_sort_permutation ltac:(reflexivity) [])
    as (solns & log' & Hrun & Hvalid).
  assert (Hsolns : solns = [toy_solution]).
  { assert (H : fst (BasicSolve toy_update toy_final toy_sort never_cancel
                       48 5 toy_FullWidth toy_FinalFullWidth [] [])
                = Returned [toy_solution]) by (vm_compute; reflexivity).
    rewrite Hrun in H. simpl in H. by injection H. }
  apply Hvalid. rewrite Hsolns. by left.
Defined.

Lemma C4_non_canonical_order_is_rejected_witness :
  IsValidSolution toy_update toy_final 48 5 toy_FinalFullWidth []
    (2 :: 0 :: drop 2 toy_solution)%Z = Value false /\
  IsValidSolution toy_update toy_final 48 5 toy_FinalFullWidth []
    (2 :: 0 :: drop 2 toy_solution)%Z = Value false.
Proof.
  pose proof (C4_non_canonical_order_is_rejected toy_update toy_final 48 5
                toy_FinalFullWidth [] ltac:(lia)) as [Hlevel Hswap].
  split.
  - apply (Hlevel (2 :: 0 :: drop 2 toy_solution)%Z
             (map (FullStepRow_new toy_update toy_final toy_FinalFullWidth 48 5 [])
                (2 :: 0 :: drop 2 toy_solution)%Z)
             (ExpandedHashLength 48 5) 4 0
             (FullStepRow_new toy_update toy_final toy_FinalFullWidth 48 5 [] 2)
             (FullStepRow_new toy_update toy_final toy_FinalFullWidth 48 5 [] 0)).
    + reflexivity.
    + apply loop_head_entry.
    + reflexivity.
    + reflexivity.
    + vm_compute. intros H. discriminate H.
  - apply (Hswap 0 2 (drop 2 toy_solution))%Z. vm_compute. reflexivity.
Defined.

Lemma C6_merge_constructors_witness :
  index_history (FullStepRow_merge 11 [5; 6; 7; 0; 0; 0; 9] [5; 1; 2; 0; 0; 0; 3] 3 4 1)%Z
    (3 - 1) (2 * 4)
  = ([0; 0; 0; 3] ++ [0; 0; 0; 9])%Z.
Proof.
  pose proof (C6_merge_constructors 11 [5; 6; 7; 0; 0; 0; 9]%Z [5; 1; 2; 0; 0; 0; 3]%Z 3 4 1
                ltac:(reflexivity) ltac:(unfold merge_asserts; simpl; lia)) as [[_ H] _].
  exact H.
Defined.

Lemma C7_in_place_compaction_witness :
  returns
    (basic_round toy_sort never_cancel 48 5 toy_FullWidth
       (map (fun i => FullStepRow_new toy_update toy_final toy_FullWidth 48 5 [] (Z.of_nat i))
          (seq 0 8), 6, 4))
    (fun '(X', hashLen', lenIndices') =>
       X' ≡ₚ fresh_round (basic_produce 48 5 toy_FullWidth 6 4) (CollisionByteLength 48 5)
               (toy_sort (CompareSR (CollisionByteLength 48 5))
                  (map (fun i => FullStepRow_new toy_update toy_final toy_FullWidth 48 5 []
                                   (Z.of_nat i)) (seq 0 8))) /\
       hashLen' = 6 - CollisionByteLength 48 5 /\ lenIndices' = 4 * 2).
Proof.
  apply (C7_in_place_compaction toy_sort never_cancel 48 5 toy_FullWidth).
  - reflexivity.
  - simpl. lia.
Defined.

Lemma C8_cancelled_at_list_generation_witness :
  BasicSolve toy_update toy_final toy_sort always_cancel 48 5
    toy_FullWidth toy_FinalFullWidth [] []
  = (SolverCancelled, [ListGeneration]) /\
  OptimisedSolve toy_update toy_final toy_sort always_cancel 48 5
    toy_FinalFullWidth toy_TruncatedWidth toy_FinalTruncatedWidth [] []
  = (SolverCancelled, [ListGeneration]).
Proof.
  apply (C8_cancelled_at_list_generation toy_update toy_final toy_sort always_cancel 48 5
           toy_FullWidth toy_FinalFullWidth toy_TruncatedWidth toy_FinalTruncatedWidth [] []).
  - vm_compute. lia.
  - reflexivity.
Defined.

Lemma C10_verifier_walk_is_safe_witness :
  exists b, IsValidSolution toy_update toy_final 48 5 toy_FinalFullWidth [] toy_twin = Value b.
Proof.
  apply (C10_verifier_walk_is_safe toy_update toy_final 48 5 toy_FinalFullWidth [] toy_twin).
  - lia.
  - reflexivity.
Defined.

(** ** Further properties at concrete parameters *)

Lemma le32_bytes (i : Z) :
  le32 i
  = [ (i mod 256)%Z; ((i / 2 ^ 8) mod 256)%Z;
      ((i / 2 ^ 16) mod 256)%Z; ((i / 2 ^ 24) mod 256)%Z ].
Proof.
  unfold le32. rewrite !byte_of_word by lia.
  replace (Z.land i 255) with (Z.land (Z.shiftr i 0) 255) by (by rewrite Z.shiftr_0_r).
  rewrite byte_of_word by lia. by rewrite Z.pow_0_r, Z.div_1_r.
Qed.

Lemma le32_inj (i j : Z) :
  (0 <= i < 2 ^ 32)%Z -> (0 <= j < 2 ^ 32)%Z -> le32 i = le32 j -> i = j.
Proof.
  intros Hi Hj. rewrite !le32_bytes. intros H.
  injection H as H0 H1 H2 H3.
  Z.to_euclidean_division_equations; lia.
Qed.

Lemma personalization_layout (N K : nat) :
  (Z.of_nat N < 2 ^ 32)%Z -> (Z.of_nat K < 2 ^ 32)%Z ->
  personalization N K = ZcashPoW ++ le32 (Z.of_nat N) ++ le32 (Z.of_nat K).
Proof.
  intros HN HK. unfold personalization. rewrite !u32_small by lia. reflexivity.
Qed.

(** X1. The personalisation that InitialiseState hands to Blake2b is the 16
    bytes "ZcashPoW", N and K, the two numbers as little-endian 32-bit
    words; so two parameter sets get the same personalisation only if they
    are the same parameter set. *)
Theorem X1_personalization_separates_parameters (N K N' K' : nat) :
  (Z.of_nat N < 2 ^ 32)%Z -> (Z.of_nat K < 2 ^ 32)%Z ->
  (Z.of_nat N' < 2 ^ 32)%Z -> (Z.of_nat K' < 2 ^ 32)%Z ->
  personalization N K = ZcashPoW ++ le32 (Z.of_nat N) ++ le32 (Z.of_nat K) /\
  length (personalization N K) = crypto_generichash_blake2b_PERSONALBYTES /\
  (personalization N K = personalization N' K' -> N = N' /\ K = K').
Proof.
  intros HN HK HN' HK'.
  split; [by apply personalization_layout |]. split.
  - by rewrite personalization_layout.
  - rewrite !personalization_layout by done. intros H.
    apply app_inv_head in H.
    apply app_inj_1 in H as [HNN HKK]; [| done].
    apply le32_inj in HNN, HKK; lia.
Qed.

Lemma X1_personalization_separates_parameters_witness :
  personalization 200 9
  = [90; 99; 97; 115; 104; 80; 111; 87; 200; 0; 0; 0; 9; 0; 0; 0]%Z /\
  (personalization 200 9 = personalization 96 5 -> 200 = 96 /\ 9 = 5).
Proof.
  pose proof (X1_personalization_separates_parameters 200 9 96 5
                ltac:(lia) ltac:(lia) ltac:(lia) ltac:(lia)) as (Hlay & _ & Hinj).
  split; [| exact Hinj].
  rewrite Hlay. reflexivity.
Defined.

(** X2. The big-endian encoding of an index is read back as the same index,
    and four bytes that are read as an index are written back unchanged. *)
Theorem X2_index_bytes_round_trip :
  (forall i : Z, (0 <= i < 2 ^ 32)%Z -> ArrayToEhIndex (EhIndexToArray i) 0 = i) /\
  (forall b0 b1 b2 b3 : Z,
     (0 <= b0 < 256)%Z -> (0 <= b1 < 256)%Z -> (0 <= b2 < 256)%Z -> (0 <= b3 < 256)%Z ->
     (0 <= ArrayToEhIndex [b0; b1; b2; b3] 0 < 2 ^ 32)%Z /\
     EhIndexToArray (ArrayToEhIndex [b0; b1; b2; b3] 0) = [b0; b1; b2; b3]).
Proof.
  split.
  - intros i Hi. unfold ArrayToEhIndex, EhIndexToArray, byte_at. simpl.
    by apply be32_roundtrip.
  - intros b0 b1 b2 b3 H0 H1 H2 H3.
    rewrite ArrayToEhIndex_sum.
    2:{ intros x Hx. do 4 (destruct x as [|x]; [by simpl |]). lia. }
    unfold byte_at. simpl.
    split; [lia |].
    rewrite EhIndexToArray_bytes.
    repeat f_equal; Z.to_euclidean_division_equations; lia.
Qed.

Lemma X2_index_bytes_round_trip_witness :
  ArrayToEhIndex (EhIndexToArray 305419896) 0 = 305419896%Z /\
  EhIndexToArray (ArrayToEhIndex [18; 52; 86; 120]%Z 0) = [18; 52; 86; 120]%Z.
Proof.
  split.
  - apply (proj1 X2_index_bytes_round_trip). lia.
  - apply (proj2 X2_index_bytes_round_trip); lia.
Defined.

(** X3. Indices are stored big-endian so that the byte-wise comparison of
    two encodings is the comparison of the two indices. *)
Theorem X3_big_endian_order (i j : Z) :
  (0 <= i < 2 ^ 32)%Z -> (0 <= j < 2 ^ 32)%Z ->
  memcmp_from (EhIndexToArray i) (EhIndexToArray j) 0 4 = (i ?= j)%Z.
Proof.
  intros Hi Hj. rewrite !EhIndexToArray_bytes.
  unfold memcmp_from, byte_at. simpl.
  symmetry.
  repeat match goal with
         | |- context [(?x ?= ?y)%Z] =>
             lazymatch x with
             | i => fail
             | _ => destruct (Z.compare_spec x y)
             end
         end;
    first [ apply Z.compare_eq_iff | apply Z.compare_lt_iff | apply Z.compare_gt_iff ];
    Z.to_euclidean_division_equations; lia.
Qed.

Lemma X3_big_endian_order_witness :
  memcmp_from (EhIndexToArray 255) (EhIndexToArray 256) 0 4 = (255 ?= 256)%Z.
Proof. apply X3_big_endian_order; lia. Defined.

Lemma X4_truncate_untruncate_witness :
  TruncateIndex (UntruncateIndex 150 1 9) 9 = 150%Z.
Proof.
  apply (X4_truncate_untruncate 150 1 9); [lia | lia | simpl; lia].
Defined.

Lemma X9_collision_is_zero_xor_witness :
  HasCollision [5; 6; 7; 0; 0; 0; 9]%Z [5; 6; 7; 0; 0; 0; 3]%Z 3
  = HasCollision [5; 6; 7; 0; 0; 0; 9]%Z [5; 6; 7; 0; 0; 0; 3]%Z 1
    && IsZero (FullStepRow_merge 11 [5; 6; 7; 0; 0; 0; 9]%Z [5; 6; 7; 0; 0; 0; 3]%Z 3 4 1)
         (3 - 1).
Proof.
  apply (X9_collision_is_zero_xor 11 [5; 6; 7; 0; 0; 0; 9]%Z [5; 6; 7; 0; 0; 0; 3]%Z 3 4 1);
    simpl; lia.
Defined.

Lemma X10_run_is_maximal_witness :
  run_length [[1; 2]; [1; 3]; [2; 3]]%Z 1 0 1 3 = 2 /\
  HasCollision [1; 2]%Z [2; 3]%Z 1 = false.
Proof.
  pose proof (X10_run_is_maximal [[1; 2]; [1; 3]; [2; 3]]%Z 1 0 ltac:(simpl; lia))
    as (_ & _ & _ & H).
  split; [reflexivity |]. apply H. simpl. lia.
Defined.

Lemma X11_duplicate_filter_never_misses_witness :
  IsProbablyDuplicate (map (fun i => TruncateIndex i 9%Z) [300; 7; 7; 300]%Z) 4 = true.
Proof.
  apply (proj1 X11_duplicate_filter_never_misses [300; 7; 7; 300]%Z 9%Z).
  intros v. unfold occurrences.
  destruct (decide (v = 300%Z)) as [-> | H1]; [by exists 1 |].
  destruct (decide (v = 7%Z)) as [-> | H2]; [by exists 1 |].
  exists 0. by rewrite !filter_cons_False by congruence.
Defined.

Lemma X5_recreation_candidates_witness :
  init_size 48 5 = 256 * recreate_size 48 5 /\
  NoDup (map (fun j => UntruncateIndex 3 (Z.of_nat j) (Z.of_nat (CollisionBitLength 48 5 + 1)))
           (seq 0 (recreate_size 48 5))).
Proof.
  pose proof (X5_recreation_candidates 48 5 3 ltac:(vm_compute; lia) ltac:(lia))
    as (H1 & H2 & _).
  by split.
Defined.

Lemma X6_StepRow_masks_blocks_witness :
  (0 <= byte_at (StepRow_new toy_update toy_final toy_FullWidth 48 5 [] 2) 0
   <= Z.shiftr 255 (Z.of_nat (8 * CollisionByteLength 48 5 - CollisionBitLength 48 5)))%Z.
Proof.
  pose proof (X6_StepRow_masks_blocks toy_update toy_final 48 5 [] toy_FullWidth 2
                ltac:(vm_compute; lia)) as (_ & _ & H).
  apply (H 0). lia.
Defined.

Lemma X7_full_leaf_reads_back_index_witness :
  GetIndices (FullStepRow_new toy_update toy_final toy_FullWidth 48 5 [] 7)
    (ExpandedHashLength 48 5) 4 = [7%Z].
Proof.
  pose proof (X7_full_leaf_reads_back_index toy_update toy_final 48 5 [] toy_FullWidth 7
                ltac:(vm_compute; lia) ltac:(lia)) as (_ & _ & H).
  exact H.
Defined.

Lemma X8_truncated_leaf_witness :
  GetTruncatedIndices
    (TruncatedStepRow_new toy_update toy_final toy_TruncatedWidth 48 5 [] 300 9)
    (ExpandedHashLength 48 5) 1 = [TruncateIndex 300 9].
Proof.
  pose proof (X8_truncated_leaf toy_update toy_final 48 5 [] toy_TruncatedWidth toy_FullWidth
                300 9 ltac:(vm_compute; lia) ltac:(vm_compute; lia)) as (_ & _ & H & _).
  exact H.
Defined.

Lemma memcmp_from_antisym (a b : list Z) (n : nat) :
  forall off, memcmp_from a b off n = CompOpp (memcmp_from b a off n).
Proof.
  induction n as [|n IH]; intros off; cbn [memcmp_from]; [done |].
  rewrite (Z.compare_antisym (byte_at a off) (byte_at b off)).
  destruct (byte_at a off ?= byte_at b off)%Z; simpl; [apply IH | done | done].
Qed.

Lemma memcmp_from_trans (a b c : list Z) (n : nat) :
  forall off,
    memcmp_from a b off n <> Gt -> memcmp_from b c off n <> Gt ->
    memcmp_from a c off n <> Gt.
Proof.
  induction n as [|n IH]; intros off; cbn [memcmp_from]; [done |].
  destruct (Z.compare_spec (byte_at a off) (byte_at b off)) as [Hab | Hab | Hab];
    destruct (Z.compare_spec (byte_at b off) (byte_at c off)) as [Hbc | Hbc | Hbc];
    destruct (Z.compare_spec (byte_at a off) (byte_at c off)) as [Hac | Hac | Hac];
    try done; try lia.
  apply IH.
Qed.

Lemma CompareSR_le_trans (len : nat) (a b c : list Z) :
  CompareSR len b a = false -> CompareSR len c b = false -> CompareSR len c a = false.
Proof.
  unfold CompareSR. intros Hab Hbc.
  pose proof (memcmp_from_trans a b c len 0) as Ht.
  rewrite (memcmp_from_antisym b a), (memcmp_from_antisym c b),
    (memcmp_from_antisym c a) in *.
  destruct (memcmp_from a b 0 len), (memcmp_from b c 0 len), (memcmp_from a c 0 len);
    simpl in *; try done; by destruct Ht.
Qed.

Lemma CompareSR_asym (len : nat) (a b : list Z) :
  CompareSR len a b = true -> CompareSR len b a = false.
Proof.
  unfold CompareSR. rewrite (memcmp_from_antisym b a).
  by destruct (memcmp_from a b 0 len).
Qed.

Lemma toy_insert_sorted (len : nat) (x : list Z) (l : list (list Z)) :
  StronglySorted (fun a b => CompareSR len b a = false) l ->
  StronglySorted (fun a b => CompareSR len b a = false) (toy_insert (CompareSR len) x l).
Proof.
  induction 1 as [|y l Hs IH Hy]; simpl.
  - by repeat constructor.
  - destruct (CompareSR len y x) eqn:E.
    + constructor; [done |].
      rewrite toy_insert_permutation. constructor; [by apply CompareSR_asym | done].
    + constructor; [by constructor |]. constructor; [done |].
      eapply Forall_impl; [exact Hy |]. intros z Hz. cbv beta in *.
      by apply (CompareSR_le_trans len x y z).
Qed.

Lemma toy_sort_sorted (len : nat) (X : list (list Z)) :
  StronglySorted (fun a b => CompareSR len b a = false) (toy_sort (CompareSR len) X).
Proof.
  unfold toy_sort. induction (reverse X) as [|x l IH]; simpl; [constructor |].
  by apply toy_insert_sorted.
Qed.

Lemma toy_FinalFullWidth_holds (r : nat) :
  r <= 5 -> hashLen_at 48 5 r + lenIndices_at r <= toy_FinalFullWidth.
Proof.
  intros Hr. do 6 (destruct r as [|r]; [vm_compute; lia |]). lia.
Qed.

Lemma toy_solution_range :
  Forall (fun i => (0 <= i < Z.of_nat (init_size 48 5))%Z) toy_solution.
Proof.
  apply Forall_forall. intros i Hi. apply list_elem_of_In in Hi.
  unfold toy_solution in Hi. apply in_map_iff in Hi as (l & <- & Hl).
  apply in_seq in Hl. change (Z.of_nat (init_size 48 5)) with 512%Z. lia.
Qed.

Lemma toy_solution_words : Forall (fun i => (0 <= i < 2 ^ 32)%Z) toy_solution.
Proof.
  eapply Forall_impl; [apply toy_solution_range |]. intros i Hi. cbv beta in *.
  change (Z.of_nat (init_size 48 5)) with 512%Z in Hi. lia.
Qed.

Lemma X12_accepted_solutions_are_trees_witness :
  exists v, valid_tree toy_update toy_final 48 5 toy_FinalFullWidth [] 5 toy_solution v /\
            IsZero v (hashLen_at 48 5 5) = true.
Proof.
  apply (X12_accepted_solutions_are_trees toy_update toy_final 48 5 toy_FinalFullWidth []
           ltac:(lia) toy_solution).
  vm_compute. reflexivity.
Defined.

Lemma X13_accepted_solutions_are_distinct_witness :
  length toy_solution = 2 ^ 5 /\ NoDup toy_solution.
Proof.
  apply (X13_accepted_solutions_are_distinct toy_update toy_final 48 5 toy_FinalFullWidth []
           ltac:(lia) toy_FinalFullWidth_holds toy_solution toy_solution_words).
  vm_compute. reflexivity.
Defined.

Lemma X14_accepted_solutions_xor_to_zero_witness :
  xor_all (map (fun i => byte_at (StepRow_new toy_update toy_final toy_FinalFullWidth 48 5 [] i)
                           3) toy_solution) = 0%Z.
Proof.
  apply (X14_accepted_solutions_xor_to_zero toy_update toy_final 48 5 toy_FinalFullWidth []
           ltac:(lia) toy_FinalFullWidth_holds toy_solution).
  - vm_compute. reflexivity.
  - vm_compute. lia.
Defined.

Lemma X15_accepted_solutions_start_with_least_witness :
  (hd 0 toy_solution <= 62)%Z.
Proof.
  apply (X15_accepted_solutions_start_with_least toy_update toy_final 48 5
           toy_FinalFullWidth [] ltac:(lia) toy_FinalFullWidth_holds toy_solution
           toy_solution_words).
  - vm_compute. reflexivity.
  - vm_compute. tauto.
Defined.

Lemma X16_basic_solve_finds_every_solution_witness :
  returns (BasicSolve toy_update toy_final toy_sort never_cancel 48 5
             toy_FullWidth toy_FinalFullWidth [])
    (fun solns => In toy_solution solns).
Proof.
  apply (X16_basic_solve_finds_every_solution toy_update toy_final toy_sort never_cancel
           48 5 toy_FullWidth toy_FinalFullWidth []
           ltac:(lia) ltac:(lia) ltac:(vm_compute; lia)
           toy_FullWidth_fits toy_FinalFullWidth_fits ltac:(vm_compute; lia)
           toy_sort_permutation toy_sort_sorted ltac:(reflexivity)
           toy_solution toy_solution_range).
  vm_compute. reflexivity.
Defined.

Lemma X17_basic_solutions_are_below_init_size_witness :
  returns (BasicSolve toy_update toy_final toy_sort never_cancel 48 5
             toy_FullWidth toy_FinalFullWidth [])
    (fun solns => forall s, In s solns ->
                    Forall (fun i => (0 <= i < Z.of_nat (init_size 48 5))%Z) s).
Proof.
  apply (X17_basic_solutions_are_below_init_size toy_update toy_final toy_sort never_cancel
           48 5 toy_FullWidth toy_FinalFullWidth []
           ltac:(lia) ltac:(lia) ltac:(vm_compute; lia)
           toy_FullWidth_fits ltac:(vm_compute; lia)
           toy_sort_permutation ltac:(reflexivity)).
Defined.

Lemma X18_CollideBranches_keeps_matching_branches_witness :
  exists X',
    CollideBranches toy_FinalFullWidth
      [FullStepRow_new toy_update toy_final toy_FinalFullWidth 48 5 [] 0;
       FullStepRow_new toy_update toy_final toy_FinalFullWidth 48 5 [] 2]
      6 4 1 9%Z 0%Z 1%Z [] = (Returned X', []) /\
    length X' = 1.
Proof.
  destruct (X18_CollideBranches_keeps_matching_branches toy_FinalFullWidth
              [FullStepRow_new toy_update toy_final toy_FinalFullWidth 48 5 [] 0;
               FullStepRow_new toy_update toy_final toy_FinalFullWidth 48 5 [] 2]
              6 4 1 9%Z 0%Z 1%Z [] ltac:(simpl; lia)) as (X' & Hrun & Hperm & _).
  exists X'. split; [exact Hrun |].
  apply Permutation_length in Hperm. rewrite Hperm. vm_compute. reflexivity.
Defined.

Lemma X19_truncated_round_compaction_witness :
  returns
    (truncated_round toy_sort never_cancel 48 5 toy_TruncatedWidth
       (map (fun i => TruncatedStepRow_new toy_update toy_final toy_TruncatedWidth 48 5 []
                        (Z.of_nat i) 9) (seq 0 8), 6, 1))
    (fun '(X', hashLen', lenIndices') =>
       X' ≡ₚ fresh_round (truncated_produce 48 5 toy_TruncatedWidth 6 1)
               (CollisionByteLength 48 5)
               (toy_sort (CompareSR (CollisionByteLength 48 5))
                  (map (fun i => TruncatedStepRow_new toy_update toy_final toy_TruncatedWidth
                                   48 5 [] (Z.of_nat i) 9) (seq 0 8))) /\
       hashLen' = 6 - CollisionByteLength 48 5 /\ lenIndices' = 1 * 2).
Proof.
  apply (X19_truncated_round_compaction toy_sort never_cancel 48 5 toy_TruncatedWidth).
  - reflexivity.
  - simpl. lia.
Defined.

Lemma X21_optimised_solve_keeps_its_assertion_witness :
  safe (OptimisedSolve toy_update toy_final toy_sort never_cancel 48 5
          toy_FinalFullWidth toy_TruncatedWidth toy_FinalTruncatedWidth [])
    (fun solns => forall s, In s solns -> length s = 2 ^ 5).
Proof.
  apply (X21_optimised_solve_keeps_its_assertion toy_update toy_final toy_sort never_cancel
           48 5 toy_FinalFullWidth toy_TruncatedWidth toy_FinalTruncatedWidth []
           ltac:(lia)).
Defined.

(** ** The sequences of OptimisedSolve at the small instance *)

Lemma toy_TruncatedWidth_fits (r : nat) :
  r < 5 -> hashLen_at 48 5 r + 2 ^ r <= toy_TruncatedWidth.
Proof.
  intros Hr. do 5 (destruct r as [|r]; [vm_compute; lia |]). lia.
Qed.

Lemma X22_optimised_solutions_are_canonical_witness :
  returns (OptimisedSolve toy_update toy_final toy_sort never_cancel 48 5
             toy_FinalFullWidth toy_TruncatedWidth toy_FinalTruncatedWidth [])
    (fun solns =>
       forall s, In s solns ->
         length s = 2 ^ 5 /\ NoDup s /\
         Forall (fun i => (0 <= i < Z.of_nat (init_size 48 5))%Z) s /\
         forall i, In i s -> (hd 0%Z s <= i)%Z).
Proof.
  apply (X22_optimised_solutions_are_canonical toy_update toy_final toy_sort never_cancel
           48 5 toy_FinalFullWidth toy_TruncatedWidth toy_FinalTruncatedWidth []
           ltac:(lia) ltac:(lia) ltac:(vm_compute; lia) ltac:(vm_compute; lia)
           toy_FinalFullWidth_fits ltac:(vm_compute; lia)
           toy_TruncatedWidth_fits ltac:(vm_compute; lia)
           toy_sort_permutation ltac:(reflexivity)).
Defined.


(** ** The solvers on the hashes of BLAKE2b *)

(** The test vector of RFC 7693, appendix A: BLAKE2b-512 of "abc". *)
Lemma blake2b_abc :
  sodium_final
    (sodium_update (sodium_init_salt_personal None 0 64 None []).2 [97; 98; 99]%Z) 64
  = [186; 128; 165; 63; 152; 28; 77; 13; 106; 39; 151; 182; 159; 18; 246; 233;
     76; 33; 47; 20; 104; 90; 196; 183; 75; 18; 187; 111; 219; 255; 162; 209;
     125; 135; 197; 57; 42; 171; 121; 45; 194; 82; 213; 222; 69; 51; 204; 149;
     24; 211; 138; 168; 219; 241; 146; 90; 185; 35; 134; 237; 212; 0; 153; 35]%Z.
Proof. vm_compute. reflexivity. Qed.

(** The hashes of the seeds 222 and 223 under the state that InitialiseState
    yields for (32,3), fed the four bytes of 1302285: they agree on three
    blocks of four. *)
Lemma small_rows :
  let base := sodium_update (InitialiseState 32 3 sodium_init_salt_personal).2
                (le32 1302285) in
  (InitialiseState 32 3 sodium_init_salt_personal).1 = 0%Z /\
  take 3 (sodium_final (sodium_update base (le32 222)) 4)
  = take 3 (sodium_final (sodium_update base (le32 223)) 4) /\
  sodium_final (sodium_update base (le32 222)) 4
  <> sodium_final (sodium_update base (le32 223)) 4.
Proof. vm_compute. repeat split. intros H. discriminate H. Qed.









